(** * NetKet: symmetric RBM, hypercube lattice, Metropolis-local sampler,
      stochastic-reconfiguration gradient and spin Hilbert space.

    A shallow embedding of [RbmSpinSymm], [Hypercube::SymmetryTable],
    [MetropolisLocal::Sweep], [Sr::Gradient] and [Spin::RandomVals], with
    the properties of the specification stated over it.

    Numbers.  The machine is a template over its scalar [T] (double or
    complex<double>); it is embedded over an arbitrary commutative ring
    ([Scalar]), so every identity proved below is exact arithmetic and
    holds for both instantiations.  The doubles of the sampler and of the
    learning driver are real numbers (with NaN added where the source
    depends on it), those that configure the spins are rational numbers.
    Rounding is not modelled.  C++ [int] indices and sizes are [nat]: they
    are non-negative and far below the overflow bound in every function
    embedded here. *)

From Stdlib Require Import ZArith QArith Qround Reals Lra Lia Ring List Permutation.
From stdpp Require Import base list gmap.
Import ListNotations.

(** ** Scalars *)

(** The operations the machine uses on its scalar type, with the laws of a
    commutative ring. *)
Class Scalar (T : Type) := {
  zero : T;
  one : T;
  add : T -> T -> T;
  mul : T -> T -> T;
  sub : T -> T -> T;
  opp : T -> T;
  scalar_ring : ring_theory zero one add mul sub opp (@eq T)
}.

Declare Scope scalar_scope.
Delimit Scope scalar_scope with T.
Infix "+" := add : scalar_scope.
Infix "*" := mul : scalar_scope.
Infix "-" := sub : scalar_scope.
Notation "- x" := (opp x) : scalar_scope.

(** double *)
#[export] Instance R_Scalar : Scalar R := {|
  zero := 0%R; one := 1%R; add := Rplus; mul := Rmult; sub := Rminus; opp := Ropp;
  scalar_ring := RTheory
|}.

(** [for (int i = 0; i < n; i++) body(i)] over a threaded state. *)
Fixpoint for_loop {S : Type} (n : nat) (body : nat -> S -> S) (s : S) : S :=
  match n with
  | O => s
  | Datatypes.S i => body i (for_loop i body s)
  end.

(** *** Loops that fill a vector or a matrix *)
Section Loops.
Context {A : Type}.

(** A counter that every iteration increments is its start plus the
    number of iterations done. *)
Lemma for_loop_counter {X : Type} (g : nat -> nat -> X -> X) (n : nat) (x0 : X) (k0 : nat) :
  for_loop n (fun p '(x, k) => (g p k x, S k)) (x0, k0)
  = (for_loop n (fun p x => g p (k0 + p) x) x0, k0 + n).
Proof.
  induction n as [|n IH]; simpl.
  - by rewrite Nat.add_0_r.
  - rewrite IH. by rewrite Nat.add_succ_r.
Qed.

Lemma for_loop_counter2 {X : Type} (g : nat -> nat -> nat -> X -> X) (r c : nat)
    (x0 : X) (k0 : nat) :
  for_loop r (fun i => for_loop c (fun j '(x, k) => (g i j k x, S k))) (x0, k0)
  = (for_loop r (fun i => for_loop c (fun j x => g i j (k0 + i * c + j) x)) x0,
     k0 + r * c).
Proof.
  induction r as [|r IH]; simpl.
  - by rewrite Nat.add_0_r.
  - rewrite IH, for_loop_counter. f_equal. lia.
Qed.

Lemma for_loop_ext {X : Type} (f g : nat -> X -> X) (n : nat) (x : X) :
  (forall i y, i < n -> f i y = g i y) -> for_loop n f x = for_loop n g x.
Proof.
  induction n as [|n IH]; simpl; intros E; [done|].
  rewrite IH by (intros; apply E; lia). apply E. lia.
Qed.

(** Writing [f 0 .. f (n-1)] at the indices [k0 .. k0+n-1]. *)
Lemma fill_segment (f : nat -> A) (n k0 : nat) (a0 : list A) :
  k0 + n <= length a0 ->
  for_loop n (fun p a => <[k0 + p := f p]> a) a0
  = take k0 a0 ++ map f (seq 0 n) ++ drop (k0 + n) a0.
Proof.
  induction n as [|n IH]; cbn [for_loop]; intros Hlen.
  - cbn [seq map app]. by rewrite Nat.add_0_r, take_drop.
  - rewrite IH by lia.
    rewrite seq_S, map_app. cbn [map Nat.add].
    assert (Hk : length (take k0 a0) = k0) by (rewrite length_take; lia).
    rewrite <- (Nat.add_0_r (k0 + n)) at 1.
    replace (k0 + n + 0) with (length (take k0 a0) + (length (map f (seq 0 n)) + 0))
      by (rewrite Hk, length_map, length_seq; lia).
    rewrite !insert_app_r.
    destruct (drop (k0 + n) a0) as [|x rest] eqn:Hd.
    + apply (f_equal length) in Hd. rewrite length_drop in Hd. simpl in Hd. lia.
    + simpl. rewrite <- app_assoc. simpl. do 3 f_equal.
      replace (k0 + S n) with (k0 + n + 1) by lia.
      by rewrite <- drop_drop, Hd.
Qed.

Lemma fill_all (f : nat -> A) (n : nat) (a0 : list A) :
  length a0 = n ->
  for_loop n (fun p a => <[p := f p]> a) a0 = map f (seq 0 n).
Proof.
  intros Hlen.
  rewrite (for_loop_ext _ (fun p a => <[0 + p := f p]> a)) by done.
  rewrite fill_segment by (simpl; lia). simpl.
  by rewrite drop_ge, app_nil_r by lia.
Qed.

(** The rows [F 0 .. F (r-1)], each of [c] coefficients, written one
    after the other from index [k0] on. *)
Lemma fill_segment2 (F : nat -> nat -> A) (r c k0 : nat) (a0 : list A) :
  k0 + r * c <= length a0 ->
  for_loop r (fun i => for_loop c (fun j a => <[k0 + i * c + j := F i j]> a)) a0
  = take k0 a0 ++ concat (map (fun i => map (F i) (seq 0 c)) (seq 0 r))
      ++ drop (k0 + r * c) a0.
Proof.
  induction r as [|r IH]; cbn [for_loop]; intros Hlen.
  - cbn [seq map concat app]. rewrite Nat.mul_0_l, Nat.add_0_r. by rewrite take_drop.
  - rewrite IH by lia.
    set (mid := concat (map (fun i => map (F i) (seq 0 c)) (seq 0 r))).
    assert (Hmid : length mid = r * c).
    { unfold mid. clear. induction r as [|r IHr]; [done|].
      rewrite seq_S, map_app, concat_app, length_app, IHr. simpl.
      rewrite length_app, length_map, length_seq. simpl. lia. }
    rewrite fill_segment.
    2:{ rewrite !length_app, length_take, length_drop, Hmid. lia. }
    rewrite seq_S, map_app, concat_app. simpl. rewrite app_nil_r. fold mid.
    assert (Hk : length (take k0 a0) = k0) by (rewrite length_take; lia).
    rewrite take_app_ge by lia. rewrite Hk.
    rewrite take_app_ge by lia. rewrite Hmid.
    replace (k0 + r * c - k0 - r * c) with 0 by lia. rewrite take_0, app_nil_r.
    rewrite <- !app_assoc. do 3 f_equal.
    rewrite drop_app_ge by lia. rewrite Hk.
    rewrite drop_app_ge by lia. rewrite Hmid, drop_drop. f_equal. lia.
Qed.

(** Writing a whole row of a matrix, coefficient by coefficient. *)
Lemma alter_row_loop (f : nat -> A) (c i : nat) (M : list (list A)) :
  for_loop c (fun j M => alter (fun row => <[j := f j]> row) i M) M
  = alter (fun row => for_loop c (fun j row => <[j := f j]> row) row) i M.
Proof.
  induction c as [|c IH]; simpl.
  - symmetry. apply list_alter_id. done.
  - rewrite IH. by rewrite list_alter_alter_eq.
Qed.

Lemma fill_matrix (F : nat -> nat -> A) (r c : nat) (M0 : list (list A)) :
  length M0 = r -> Forall (fun row => length row = c) M0 ->
  for_loop r (fun i =>
    for_loop c (fun j M => alter (fun row => <[j := F i j]> row) i M)) M0
  = map (fun i => map (F i) (seq 0 c)) (seq 0 r).
Proof.
  intros Hr Hc.
  assert (G : forall n, n <= r ->
    for_loop n (fun i =>
      for_loop c (fun j M => alter (fun row => <[j := F i j]> row) i M)) M0
    = map (fun i => map (F i) (seq 0 c)) (seq 0 n) ++ drop n M0).
  { induction n as [|n IH]; cbn [for_loop]; intros Hn; [done|].
    rewrite IH by lia. rewrite alter_row_loop.
    rewrite seq_S, map_app. simpl.
    set (pre := map (fun i => map (F i) (seq 0 c)) (seq 0 n)).
    assert (Hpre : length pre = n) by (unfold pre; by rewrite length_map, length_seq).
    destruct (drop n M0) as [|row rest] eqn:Hd.
    { apply (f_equal length) in Hd. rewrite length_drop in Hd. simpl in Hd. lia. }
    rewrite <- (Nat.add_0_r n) at 1. rewrite <- Hpre at 1.
    rewrite alter_app_r. simpl. rewrite <- app_assoc. simpl. do 2 f_equal.
    - apply fill_all.
      assert (Hin : row ∈ M0).
      { apply (list_elem_of_lookup_2 _ n). rewrite <- (Nat.add_0_r n).
        by rewrite <- lookup_drop, Hd. }
      by apply (proj1 (Forall_forall _ _) Hc).
    - replace (S n) with (n + 1) by lia. by rewrite <- drop_drop, Hd. }
  rewrite G by lia. by rewrite drop_ge, app_nil_r by lia.
Qed.

(** Reading [n] consecutive coefficients from index [k] on. *)
Lemma map_nth_segment (d : A) (p : list A) (k n : nat) :
  k + n <= length p ->
  map (fun q => nth (k + q) p d) (seq 0 n) = take n (drop k p).
Proof.
  intros Hlen. apply list_eq. intros i.
  rewrite list_lookup_fmap.
  destruct (decide (i < n)) as [Hi|Hi].
  - rewrite lookup_seq_lt by done. simpl.
    rewrite lookup_take_lt by done. rewrite lookup_drop.
    destruct (nth_lookup_or_length p (k + i) d) as [->|]; [done|lia].
  - rewrite lookup_seq_ge by lia. simpl.
    symmetry. apply lookup_ge_None. rewrite length_take. lia.
Qed.

Lemma map_nth_all (d : A) (p : list A) :
  map (fun q => nth q p d) (seq 0 (length p)) = p.
Proof.
  change (map (fun q => nth (0 + q) p d) (seq 0 (length p)) = p).
  rewrite map_nth_segment by (simpl; lia).
  by rewrite drop_0, firstn_all.
Qed.

Lemma concat_nth_segment (d : A) (p : list A) (k r c : nat) :
  k + r * c <= length p ->
  concat (map (fun i => map (fun j => nth (k + i * c + j) p d) (seq 0 c)) (seq 0 r))
  = take (r * c) (drop k p).
Proof.
  induction r as [|r IH]; intros Hlen; [done|].
  rewrite seq_S, map_app, concat_app, IH by lia.
  cbn [map concat Nat.add]. rewrite app_nil_r.
  rewrite map_nth_segment by lia.
  replace (S r * c) with (r * c + c) by lia.
  rewrite <- (take_drop (r * c) (take (r * c + c) (drop k p))).
  rewrite take_take, Nat.min_l by lia. f_equal.
  rewrite skipn_firstn_comm. rewrite drop_drop. f_equal; lia.
Qed.

Lemma fill_segment_app (f : nat -> A) (n k0 : nat) (pre mid post : list A) :
  length pre = k0 -> length mid = n ->
  for_loop n (fun p a => <[k0 + p := f p]> a) (pre ++ mid ++ post)
  = pre ++ map f (seq 0 n) ++ post.
Proof.
  intros Hpre Hmid. rewrite fill_segment by (rewrite !length_app; lia).
  rewrite take_app_length' by done. do 2 f_equal.
  rewrite drop_app_ge by lia. rewrite Hpre.
  replace (k0 + n - k0) with n by lia. by rewrite drop_app_length'.
Qed.

Lemma fill_segment2_app (F : nat -> nat -> A) (r c k0 : nat) (pre mid post : list A) :
  length pre = k0 -> length mid = r * c ->
  for_loop r (fun i => for_loop c (fun j a => <[k0 + i * c + j := F i j]> a))
    (pre ++ mid ++ post)
  = pre ++ concat (map (fun i => map (F i) (seq 0 c)) (seq 0 r)) ++ post.
Proof.
  intros Hpre Hmid. rewrite fill_segment2 by (rewrite !length_app; lia).
  rewrite take_app_length' by done. do 2 f_equal.
  rewrite drop_app_ge by lia. rewrite Hpre.
  replace (k0 + r * c - k0) with (r * c) by lia. by rewrite drop_app_length'.
Qed.

(** A matrix read row by row is the concatenation of its rows. *)
Lemma concat_rows (d : A) (M : list (list A)) (r c : nat) :
  length M = r -> Forall (fun row => length row = c) M ->
  concat (map (fun i => map (fun j => nth j (nth i M []) d) (seq 0 c)) (seq 0 r))
  = concat M.
Proof.
  revert r. induction M as [|row M IH] using rev_ind; intros r Hr Hc.
  - simpl in Hr. by subst r.
  - rewrite length_app in Hr. simpl in Hr.
    apply Forall_app in Hc as [HcM Hrow]. apply (proj1 (Forall_singleton _ _)) in Hrow.
    replace r with (S (length M)) by lia.
    rewrite seq_S, map_app, !concat_app. cbn [map concat Nat.add]. rewrite !app_nil_r.
    f_equal.
    + rewrite <- (IH (length M)) by done. f_equal. apply map_ext_in.
      intros i Hi. apply in_seq in Hi. by rewrite app_nth1 by lia.
    + rewrite app_nth2, Nat.sub_diag by lia. cbn [nth].
      rewrite <- Hrow. apply map_nth_all.
Qed.

Lemma nth_map_seq (f : nat -> A) (n k : nat) (d : A) :
  k < n -> nth k (map f (seq 0 n)) d = f k.
Proof.
  intros Hk. apply nth_lookup_Some. by rewrite list_lookup_fmap, lookup_seq_lt.
Qed.

Lemma mapM_map_Some {B : Type} (f : A -> option B) (g : A -> B) (l : list A) :
  (forall x, x ∈ l -> f x = Some (g x)) -> mapM f l = Some (map g l).
Proof.
  induction l as [|x l IH]; intros E; [done|]. simpl.
  rewrite E by left. simpl. rewrite IH; [done|]. intros y Hy. apply E. by right.
Qed.

End Loops.

(** ** Dense vectors and matrices

    An Eigen vector is the list of its coefficients, a matrix the list of
    its rows.  Reading a coefficient is [nth] with default [zero] and
    writing one is stdpp's list insert, which leaves the list alone when
    the index is out of range; Eigen asserts on such an index (undefined
    behaviour with NDEBUG).  Every theorem below carries the size
    hypotheses under which no index leaves its range. *)
Section Eigen.
Context {T : Type} `{Scalar T}.

(** [M(i,j)] *)
Definition mget (M : list (list T)) (i j : nat) : T := nth j (nth i M []) zero.

(** [M(i,j) = x] *)
Definition mset (i j : nat) (x : T) (M : list (list T)) : list (list T) :=
  alter (fun row => <[j := x]> row) i M.

(** [v.sum()] *)
Definition vsum (v : list T) : T := foldr add zero v.

(** [u.dot(v)] for a real [u] (no conjugation), and the row-by-column
    products of [M * v]. *)
Definition dot (u v : list T) : T := vsum (zip_with mul u v).

(** [u + v] *)
Definition vadd (u v : list T) : list T := zip_with add u v.

(** [v * c] *)
Definition vscale (v : list T) (c : T) : list T := map (fun x => mul x c) v.

(** [M.col(j)] *)
Definition mcol (M : list (list T)) (j : nat) : list T :=
  map (fun row => nth j row zero) M.

(** [M.transpose() * v] for a matrix with [ncols] columns. *)
Definition mul_transpose (M : list (list T)) (ncols : nat) (v : list T) : list T :=
  map (fun j => dot (mcol M j) v) (seq 0 ncols).

(** [M * v] *)
Definition mul_vec (M : list (list T)) (v : list T) : list T :=
  map (fun row => dot row v) M.

(** A matrix of [r] rows and [c] columns. *)
Definition mdims (M : list (list T)) (r c : nat) : Prop :=
  length M = r /\ Forall (fun row => length row = c) M.

End Eigen.

(** [UpdateConf(v, tochange, newconf)] of the Hilbert spaces: the sites
    listed in [tochange] are overwritten, in order, by the values of
    [newconf].  Reading [newconf[i]] past its end is undefined in the
    source; here such a site is left alone. *)
Definition UpdateConf {A : Type} (v : list A) (tochange : list nat) (newconf : list A)
    : list A :=
  for_loop (length tochange) (fun i v =>
    match newconf !! i with
    | Some x => <[nth i tochange 0 := x]> v
    | None => v
    end) v.

(** A map of [0..n-1] into itself that is one-to-one lists a
    rearrangement of [0..n-1]. *)
Lemma Permutation_map_seq (f : nat -> nat) (n : nat) :
  (forall i, i < n -> f i < n) ->
  (forall i j, i < n -> j < n -> f i = f j -> i = j) ->
  Permutation (map f (seq 0 n)) (seq 0 n).
Proof.
  intros Hrange Hinj.
  apply NoDup_Permutation_bis.
  - apply NoDup_ListNoDup. apply NoDup_fmap_2_strong; [|apply NoDup_seq].
    intros i j Hi Hj E. apply elem_of_seq in Hi, Hj. apply Hinj; [lia..|done].
  - by rewrite length_map.
  - intros x Hx. apply in_map_iff in Hx as (i & <- & Hi). apply in_seq in Hi.
    apply in_seq. pose proof (Hrange i ltac:(lia)). lia.
Qed.

Section EigenFacts.
Context {T : Type} `{Scalar T}.
Add Ring T_ring_eigen : scalar_ring.

Lemma vsum_app (u v : list T) : vsum (u ++ v) = (vsum u + vsum v)%T.
Proof. induction u as [|x u IH]; simpl; [ring|]. rewrite IH. ring. Qed.

(** The sum of a vector does not depend on the order of its coefficients. *)
Lemma vsum_Permutation (u v : list T) : Permutation u v -> vsum u = vsum v.
Proof.
  induction 1 as [|x u v _ IH|x y u|u v w _ IH1 _ IH2]; simpl.
  - done.
  - by rewrite IH.
  - ring.
  - by rewrite IH1.
Qed.

Lemma dot_comm (u v : list T) : dot u v = dot v u.
Proof.
  unfold dot. revert v. induction u as [|x u IH]; intros [|y v]; simpl; try done.
  rewrite IH. ring.
Qed.

(** Overwriting one coefficient of [v] moves [w.dot(v)] by [w(i)] times
    the change. *)
Lemma dot_insert (w v : list T) (i : nat) (x : T) :
  length w = length v -> i < length v ->
  dot w (<[i := x]> v) = (dot w v + nth i w zero * (x - nth i v zero))%T.
Proof.
  unfold dot. revert v i. induction w as [|a w IH]; intros [|b v] i Hlen Hi;
    simpl in *; try lia.
  destruct i as [|i]; simpl.
  - ring.
  - rewrite IH by lia. ring.
Qed.

Lemma nth_mcol (M : list (list T)) (i j : nat) : nth i (mcol M j) zero = mget M i j.
Proof.
  unfold mcol, mget.
  assert (E : nth j (@nil T) zero = zero) by (by destruct j).
  rewrite <- E at 1. apply (map_nth (fun row : list T => nth j row zero)).
Qed.

Lemma length_mcol (M : list (list T)) (j : nat) : length (mcol M j) = length M.
Proof. apply length_map. Qed.

Lemma vadd_map_seq (f : nat -> T) (b : list T) (n : nat) :
  length b = n ->
  vadd (map f (seq 0 n)) b = map (fun j => (f j + nth j b zero)%T) (seq 0 n).
Proof.
  intros Hb. unfold vadd. apply list_eq. intros j.
  rewrite lookup_zip_with, !list_lookup_fmap.
  destruct (decide (j < n)) as [Hj|Hj].
  - rewrite lookup_seq_lt by done. simpl.
    destruct (nth_lookup_or_length b j zero) as [->|]; [done|lia].
  - by rewrite lookup_seq_ge by lia.
Qed.

Lemma vadd_map_scale (f : nat -> T) (row : list T) (c : T) (n : nat) :
  length row = n ->
  vadd (map f (seq 0 n)) (vscale row c)
  = map (fun j => (f j + nth j row zero * c)%T) (seq 0 n).
Proof.
  intros Hrow. rewrite vadd_map_seq by (unfold vscale; by rewrite length_map).
  apply map_ext_in. intros j Hj. apply in_seq in Hj. f_equal. unfold vscale.
  rewrite (nth_indep _ zero (zero * c)%T) by (rewrite length_map; lia).
  apply (map_nth (fun x => (x * c)%T)).
Qed.

Lemma dot_map_seq (u v : list T) (n : nat) :
  length u = n -> length v = n ->
  dot u v = vsum (map (fun i => (nth i u zero * nth i v zero)%T) (seq 0 n)).
Proof.
  intros Hu Hv. unfold dot. f_equal. apply list_eq. intros i.
  rewrite lookup_zip_with, list_lookup_fmap.
  destruct (decide (i < n)) as [Hi|Hi].
  - rewrite lookup_seq_lt by done. simpl.
    destruct (nth_lookup_or_length u i zero) as [->|]; [|lia].
    destruct (nth_lookup_or_length v i zero) as [->|]; [done|lia].
  - rewrite lookup_seq_ge by lia.
    rewrite (lookup_ge_None_2 u) by lia. done.
Qed.

(** A sum over [0..n-1] may be taken along any rearrangement. *)
Lemma vsum_reindex (F : nat -> T) (f : nat -> nat) (n : nat) :
  Permutation (map f (seq 0 n)) (seq 0 n) ->
  vsum (map (fun i => F (f i)) (seq 0 n)) = vsum (map F (seq 0 n)).
Proof.
  intros Hperm. rewrite <- (map_map f F).
  apply vsum_Permutation. by apply Permutation_map.
Qed.


End EigenFacts.

(** ** Hypercube: the lattice and its translation symmetries *)
Module Hypercube.

(** The members of the class that the symmetry table reads ([adjlist_]
    is built from the same data and is not needed here). *)
Record t := Build {
  L_ : nat;
  ndim_ : nat;
  pbc_ : bool;
  sites_ : list (list nat);
  coord2sites_ : gmap (list nat) nat;
  nsites_ : nat
}.

(** [GenerateLatticePoints()].  The do-while loop steps [coord] with
    [netket::next_variation], which is not among the sources; the loop is
    embedded over [variations], the successive values of [coord].  Each
    value is appended to [sites_] and mapped to its index. *)
Definition GenerateLatticePoints (variations : list (list nat))
    : list (list nat) * gmap (list nat) nat * nat :=
  foldl (fun '(sites, coord2sites, nsites) coord =>
           (sites ++ [coord], <[coord := nsites]> coord2sites, S nsites))
        ([], ∅, 0) variations.

(** [Init()], after the constructor has set [L_], [ndim_] and [pbc_].
    The assertions [L_ > 0] and [ndim_ >= 1] and the adjacency list, which
    [SymmetryTable] does not read, are left out. *)
Definition Init (L ndim : nat) (pbc : bool) (variations : list (list nat)) : t :=
  let '(sites, coord2sites, nsites) := GenerateLatticePoints variations in
  {| L_ := L; ndim_ := ndim; pbc_ := pbc; sites_ := sites;
     coord2sites_ := coord2sites; nsites_ := nsites |}.

(** What the loop of [SymmetryTable] writes into [ts]:
    [ts[d] = (sites_[i][d] + sites_[p][d]) % L_]. *)
Definition translate (L ndim : nat) (c1 c2 : list nat) : list nat :=
  map (fun d => (nth d c1 0 + nth d c2 0) mod L) (seq 0 ndim).

(** [SymmetryTable()]: [None] when the source aborts (no periodic
    boundary conditions) or [coord2sites_.at] throws. *)
Definition SymmetryTable (h : t) : option (list (list nat)) :=
  if negb (pbc_ h) then None
  else
    mapM (fun i =>
      mapM (fun p =>
        coord2sites_ h !!
          translate (L_ h) (ndim_ h) (nth i (sites_ h) []) (nth p (sites_ h) []))
        (seq 0 (nsites_ h)))
      (seq 0 (nsites_ h)).

(** [Nsites()] *)
Definition Nsites (h : t) : nat := nsites_ h.

(** What [next_variation] is for: [variations] lists every point of
    [{0..L-1}^ndim], each once. *)
Definition lattice (L ndim : nat) (variations : list (list nat)) : Prop :=
  NoDup variations
  /\ forall c, c ∈ variations <-> length c = ndim /\ Forall (fun x => x < L) c.

Lemma GenerateLatticePoints_spec (variations : list (list nat)) :
  NoDup variations ->
  exists M, GenerateLatticePoints variations = (variations, M, length variations)
    /\ forall c i, M !! c = Some i <-> variations !! i = Some c.
Proof.
  unfold GenerateLatticePoints.
  induction variations as [|c l IH] using rev_ind; intros Hnd.
  - exists ∅. split; [done|]. intros c i. by rewrite lookup_empty, lookup_nil.
  - apply NoDup_app in Hnd as (Hl & Hc & _).
    destruct (IH Hl) as (M & E & HM).
    exists (<[c := length l]> M). split.
    + rewrite foldl_app, E. simpl. rewrite length_app. simpl.
      do 2 f_equal. lia.
    + intros c' i. destruct (decide (c = c')) as [<-|Hne].
      * rewrite lookup_insert_eq. split.
        -- intros [= <-]. by rewrite lookup_app_r, Nat.sub_diag by lia.
        -- intros Hi. f_equal.
           destruct (decide (i < length l)) as [Hlt|Hge].
           ++ rewrite lookup_app_l in Hi by done.
              exfalso. apply (Hc c); [|apply list_elem_of_singleton; done].
              by apply list_elem_of_lookup_2 in Hi.
           ++ apply lookup_lt_Some in Hi. rewrite length_app in Hi. simpl in Hi. lia.
      * rewrite lookup_insert_ne by done. rewrite HM. split.
        -- intros Hi. rewrite lookup_app_l; [done|]. by apply lookup_lt_Some in Hi.
        -- intros Hi. destruct (decide (i < length l)) as [Hlt|Hge].
           ++ by rewrite lookup_app_l in Hi.
           ++ rewrite lookup_app_r in Hi by lia.
              apply list_lookup_singleton_Some in Hi as [_ ?]. done.
Qed.

(** *** The translation table of a periodic hypercube *)
Section Translations.
Variables (L ndim : nat) (variations : list (list nat)).
Hypothesis Hlat : lattice L ndim variations.

Let h : t := Init L ndim true variations.

(** The site that [SymmetryTable] finds for the translate of site [p] by
    site [i]. *)
Definition tau (i p : nat) : nat :=
  default 0 (coord2sites_ h !!
    translate L ndim (nth i (sites_ h) []) (nth p (sites_ h) [])).

Lemma Init_fields :
  sites_ h = variations /\ nsites_ h = length variations
  /\ L_ h = L /\ ndim_ h = ndim /\ pbc_ h = true
  /\ forall c i, coord2sites_ h !! c = Some i <-> variations !! i = Some c.
Proof.
  destruct (GenerateLatticePoints_spec variations (proj1 Hlat)) as (M & E & HM).
  subst h. unfold Init. rewrite E. by repeat split; try apply HM.
Qed.

Definition valid (c : list nat) : Prop := length c = ndim /\ Forall (fun x => x < L) c.

Lemma valid_nth (i : nat) : i < length variations -> valid (nth i variations []).
Proof. intros Hi. apply (proj2 Hlat). apply list_elem_of_In, nth_In. done. Qed.

Lemma valid_bound (c : list nat) (d : nat) : valid c -> d < ndim -> nth d c 0 < L.
Proof.
  intros [Hlen Hall] Hd. apply (proj1 (Forall_forall _ _) Hall).
  apply list_elem_of_In, nth_In. lia.
Qed.

Lemma nth_translate (c1 c2 : list nat) (d : nat) :
  d < ndim -> nth d (translate L ndim c1 c2) 0 = (nth d c1 0 + nth d c2 0) mod L.
Proof.
  intros Hd. unfold translate. apply nth_lookup_Some.
  by rewrite list_lookup_fmap, lookup_seq_lt.
Qed.

Lemma valid_translate (c1 c2 : list nat) : valid c1 -> valid (translate L ndim c1 c2).
Proof.
  intros Hc1. split.
  - unfold translate. by rewrite length_map, length_seq.
  - apply Forall_forall. intros x Hx. unfold translate in Hx.
    apply list_elem_of_fmap in Hx as (d & -> & Hd).
    apply elem_of_seq in Hd.
    apply Nat.mod_upper_bound.
    pose proof (valid_bound c1 d Hc1 ltac:(lia)). lia.
Qed.

Lemma translate_comm (c1 c2 : list nat) : translate L ndim c1 c2 = translate L ndim c2 c1.
Proof. unfold translate. apply map_ext. intros d. by rewrite Nat.add_comm. Qed.

Lemma translate_assoc (c1 c2 c3 : list nat) :
  translate L ndim c1 (translate L ndim c2 c3)
  = translate L ndim (translate L ndim c1 c2) c3.
Proof.
  unfold translate at 1 3. apply map_ext_in. intros d Hd. apply in_seq in Hd.
  rewrite !nth_translate by lia.
  rewrite Nat.Div0.add_mod_idemp_r, Nat.Div0.add_mod_idemp_l. f_equal. lia.
Qed.

Lemma valid_ext (c1 c2 : list nat) :
  valid c1 -> valid c2 -> (forall d, d < ndim -> nth d c1 0 = nth d c2 0) -> c1 = c2.
Proof.
  intros [H1 _] [H2 _] E. apply (nth_ext _ _ 0 0); [lia|].
  intros d Hd. apply E. lia.
Qed.

Lemma mod_add_cancel (a b c : nat) :
  a < L -> b < L -> (c + a) mod L = (c + b) mod L -> a = b.
Proof.
  intros Ha Hb E.
  pose proof (Nat.div_mod_eq (c + a) L) as Ea.
  pose proof (Nat.div_mod_eq (c + b) L) as Eb.
  rewrite E in Ea.
  assert (Hq : (c + a) / L = (c + b) / L) by nia.
  rewrite Hq in Ea. lia.
Qed.

Lemma translate_cancel (c c1 c2 : list nat) :
  valid c1 -> valid c2 -> translate L ndim c c1 = translate L ndim c c2 -> c1 = c2.
Proof.
  intros H1 H2 E. apply valid_ext; try done. intros d Hd.
  apply (f_equal (fun l => nth d l 0)) in E. rewrite !nth_translate in E by done.
  apply (mod_add_cancel _ _ (nth d c 0)); [by apply valid_bound..|done].
Qed.

(** The index of a lattice point. *)
Lemma lookup_valid (c : list nat) :
  valid c -> exists i, coord2sites_ h !! c = Some i /\ i < length variations
                  /\ nth i variations [] = c.
Proof.
  intros Hc. destruct Init_fields as (_ & _ & _ & _ & _ & HM).
  apply (proj2 Hlat) in Hc. apply list_elem_of_lookup_1 in Hc as [i Hi].
  exists i. split; [by apply HM|]. split; [by apply lookup_lt_Some in Hi|].
  by apply nth_lookup_Some.
Qed.

Lemma tau_spec (i p : nat) :
  i < length variations ->
  coord2sites_ h !! translate L ndim (nth i variations []) (nth p variations [])
    = Some (tau i p)
  /\ tau i p < length variations
  /\ nth (tau i p) variations []
     = translate L ndim (nth i variations []) (nth p variations []).
Proof.
  intros Hi. unfold tau.
  destruct Init_fields as (-> & _).
  destruct (lookup_valid (translate L ndim (nth i variations []) (nth p variations [])))
    as (k & -> & Hk & Ek); [by apply valid_translate, valid_nth|done].
Qed.

Lemma tau_comm (i p : nat) : tau i p = tau p i.
Proof. unfold tau. by rewrite translate_comm. Qed.

Lemma tau_assoc (g i p : nat) :
  g < length variations -> i < length variations -> p < length variations ->
  tau i (tau g p) = tau (tau g i) p.
Proof.
  intros Hg Hi Hp. unfold tau at 1 3. destruct Init_fields as (-> & _).
  destruct (tau_spec g p Hg) as (_ & _ & ->).
  destruct (tau_spec g i Hg) as (_ & _ & ->).
  rewrite translate_assoc. by rewrite (translate_comm (nth i variations [])).
Qed.

Lemma tau_inj (g i i' : nat) :
  g < length variations -> i < length variations -> i' < length variations ->
  tau g i = tau g i' -> i = i'.
Proof.
  intros Hg Hi Hi' E.
  destruct (tau_spec g i Hg) as (_ & _ & E1).
  destruct (tau_spec g i' Hg) as (_ & _ & E2).
  rewrite E, E2 in E1. apply translate_cancel in E1; [|by apply valid_nth..].
  apply (proj1 (NoDup_nth variations []) (proj1 (NoDup_ListNoDup _) (proj1 Hlat)));
    done.
Qed.

(** The table that [SymmetryTable] returns on a periodic hypercube. *)
Lemma SymmetryTable_spec :
  SymmetryTable h
  = Some (map (fun i => map (tau i) (seq 0 (length variations)))
            (seq 0 (length variations))).
Proof.
  unfold SymmetryTable.
  destruct Init_fields as (Es & -> & -> & -> & -> & _). cbn [negb].
  apply mapM_map_Some. intros i Hi. apply elem_of_seq in Hi.
  apply mapM_map_Some. intros p Hp. rewrite Es. apply tau_spec. lia.
Qed.

End Translations.

End Hypercube.

(** ** RbmSpinSymm: the RBM with permutation symmetries *)
Module RbmSpinSymm.
Section Machine.
Context {T : Type} `{Scalar T}.

(** [RbmSpin<T>::lncosh] and [RbmSpin<T>::tanh] are applied coefficient by
    coefficient; their class is not among the sources, so both are
    parameters of the machine, and nothing is assumed about them. *)
Variable lncosh : T -> T.
Variable tanh : T -> T.

(** The members of the class.  The scratch vectors [thetas_],
    [lnthetas_], [thetasnew_], [lnthetasnew_] are written before they are
    read in every method, so they are local values here; [mynode_],
    [hilbert_] and [graph_] play no part in the arithmetic. *)
Record t := Build {
  permtable_ : list (list nat);
  permsize_ : nat;
  nv_ : nat;
  alpha_ : nat;
  nh_ : nat;
  npar_ : nat;
  nbarepar_ : nat;
  W_ : list (list T);
  Wsymm_ : list (list T);
  a_ : list T;
  asymm_ : T;
  b_ : list T;
  bsymm_ : list T;
  DerMatSymm_ : list (list T);
  usea_ : bool;
  useb_ : bool
}.

(** The matrix that maps the bare derivatives to the symmetric ones, as
    [Init] fills it: the counters [k] and [kbare] are threaded through the
    loops as in the source.  [std::floor(double(x)/double(permsize_))] is
    [x / permsize_] and [j % permsize_] is [j mod permsize_] for
    [permsize_ > 0]. *)
Definition DerMatSymm_init (nv alpha nh permsize : nat) (permtable : list (list nat))
    (usea useb : bool) (npar nbarepar : nat) : list (list T) :=
  let D := replicate npar (replicate nbarepar zero) in
  let k := 0 in
  let kbare := 0 in
  let '(D, k, kbare) :=
    if usea then
      let '(D, kbare) :=
        for_loop nv (fun p '(D, kbare) => (mset k p one D, S kbare)) (D, kbare) in
      (D, S k, kbare)
    else (D, k, kbare) in
  let '(D, k, kbare) :=
    if useb then
      let '(D, kbare) :=
        for_loop nh (fun p '(D, kbare) =>
          let ksymm := k / permsize in
          (mset (ksymm + k) kbare one D, S kbare)) (D, kbare) in
      (D, k + alpha, kbare)
    else (D, k, kbare) in
  let '(D, kbare) :=
    for_loop nv (fun i =>
      for_loop nh (fun j '(D, kbare) =>
        let isymm := nth (j mod permsize) (nth i permtable []) 0 in
        let jsymm := j / permsize in
        let ksymm := jsymm + alpha * isymm in
        (mset (ksymm + k) kbare one D, S kbare))) (D, kbare) in
  D.

(** [Init(graph)], from the constructor's [nv_], [alpha_], [usea_],
    [useb_] and the graph's symmetry table.  [resize] leaves coefficients
    unspecified; they are [zero] here, and every one of them is written by
    [SetParameters] before any method reads it.  The assertion on the
    rows of the table is part of [wf] below. *)
Definition Init (nv alpha : nat) (usea useb : bool) (permtable : list (list nat)) : t :=
  let permsize := length permtable in
  let nh := alpha * permsize in
  let npar := nv * alpha in
  let nbarepar := nv * nh in
  let '(npar, nbarepar) := if usea then (npar + 1, nbarepar + nv) else (npar, nbarepar) in
  let '(npar, nbarepar) := if useb then (npar + alpha, nbarepar + nh) else (npar, nbarepar) in
  {| permtable_ := permtable; permsize_ := permsize; nv_ := nv; alpha_ := alpha;
     nh_ := nh; npar_ := npar; nbarepar_ := nbarepar;
     W_ := replicate nv (replicate nh zero);
     Wsymm_ := replicate nv (replicate alpha zero);
     a_ := replicate nv zero; asymm_ := zero;
     b_ := replicate nh zero; bsymm_ := replicate alpha zero;
     DerMatSymm_ :=
       DerMatSymm_init nv alpha nh permsize permtable usea useb npar nbarepar;
     usea_ := usea; useb_ := useb |}.

(** [SetBareParameters()] *)
Definition SetBareParameters (m : t) : t :=
  let a := for_loop (nv_ m) (fun i a => <[i := asymm_ m]> a) (a_ m) in
  let b := for_loop (nh_ m) (fun j b =>
             let jsymm := j / permsize_ m in
             <[j := nth jsymm (bsymm_ m) zero]> b) (b_ m) in
  let W := for_loop (nv_ m) (fun i =>
             for_loop (nh_ m) (fun j W =>
               let jsymm := j / permsize_ m in
               mset i j
                 (mget (Wsymm_ m)
                    (nth (j mod permsize_ m) (nth i (permtable_ m) []) 0) jsymm) W))
             (W_ m) in
  {| permtable_ := permtable_ m; permsize_ := permsize_ m; nv_ := nv_ m;
     alpha_ := alpha_ m; nh_ := nh_ m; npar_ := npar_ m; nbarepar_ := nbarepar_ m;
     W_ := W; Wsymm_ := Wsymm_ m; a_ := a; asymm_ := asymm_ m;
     b_ := b; bsymm_ := bsymm_ m; DerMatSymm_ := DerMatSymm_ m;
     usea_ := usea_ m; useb_ := useb_ m |}.

(** [SetParameters(pars)]: the counter [k] runs through [pars] as in the
    source; [pars(k)] is [nth k pars zero]. *)
Definition SetParameters (m : t) (pars : list T) : t :=
  let k := 0 in
  let '(asymm, k) :=
    if usea_ m then (nth k pars zero, S k) else (zero, k) in
  let '(bsymm, k) :=
    if useb_ m then
      for_loop (alpha_ m) (fun p '(bsymm, k) =>
        (<[p := nth k pars zero]> bsymm, S k)) (bsymm_ m, k)
    else (replicate (alpha_ m) zero, k) in
  let '(Wsymm, k) :=
    for_loop (nv_ m) (fun i =>
      for_loop (alpha_ m) (fun j '(Wsymm, k) =>
        (mset i j (nth k pars zero) Wsymm, S k))) (Wsymm_ m, k) in
  SetBareParameters
    {| permtable_ := permtable_ m; permsize_ := permsize_ m; nv_ := nv_ m;
       alpha_ := alpha_ m; nh_ := nh_ m; npar_ := npar_ m; nbarepar_ := nbarepar_ m;
       W_ := W_ m; Wsymm_ := Wsymm; a_ := a_ m; asymm_ := asymm;
       b_ := b_ m; bsymm_ := bsymm; DerMatSymm_ := DerMatSymm_ m;
       usea_ := usea_ m; useb_ := useb_ m |}.

(** [GetParameters()]: [pars] has [npar_] coefficients, written through
    the counter [k]. *)
Definition GetParameters (m : t) : list T :=
  let pars := replicate (npar_ m) zero in
  let k := 0 in
  let '(pars, k) :=
    if usea_ m then (<[k := asymm_ m]> pars, S k) else (pars, k) in
  let '(pars, k) :=
    if useb_ m then
      for_loop (alpha_ m) (fun p '(pars, k) =>
        (<[k := nth p (bsymm_ m) zero]> pars, S k)) (pars, k)
    else (pars, k) in
  let '(pars, k) :=
    for_loop (nv_ m) (fun i =>
      for_loop (alpha_ m) (fun j '(pars, k) =>
        (<[k := mget (Wsymm_ m) i j]> pars, S k))) (pars, k) in
  pars.

(** [W_.transpose()*v+b_] *)
Definition thetas (m : t) (v : list T) : list T :=
  vadd (mul_transpose (W_ m) (nh_ m) v) (b_ m).

(** The look-up table: its vectors, [lt.V(0)] first. *)
Definition LookupType := list (list T).

(** [InitLookup(v, lt)] *)
Definition InitLookup (m : t) (v : list T) (lt : LookupType) : LookupType :=
  let lt := if decide (length lt = 0) then [replicate (length (b_ m)) zero] else lt in
  <[0 := thetas m v]> lt.

(** [UpdateLookup(v, tochange, newconf, lt)] *)
Definition UpdateLookup (m : t) (v : list T) (tochange : list nat) (newconf : list T)
    (lt : LookupType) : LookupType :=
  if decide (length tochange = 0) then lt
  else
    for_loop (length tochange) (fun s lt =>
      let sf := nth s tochange 0 in
      <[0 := vadd (nth 0 lt [])
               (vscale (nth sf (W_ m) []) (nth s newconf zero - nth sf v zero)%T)]> lt) lt.

(** [BareDerLog(v)] *)
Definition BareDerLog (m : t) (v : list T) : list T :=
  let der := replicate (nbarepar_ m) zero in
  let k := 0 in
  let '(der, k) :=
    if usea_ m then
      for_loop (nv_ m) (fun _ '(der, k) => (<[k := nth k v zero]> der, S k)) (der, k)
    else (der, k) in
  let lnthetas := map tanh (thetas m v) in
  let '(der, k) :=
    if useb_ m then
      for_loop (nh_ m) (fun p '(der, k) =>
        (<[k := nth p lnthetas zero]> der, S k)) (der, k)
    else (der, k) in
  let '(der, k) :=
    for_loop (nv_ m) (fun i =>
      for_loop (nh_ m) (fun j '(der, k) =>
        (<[k := (nth j lnthetas zero * nth i v zero)%T]> der, S k))) (der, k) in
  der.

(** [DerLog(v)] *)
Definition DerLog (m : t) (v : list T) : list T :=
  mul_vec (DerMatSymm_ m) (BareDerLog m v).

(** [LogVal(v)] *)
Definition LogVal (m : t) (v : list T) : T :=
  let lnthetas := map lncosh (thetas m v) in
  (dot v (a_ m) + vsum lnthetas)%T.

(** [LogVal(v, lt)], from the look-up table. *)
Definition LogValLt (m : t) (v : list T) (lt : LookupType) : T :=
  let lnthetas := map lncosh (nth 0 lt []) in
  (dot v (a_ m) + vsum lnthetas)%T.

(** [LogValDiff(v, tochange, newconf)], one difference per connection. *)
Definition LogValDiff (m : t) (v : list T) (tochange : list (list nat))
    (newconf : list (list T)) : list T :=
  let nconn := length tochange in
  let logvaldiffs := replicate nconn zero in
  let thetas_ := thetas m v in
  let lnthetas := map lncosh thetas_ in
  let logtsum := vsum lnthetas in
  for_loop nconn (fun k logvaldiffs =>
    let tc := nth k tochange [] in
    let nc := nth k newconf [] in
    if decide (length tc = 0) then logvaldiffs
    else
      let '(logvaldiffs, thetasnew) :=
        for_loop (length tc) (fun s '(logvaldiffs, thetasnew) =>
          let sf := nth s tc 0 in
          let d := (nth s nc zero - nth sf v zero)%T in
          (<[k := (nth k logvaldiffs zero + nth sf (a_ m) zero * d)%T]> logvaldiffs,
           vadd thetasnew (vscale (nth sf (W_ m) []) d)))
          (logvaldiffs, thetas_) in
      let lnthetasnew := map lncosh thetasnew in
      <[k := (nth k logvaldiffs zero + (vsum lnthetasnew - logtsum))%T]> logvaldiffs)
    logvaldiffs.

(** [LogValDiff(v, tochange, newconf, lt)], for one move, from the look-up
    table. *)
Definition LogValDiffLt (m : t) (v : list T) (tochange : list nat) (newconf : list T)
    (lt : LookupType) : T :=
  let logvaldiff := zero in
  if decide (length tochange = 0) then logvaldiff
  else
    let lnthetas := map lncosh (nth 0 lt []) in
    let thetasnew := nth 0 lt [] in
    let '(logvaldiff, thetasnew) :=
      for_loop (length tochange) (fun s '(logvaldiff, thetasnew) =>
        let sf := nth s tochange 0 in
        let d := (nth s newconf zero - nth sf v zero)%T in
        ((logvaldiff + nth sf (a_ m) zero * d)%T,
         vadd thetasnew (vscale (nth sf (W_ m) []) d)))
        (logvaldiff, thetasnew) in
    let lnthetasnew := map lncosh thetasnew in
    (logvaldiff + (vsum lnthetasnew - vsum lnthetas))%T.

(** *** The derivative map of the specification

    The specification defines the symmetric log-derivatives as
    [J^T * der_log_bare], with [J] the linear map that the expansion of
    the reduced parameters into the bare ones induces.  The three
    definitions below follow these words; they are compared with
    [DerMatSymm_] and [DerLog], which follow the source. *)

(** The bare parameters in the order in which [BareDerLog] lists their
    derivatives: [a_] (with [usea_]), [b_] (with [useb_]), then [W_] row
    by row. *)
Definition BareParameters (m : t) : list T :=
  (if usea_ m then a_ m else []) ++ (if useb_ m then b_ m else []) ++ concat (W_ m).

(** [J(kbare, k)]: the bare parameter [kbare] as a function of the
    reduced parameter [k], read off the expansion of the [k]-th unit
    vector (the expansion is linear). *)
Definition J (m : t) (kbare k : nat) : T :=
  nth kbare
    (BareParameters
       (SetParameters m
          (map (fun i => if decide (i = k) then one else zero) (seq 0 (npar_ m)))))
    zero.

(** [J^T * BareDerLog(v)] *)
Definition DerLog_spec (m : t) (v : list T) : list T :=
  map (fun k =>
         vsum (map (fun kbare => (J m kbare k * nth kbare (BareDerLog m v) zero)%T)
                 (seq 0 (nbarepar_ m))))
      (seq 0 (npar_ m)).

(** *** Sizes *)

Add Ring T_ring : scalar_ring.

(** What [Init] establishes about the sizes, and every method keeps. *)
Definition wf (m : t) : Prop :=
  permsize_ m = length (permtable_ m)
  /\ nh_ m = alpha_ m * permsize_ m
  /\ npar_ m = (if usea_ m then 1 else 0) + (if useb_ m then alpha_ m else 0)
               + nv_ m * alpha_ m
  /\ length (bsymm_ m) = alpha_ m
  /\ mdims (Wsymm_ m) (nv_ m) (alpha_ m)
  /\ length (a_ m) = nv_ m
  /\ length (b_ m) = nh_ m
  /\ mdims (W_ m) (nv_ m) (nh_ m).

(** The position in the parameter vector where the hidden biases and the
    weights start. *)
Definition kb (m : t) : nat := if usea_ m then 1 else 0.
Definition kW (m : t) : nat := kb m + (if useb_ m then alpha_ m else 0).

Lemma mdims_replicate (r c : nat) (x : T) : mdims (replicate r (replicate c x)) r c.
Proof.
  split; [apply length_replicate|].
  apply Forall_forall. intros row Hin.
  apply elem_of_replicate in Hin as [-> _]. apply length_replicate.
Qed.

Lemma mdims_map (F : nat -> nat -> T) (r c : nat) :
  mdims (map (fun i => map (F i) (seq 0 c)) (seq 0 r)) r c.
Proof.
  split; [by rewrite length_map, length_seq|].
  apply Forall_forall. intros row Hin. apply list_elem_of_fmap in Hin as (i & -> & _).
  by rewrite length_map, length_seq.
Qed.

Lemma mget_map (F : nat -> nat -> T) (r c i j : nat) :
  i < r -> j < c -> mget (map (fun i => map (F i) (seq 0 c)) (seq 0 r)) i j = F i j.
Proof.
  intros Hi Hj. unfold mget.
  rewrite (nth_lookup_Some _ i [] (map (F i) (seq 0 c))).
  2:{ rewrite list_lookup_fmap, lookup_seq_lt by done. done. }
  apply nth_lookup_Some. by rewrite list_lookup_fmap, lookup_seq_lt.
Qed.

Lemma Init_wf (nv alpha : nat) (usea useb : bool) (permtable : list (list nat)) :
  wf (Init nv alpha usea useb permtable).
Proof.
  unfold wf, Init. destruct usea, useb; cbn;
    rewrite ?length_replicate; repeat split;
    try apply length_replicate; try lia;
    try (apply Forall_forall; intros row Hin;
         apply elem_of_replicate in Hin as [-> _]; apply length_replicate).
Qed.

(** *** The parameters in closed form *)

Lemma SetBareParameters_a (m : t) :
  length (a_ m) = nv_ m ->
  a_ (SetBareParameters m) = map (fun _ => asymm_ m) (seq 0 (nv_ m)).
Proof. intros Ha. cbn. by apply fill_all. Qed.

Lemma SetBareParameters_b (m : t) :
  length (b_ m) = nh_ m ->
  b_ (SetBareParameters m)
  = map (fun j => nth (j / permsize_ m) (bsymm_ m) zero) (seq 0 (nh_ m)).
Proof. intros Hb. cbn. by apply (fill_all (fun j => nth (j / permsize_ m) (bsymm_ m) zero)). Qed.

Lemma SetBareParameters_W (m : t) :
  mdims (W_ m) (nv_ m) (nh_ m) ->
  W_ (SetBareParameters m)
  = map (fun i => map (fun j =>
        mget (Wsymm_ m) (nth (j mod permsize_ m) (nth i (permtable_ m) []) 0)
          (j / permsize_ m)) (seq 0 (nh_ m))) (seq 0 (nv_ m)).
Proof.
  intros [Hr Hc]. cbn. unfold mset.
  by apply (fill_matrix (fun i j =>
    mget (Wsymm_ m) (nth (j mod permsize_ m) (nth i (permtable_ m) []) 0)
      (j / permsize_ m))).
Qed.

Lemma SetParameters_asymm (m : t) (pars : list T) :
  asymm_ (SetParameters m pars) = if usea_ m then nth 0 pars zero else zero.
Proof.
  unfold SetParameters. destruct (usea_ m), (useb_ m);
    repeat (rewrite for_loop_counter || rewrite for_loop_counter2); reflexivity.
Qed.

Lemma SetParameters_bsymm (m : t) (pars : list T) :
  length (bsymm_ m) = alpha_ m ->
  bsymm_ (SetParameters m pars)
  = if useb_ m then map (fun p => nth (kb m + p) pars zero) (seq 0 (alpha_ m))
    else replicate (alpha_ m) zero.
Proof.
  intros Hb. unfold SetParameters, kb. destruct (usea_ m), (useb_ m);
    repeat (rewrite for_loop_counter || rewrite for_loop_counter2); cbn;
    try reflexivity.
  - by apply (fill_all (fun p => nth (1 + p) pars zero)).
  - by apply (fill_all (fun p => nth (0 + p) pars zero)).
Qed.

Lemma SetParameters_Wsymm (m : t) (pars : list T) :
  mdims (Wsymm_ m) (nv_ m) (alpha_ m) ->
  Wsymm_ (SetParameters m pars)
  = map (fun i => map (fun j => nth (kW m + i * alpha_ m + j) pars zero)
                    (seq 0 (alpha_ m))) (seq 0 (nv_ m)).
Proof.
  intros [Hr Hc]. unfold SetParameters, kW, kb. destruct (usea_ m), (useb_ m);
    repeat (rewrite for_loop_counter || rewrite for_loop_counter2); cbn;
    unfold mset.
  - by apply (fill_matrix (fun i j => nth (1 + alpha_ m + i * alpha_ m + j) pars zero)).
  - by apply (fill_matrix (fun i j => nth (1 + i * alpha_ m + j) pars zero)).
  - by apply (fill_matrix (fun i j => nth (0 + alpha_ m + i * alpha_ m + j) pars zero)).
  - by apply (fill_matrix (fun i j => nth (0 + i * alpha_ m + j) pars zero)).
Qed.

(** The reduced parameters that [SetParameters] reads off [pars]. *)
Definition reduced_a (m : t) (pars : list T) : T :=
  if usea_ m then nth 0 pars zero else zero.
Definition reduced_b (m : t) (pars : list T) : list T :=
  if useb_ m then map (fun p => nth (kb m + p) pars zero) (seq 0 (alpha_ m))
  else replicate (alpha_ m) zero.
Definition reduced_W (m : t) (pars : list T) : list (list T) :=
  map (fun i => map (fun j => nth (kW m + i * alpha_ m + j) pars zero)
                  (seq 0 (alpha_ m))) (seq 0 (nv_ m)).

Lemma SetParameters_eq (m : t) (pars : list T) :
  wf m ->
  SetParameters m pars
  = SetBareParameters
      {| permtable_ := permtable_ m; permsize_ := permsize_ m; nv_ := nv_ m;
         alpha_ := alpha_ m; nh_ := nh_ m; npar_ := npar_ m; nbarepar_ := nbarepar_ m;
         W_ := W_ m; Wsymm_ := reduced_W m pars; a_ := a_ m;
         asymm_ := reduced_a m pars;
         b_ := b_ m; bsymm_ := reduced_b m pars; DerMatSymm_ := DerMatSymm_ m;
         usea_ := usea_ m; useb_ := useb_ m |}.
Proof.
  intros (_ & _ & _ & Hb & [Hr Hc] & _).
  unfold SetParameters, reduced_a, reduced_b, reduced_W, kW, kb.
  destruct (usea_ m), (useb_ m);
    repeat (rewrite for_loop_counter || rewrite for_loop_counter2);
    cbn; unfold mset; do 2 f_equal.
  - by apply (fill_matrix (fun i j => nth (1 + alpha_ m + i * alpha_ m + j) pars zero)).
  - by apply (fill_all (fun p => nth (1 + p) pars zero)).
  - by apply (fill_matrix (fun i j => nth (1 + i * alpha_ m + j) pars zero)).
  - by apply (fill_matrix (fun i j => nth (0 + alpha_ m + i * alpha_ m + j) pars zero)).
  - by apply (fill_all (fun p => nth (0 + p) pars zero)).
  - by apply (fill_matrix (fun i j => nth (0 + i * alpha_ m + j) pars zero)).
Qed.

Lemma SetParameters_sizes (m : t) (pars : list T) :
  wf m ->
  permtable_ (SetParameters m pars) = permtable_ m
  /\ permsize_ (SetParameters m pars) = permsize_ m
  /\ nv_ (SetParameters m pars) = nv_ m
  /\ alpha_ (SetParameters m pars) = alpha_ m
  /\ nh_ (SetParameters m pars) = nh_ m
  /\ npar_ (SetParameters m pars) = npar_ m
  /\ usea_ (SetParameters m pars) = usea_ m
  /\ useb_ (SetParameters m pars) = useb_ m
  /\ DerMatSymm_ (SetParameters m pars) = DerMatSymm_ m.
Proof. intros Hwf. rewrite SetParameters_eq by done. by repeat split. Qed.

Lemma SetParameters_a (m : t) (pars : list T) :
  wf m ->
  a_ (SetParameters m pars) = map (fun _ => reduced_a m pars) (seq 0 (nv_ m)).
Proof.
  intros Hwf. rewrite SetParameters_eq by done.
  rewrite SetBareParameters_a; [done|]. cbn. apply Hwf.
Qed.

Lemma SetParameters_b (m : t) (pars : list T) :
  wf m ->
  b_ (SetParameters m pars)
  = map (fun j => nth (j / permsize_ m) (reduced_b m pars) zero) (seq 0 (nh_ m)).
Proof.
  intros Hwf. rewrite SetParameters_eq by done.
  rewrite SetBareParameters_b; [done|]. cbn. apply Hwf.
Qed.

Lemma SetParameters_W (m : t) (pars : list T) :
  wf m ->
  W_ (SetParameters m pars)
  = map (fun i => map (fun j =>
        mget (reduced_W m pars)
          (nth (j mod permsize_ m) (nth i (permtable_ m) []) 0)
          (j / permsize_ m)) (seq 0 (nh_ m))) (seq 0 (nv_ m)).
Proof.
  intros Hwf. rewrite SetParameters_eq by done.
  rewrite SetBareParameters_W; [done|]. cbn. apply Hwf.
Qed.

Lemma length_reduced_b (m : t) (pars : list T) : length (reduced_b m pars) = alpha_ m.
Proof.
  unfold reduced_b. destruct (useb_ m).
  - by rewrite length_map, length_seq.
  - apply length_replicate.
Qed.

Lemma SetParameters_wf (m : t) (pars : list T) : wf m -> wf (SetParameters m pars).
Proof.
  intros Hwf.
  destruct (SetParameters_sizes m pars Hwf) as (E1 & E2 & E3 & E4 & E5 & E6 & E7 & E8 & _).
  pose proof Hwf as (W1 & W2 & W3 & W4 & W5 & W6 & W7 & W8).
  unfold wf. rewrite E1, E2, E3, E4, E5, E6, E7, E8.
  rewrite SetParameters_a, SetParameters_b, SetParameters_W by done.
  rewrite SetParameters_bsymm, SetParameters_Wsymm by done.
  fold (reduced_b m pars).
  repeat split; try done.
  - apply length_reduced_b.
  - by rewrite length_map, length_seq.
  - apply (proj2 (mdims_map _ _ _)).
  - by rewrite length_map, length_seq.
  - by rewrite length_map, length_seq.
  - by rewrite length_map, length_seq.
  - apply (proj2 (mdims_map _ _ _)).
Qed.

(** After [SetParameters(pars)] the reduced parameters are the
    coefficients of [pars] in order, and the bare parameters are their
    expansion with [G = permsize_] hidden units per channel; the table is
    read at row [i], column [g]. *)
Lemma SetParameters_bare (m : t) (pars : list T) (i g f : nat) :
  wf m -> i < nv_ m -> g < permsize_ m -> f < alpha_ m ->
  let m' := SetParameters m pars in
  (asymm_ m' = reduced_a m pars /\ bsymm_ m' = reduced_b m pars
   /\ Wsymm_ m' = reduced_W m pars)
  /\ nth i (a_ m') zero = asymm_ m'
  /\ nth (permsize_ m * f + g) (b_ m') zero = nth f (bsymm_ m') zero
  /\ mget (W_ m') i (permsize_ m * f + g)
     = mget (Wsymm_ m') (nth g (nth i (permtable_ m) []) 0) f.
Proof.
  intros Hwf Hi Hg Hf m'. unfold m'.
  pose proof Hwf as (_ & Hnh & _).
  assert (Hj : permsize_ m * f + g < nh_ m) by (rewrite Hnh; nia).
  assert (Ediv : (permsize_ m * f + g) / permsize_ m = f).
  { rewrite (Nat.mul_comm (permsize_ m)), Nat.div_add_l by lia.
    rewrite (Nat.div_small g) by done. lia. }
  assert (Emod : (permsize_ m * f + g) mod permsize_ m = g).
  { replace (permsize_ m * f + g) with (g + f * permsize_ m) by lia.
    rewrite Nat.Div0.mod_add. by apply Nat.mod_small. }
  rewrite SetParameters_a, SetParameters_b, SetParameters_W by done.
  rewrite SetParameters_asymm, SetParameters_bsymm, SetParameters_Wsymm by apply Hwf.
  fold (reduced_a m pars). fold (reduced_b m pars). fold (reduced_W m pars).
  split; [done|]. split; [|split].
  - apply nth_lookup_Some. by rewrite list_lookup_fmap, lookup_seq_lt.
  - rewrite (nth_lookup_Some _ _ _ (nth ((permsize_ m * f + g) / permsize_ m)
                                      (reduced_b m pars) zero)).
    + by rewrite Ediv.
    + by rewrite list_lookup_fmap, lookup_seq_lt.
  - rewrite (mget_map (fun i j =>
      mget (reduced_W m pars)
        (nth (j mod permsize_ m) (nth i (permtable_ m) []) 0) (j / permsize_ m)))
      by done.
    by rewrite Ediv, Emod.
Qed.

(** A table in which the image of site [i] under the element [g] is the
    image of site [g] under the element [i], as in the translation table of
    a hypercube. *)
Definition symmetric_table (m : t) : Prop :=
  forall i g, i < nv_ m -> g < permsize_ m ->
    nth g (nth i (permtable_ m) []) 0 = nth i (nth g (permtable_ m) []) 0.

(** C2 (as amended).  After [SetParameters(pars)], on a symmetric
    permutation table [P] of size [G], the reduced parameters are the
    coefficients of [pars] in order and the bare parameters are
    [a_i = a_sym], [b_(G*f + g) = b_sym[f]] and
    [W_(i, G*f + g) = W_sym[P[g](i), f]]: the [G] hidden units of a channel
    are contiguous. *)
Theorem SetParameters_expansion (m : t) (pars : list T) (i g f : nat) :
  wf m -> symmetric_table m -> i < nv_ m -> g < permsize_ m -> f < alpha_ m ->
  let m' := SetParameters m pars in
  (asymm_ m' = reduced_a m pars /\ bsymm_ m' = reduced_b m pars
   /\ Wsymm_ m' = reduced_W m pars)
  /\ nth i (a_ m') zero = asymm_ m'
  /\ nth (permsize_ m * f + g) (b_ m') zero = nth f (bsymm_ m') zero
  /\ mget (W_ m') i (permsize_ m * f + g)
     = mget (Wsymm_ m') (nth i (nth g (permtable_ m) []) 0) f.
Proof.
  intros Hwf Hsym Hi Hg Hf. rewrite <- (Hsym i g Hi Hg).
  by apply SetParameters_bare.
Qed.

(** *** Reading the parameters back *)

(** [GetParameters] lays the reduced parameters out one after the other. *)
Lemma GetParameters_layout (m : t) :
  wf m ->
  GetParameters m
  = (if usea_ m then [asymm_ m] else []) ++ (if useb_ m then bsymm_ m else [])
    ++ concat (Wsymm_ m).
Proof.
  intros (_ & _ & Hn & Hb & [Hr Hc] & _).
  assert (EW : forall (k0 : nat) (pre : list T), length pre = k0 ->
    for_loop (nv_ m) (fun i => for_loop (alpha_ m) (fun j a =>
      <[k0 + i * alpha_ m + j := mget (Wsymm_ m) i j]> a))
      (pre ++ replicate (nv_ m * alpha_ m) zero)
    = pre ++ concat (Wsymm_ m)).
  { intros k0 pre Hpre.
    rewrite <- (app_nil_r (replicate _ _)).
    rewrite (fill_segment2_app (mget (Wsymm_ m))) by (by rewrite ?length_replicate).
    rewrite app_nil_r. f_equal. by apply concat_rows. }
  assert (EB : forall (k0 : nat) (pre post : list T), length pre = k0 ->
    for_loop (alpha_ m) (fun p a => <[k0 + p := nth p (bsymm_ m) zero]> a)
      (pre ++ replicate (alpha_ m) zero ++ post)
    = pre ++ bsymm_ m ++ post).
  { intros k0 pre post Hpre.
    rewrite (fill_segment_app (fun p => nth p (bsymm_ m) zero))
      by (by rewrite ?length_replicate).
    do 2 f_equal. rewrite <- Hb. apply map_nth_all. }
  unfold GetParameters. rewrite Hn.
  destruct (usea_ m), (useb_ m);
    repeat (rewrite for_loop_counter || rewrite for_loop_counter2); cbn [fst snd].
  - rewrite <- Nat.add_assoc, !replicate_add. cbn [replicate app].
    change (<[0:=asymm_ m]> (zero :: ?l)) with ([asymm_ m] ++ l).
    rewrite (EB 1 [asymm_ m]) by done.
    rewrite (app_assoc [asymm_ m]).
    rewrite (EW (1 + alpha_ m)) by (rewrite length_app, Hb; done).
    by rewrite <- app_assoc.
  - change (1 + 0) with 1. rewrite !replicate_add. cbn [replicate app].
    change (<[0:=asymm_ m]> (zero :: ?l)) with ([asymm_ m] ++ l).
    exact (EW 1 [asymm_ m] eq_refl).
  - rewrite !replicate_add. cbn [replicate]. rewrite <- app_assoc.
    rewrite (EB 0 []) by done.
    exact (EW (0 + alpha_ m) (bsymm_ m) Hb).
  - exact (EW 0 [] eq_refl).
Qed.

Lemma reduced_b_segment (m : t) (pars : list T) :
  kW m <= length pars ->
  (if useb_ m then reduced_b m pars else []) = take (kW m - kb m) (drop (kb m) pars).
Proof.
  unfold reduced_b, kW. intros Hlen. destruct (useb_ m).
  - rewrite map_nth_segment by lia. f_equal. lia.
  - by replace (kb m + 0 - kb m) with 0 by lia.
Qed.

Lemma reduced_W_segment (m : t) (pars : list T) :
  kW m + nv_ m * alpha_ m <= length pars ->
  concat (reduced_W m pars) = take (nv_ m * alpha_ m) (drop (kW m) pars).
Proof. intros Hlen. unfold reduced_W. by apply concat_nth_segment. Qed.

(** C10.  Installing a parameter vector of length [Npar()] with
    [SetParameters] and reading it back with [GetParameters] returns the
    same vector, whatever [usea_] and [useb_] are. *)
Theorem GetParameters_SetParameters (m : t) (pars : list T) :
  wf m -> length pars = npar_ m ->
  GetParameters (SetParameters m pars) = pars.
Proof.
  intros Hwf Hlen.
  rewrite GetParameters_layout by (by apply SetParameters_wf).
  destruct (SetParameters_sizes m pars Hwf) as (_ & _ & _ & _ & _ & _ & -> & -> & _).
  rewrite SetParameters_asymm.
  rewrite SetParameters_bsymm, SetParameters_Wsymm by apply Hwf.
  fold (reduced_b m pars). fold (reduced_W m pars).
  destruct Hwf as (_ & _ & Hn & _).
  assert (HkW : kW m + nv_ m * alpha_ m = length pars).
  { rewrite Hlen, Hn. unfold kW, kb. lia. }
  rewrite reduced_b_segment, reduced_W_segment by lia.
  assert (Ea : (if usea_ m then [if usea_ m then nth 0 pars zero else zero] else [])
               = take (kb m) pars).
  { unfold kb. unfold kW, kb in HkW. destruct (usea_ m); [|done].
    destruct pars; [simpl in HkW; lia|done]. }
  rewrite Ea, app_assoc, take_take_drop.
  replace (kb m + (kW m - kb m)) with (kW m) by (unfold kW; lia).
  rewrite take_take_drop. apply take_ge. lia.
Qed.

(** *** The log-ratio of a move *)

Lemma thetas_eq (m : t) (v : list T) :
  length (b_ m) = nh_ m ->
  thetas m v
  = map (fun j => (dot (mcol (W_ m) j) v + nth j (b_ m) zero)%T) (seq 0 (nh_ m)).
Proof. intros Hb. unfold thetas, mul_transpose. by apply vadd_map_seq. Qed.

Lemma nth_InitLookup (m : t) (v : list T) (lt : LookupType) :
  nth 0 (InitLookup m v lt) [] = thetas m v.
Proof.
  unfold InitLookup. destruct (decide (length lt = 0)) as [E|E]; [done|].
  destruct lt; [done|done].
Qed.

Lemma length_UpdateConf_prefix (v newconf : list T) (tochange : list nat) (n : nat) :
  length (for_loop n (fun i v =>
            match newconf !! i with
            | Some x => <[nth i tochange 0 := x]> v
            | None => v
            end) v) = length v.
Proof.
  induction n as [|n IH]; [done|]. cbn [for_loop].
  destruct (newconf !! n); [by rewrite length_insert|done].
Qed.

Lemma length_UpdateConf (v newconf : list T) (tochange : list nat) :
  length (UpdateConf v tochange newconf) = length v.
Proof. apply length_UpdateConf_prefix. Qed.

(** A site that the first [n] changes do not name keeps its value. *)
Lemma nth_UpdateConf_prefix_other (v newconf : list T) (tochange : list nat)
    (n sf : nat) :
  (forall s, s < n -> nth s tochange 0 <> sf) ->
  nth sf (for_loop n (fun i v =>
            match newconf !! i with
            | Some x => <[nth i tochange 0 := x]> v
            | None => v
            end) v) zero = nth sf v zero.
Proof.
  induction n as [|n IH]; intros Hne; [done|]. cbn [for_loop].
  destruct (newconf !! n).
  - rewrite nth_lookup, list_lookup_insert_ne by (apply Hne; lia).
    rewrite <- nth_lookup. apply IH. intros s Hs. apply Hne. lia.
  - apply IH. intros s Hs. apply Hne. lia.
Qed.

(** After [n] changes the loop of [LogValDiff] holds the change of
    [v.dot(a_)] and the angles of the updated configuration. *)
Lemma LogValDiff_loop (m : t) (v : list T) (tochange : list nat) (newconf : list T)
    (n : nat) :
  wf m -> length v = nv_ m -> NoDup tochange ->
  Forall (fun sf => sf < nv_ m) tochange ->
  length newconf = length tochange -> n <= length tochange ->
  let v' := for_loop n (fun i v =>
              match newconf !! i with
              | Some x => <[nth i tochange 0 := x]> v
              | None => v
              end) v in
  for_loop n (fun s '(logvaldiff, thetasnew) =>
      let sf := nth s tochange 0 in
      let d := (nth s newconf zero - nth sf v zero)%T in
      ((logvaldiff + nth sf (a_ m) zero * d)%T,
       vadd thetasnew (vscale (nth sf (W_ m) []) d)))
    (zero, thetas m v)
  = ((dot (a_ m) v' - dot (a_ m) v)%T, thetas m v').
Proof.
  intros Hwf Hv Hnd Hrange Hnew.
  pose proof Hwf as (_ & _ & _ & _ & _ & Ha & Hb & [HWr HWc]).
  induction n as [|n IH]; intros Hn; cbn [for_loop].
  - cbn zeta. f_equal. ring.
  - cbn zeta in IH. rewrite IH by lia. cbn zeta.
    set (vn := for_loop n _ v).
    assert (Hvn : length vn = length v) by apply length_UpdateConf_prefix.
    set (sf := nth n tochange 0).
    assert (Hsf : sf < nv_ m).
    { apply (proj1 (Forall_forall _ _) Hrange). apply list_elem_of_In, nth_In. lia. }
    assert (Evn : nth sf vn zero = nth sf v zero).
    { apply nth_UpdateConf_prefix_other. intros s Hs E.
      apply NoDup_ListNoDup in Hnd.
      pose proof (proj1 (NoDup_nth tochange 0) Hnd s n) as Hinj.
      specialize (Hinj ltac:(lia) ltac:(lia) E). lia. }
    destruct (nth_lookup_or_length newconf n zero) as [->|]; [|lia].
    f_equal.
    + rewrite dot_insert by lia. rewrite Evn. ring.
    + rewrite !thetas_eq by done.
      assert (Hrow : length (nth sf (W_ m) []) = nh_ m).
      { apply (proj1 (Forall_forall _ _) HWc). apply list_elem_of_In, nth_In. lia. }
      rewrite vadd_map_scale by done.
      apply map_ext_in. intros j Hj.
      rewrite dot_insert by (rewrite ?length_mcol; lia).
      rewrite nth_mcol, Evn. unfold mget. ring.
Qed.

(** The look-up table after [UpdateLookup] holds the angles of the
    updated configuration: [LogVal(v', lt)] is [LogVal(v')]. *)
Lemma UpdateLookup_coherent (m : t) (v : list T) (tochange : list nat)
    (newconf : list T) (lt : LookupType) :
  wf m -> length v = nv_ m -> NoDup tochange ->
  Forall (fun sf => sf < nv_ m) tochange ->
  length newconf = length tochange ->
  let v' := UpdateConf v tochange newconf in
  let lt' := UpdateLookup m v tochange newconf (InitLookup m v lt) in
  nth 0 lt' [] = thetas m v' /\ LogValLt m v' lt' = LogVal m v'.
Proof.
  intros Hwf Hv Hnd Hrange Hnew v' lt'.
  assert (E : nth 0 lt' [] = thetas m v'); [|split; [done|]].
  2:{ unfold LogValLt, LogVal. by rewrite E. }
  unfold lt', v', UpdateLookup.
  destruct (decide (length tochange = 0)) as [E0|E0].
  { unfold UpdateConf. rewrite E0. cbn [for_loop]. apply nth_InitLookup. }
  assert (G : forall n lt0, lt0 <> [] ->
    nth 0 (for_loop n (fun s lt =>
             let sf := nth s tochange 0 in
             <[0 := vadd (nth 0 lt [])
                      (vscale (nth sf (W_ m) [])
                         (nth s newconf zero - nth sf v zero)%T)]> lt) lt0) []
    = snd (for_loop n (fun s '(logvaldiff, thetasnew) =>
             let sf := nth s tochange 0 in
             let d := (nth s newconf zero - nth sf v zero)%T in
             ((logvaldiff + nth sf (a_ m) zero * d)%T,
              vadd thetasnew (vscale (nth sf (W_ m) []) d)))
            (zero, nth 0 lt0 []))
    /\ for_loop n (fun s lt =>
             let sf := nth s tochange 0 in
             <[0 := vadd (nth 0 lt [])
                      (vscale (nth sf (W_ m) [])
                         (nth s newconf zero - nth sf v zero)%T)]> lt) lt0 <> []).
  { intros n lt0 Hne. induction n as [|n [IH1 IH2]]; cbn [for_loop]; [done|].
    destruct (for_loop n _ (zero, nth 0 lt0 [])) as [lvd th] eqn:Ep.
    cbn zeta. cbn [snd] in *.
    destruct (for_loop n _ lt0) as [|x rest]; [done|].
    cbn in IH1. subst x. by cbn. }
  assert (Hne : InitLookup m v lt <> []).
  { unfold InitLookup. destruct (decide (length lt = 0)); [done|]. by destruct lt. }
  destruct (G (length tochange) _ Hne) as [EG _].
  etrans; [exact EG|]. rewrite nth_InitLookup.
  pose proof (LogValDiff_loop m v tochange newconf (length tochange)
                Hwf Hv Hnd Hrange Hnew (le_n _)) as L.
  cbn zeta in L. cbn zeta. by rewrite L.
Qed.

(** C6.  A proposed move lists sites of the configuration, pairwise
    distinct, with one new value for each (the sampler proposes one
    site, a connector of the Hamiltonian the sites of one term).  For
    every such move the single-move [LogValDiff] on a look-up table just
    initialised by [InitLookup(v, lt)] is exactly [LogVal(v') - LogVal(v)],
    where [v'] is [v] with the listed sites overwritten by the new
    values. *)
Theorem LogValDiff_lookup_consistent (m : t) (v : list T) (tochange : list nat)
    (newconf : list T) (lt : LookupType) :
  wf m -> length v = nv_ m -> NoDup tochange ->
  Forall (fun sf => sf < nv_ m) tochange ->
  length newconf = length tochange ->
  LogValDiffLt m v tochange newconf (InitLookup m v lt)
  = (LogVal m (UpdateConf v tochange newconf) - LogVal m v)%T.
Proof.
  intros Hwf Hv Hnd Hrange Hnew. unfold LogValDiffLt.
  destruct (decide (length tochange = 0)) as [E|E].
  - unfold UpdateConf. rewrite E. cbn [for_loop]. ring.
  - rewrite nth_InitLookup.
    pose proof (LogValDiff_loop m v tochange newconf (length tochange)
                  Hwf Hv Hnd Hrange Hnew (le_n _)) as L.
    cbn zeta in L. rewrite L. unfold LogVal, UpdateConf.
    rewrite !(dot_comm _ (a_ m)). ring.
Qed.

End Machine.
End RbmSpinSymm.

(** ** MetropolisLocal: the sampler of local moves *)
Module MetropolisLocal.

(** A [double] that may be NaN.  The values of the configuration and the
    uniform draws are real numbers; only the ratio computed from the
    machine's answer can be NaN here. *)
Inductive double := NaN | Fin (x : R).

(** [a > b] on doubles: false as soon as [a] is NaN. *)
Definition dgt (a : double) (b : R) : bool :=
  match a with
  | NaN => false
  | Fin x => if Rlt_dec b x then true else false
  end.

(** [std::numeric_limits<double>::epsilon()] *)
Definition epsilon : R := (/ 2 ^ 52)%R.

(** [std::abs(a - b) < epsilon] *)
Definition near (a b : R) : bool :=
  if Rlt_dec (Rabs (a - b)) epsilon then true else false.

(** The random engine [rgen_], seen through the three distributions of
    [Sweep]: the values that [distrs], [diststate] and [distu] will
    return, in order.  A run that asks for more values than a sequence
    holds has no result. *)
Record rng := Rng {
  site_draws : list nat;
  state_draws : list nat;
  unif_draws : list R
}.

Section Sampler.

(** The machine [psi_] of type [WfType], through the methods [Sweep]
    calls. *)
Variable LookupType : Type.
Variable StateType : Type.
Variable LogValDiff : list R -> list nat -> list R -> LookupType -> StateType.
Variable UpdateLookup : list R -> list nat -> list R -> LookupType -> LookupType.

(** [std::norm(std::exp(lvd))], and the answers of the machine that are
    NaN; [std::exp] and [std::norm] return NaN on them. *)
Variable norm_exp : StateType -> double.
Variable is_nan : StateType -> Prop.
Hypothesis norm_exp_nan : forall lvd, is_nan lvd -> norm_exp lvd = NaN.

(** The members of the sampler that [Sweep] reads or writes; [accept_]
    and [moves_] are vectors of one double. *)
Record t := Build {
  nv_ : nat;
  nstates_ : nat;
  localstates_ : list R;
  v_ : list R;
  accept_ : R;
  moves_ : R;
  lt_ : LookupType;
  rgen_ : rng
}.

(** The loop that makes sure the new state is not equal to the current
    one: while [newconf[0]] is within [epsilon] of [v_(si)], draw again. *)
Fixpoint resample (localstates : list R) (cur newconf0 : R) (states : list nat)
    : option (R * list nat) :=
  if near newconf0 cur then
    match states with
    | [] => None
    | newstate :: states =>
        match localstates !! newstate with
        | Some l => resample localstates cur l states
        | None => None
        end
    end
  else Some (newconf0, states).

(** The site and the new value of one proposal.  [distrs] and
    [diststate] return values below [nv_] and [nstates_]; a sequence of
    draws that breaks this has no result. *)
Definition draw_move (s : t) : option (nat * R * rng) :=
  match site_draws (rgen_ s) with
  | [] => None
  | si :: sites =>
      if decide (si < nv_ s) then
        match state_draws (rgen_ s) with
        | [] => None
        | newstate :: states =>
            match localstates_ s !! newstate with
            | Some l0 =>
                match resample (localstates_ s) (nth si (v_ s) 0%R) l0 states with
                | Some (l, states) =>
                    Some (si, l, {| site_draws := sites; state_draws := states;
                                    unif_draws := unif_draws (rgen_ s) |})
                | None => None
                end
            | None => None
            end
        end
      else None
  end.

(** The Metropolis acceptance test on the move [(si, l)] and what
    follows it.  The checks that the source compiles in without [NDEBUG]
    only abort; they are not embedded. *)
Definition accept_test (s : t) (si : nat) (l : R) (g : rng) : option t :=
  let tochange := [si] in
  let newconf := [l] in
  let lvd := LogValDiff (v_ s) tochange newconf (lt_ s) in
  let ratio := norm_exp lvd in
  match unif_draws g with
  | [] => None
  | u :: unifs =>
      let g := {| site_draws := site_draws g; state_draws := state_draws g;
                  unif_draws := unifs |} in
      if dgt ratio u then
        Some {| nv_ := nv_ s; nstates_ := nstates_ s; localstates_ := localstates_ s;
                v_ := UpdateConf (v_ s) tochange newconf;
                accept_ := (accept_ s + 1)%R;
                moves_ := (moves_ s + 1)%R;
                lt_ := UpdateLookup (v_ s) tochange newconf (lt_ s);
                rgen_ := g |}
      else
        Some {| nv_ := nv_ s; nstates_ := nstates_ s; localstates_ := localstates_ s;
                v_ := v_ s; accept_ := accept_ s; moves_ := (moves_ s + 1)%R;
                lt_ := lt_ s; rgen_ := g |}
  end.

(** One iteration of the loop of [Sweep]. *)
Definition Proposal (s : t) : option t :=
  match draw_move s with
  | Some (si, l, g) => accept_test s si l g
  | None => None
  end.

(** [Sweep()] *)
Definition Sweep (s : t) : option t :=
  for_loop (nv_ s) (fun _ os => match os with Some s => Proposal s | None => None end)
    (Some s).

(** *** What a proposal and a sweep do *)

Lemma near_false_neq (a b : R) : near a b = false -> a <> b.
Proof.
  unfold near. destruct (Rlt_dec (Rabs (a - b)) epsilon) as [|Hn]; [done|].
  intros _ ->. apply Hn. rewrite Rminus_diag, Rabs_R0.
  unfold epsilon. apply Rinv_0_lt_compat. apply pow_lt. lra.
Qed.


Lemma resample_spec (localstates : list R) (cur l0 l : R) (states states' : list nat) :
  resample localstates cur l0 states = Some (l, states') ->
  near l cur = false /\ (l = l0 \/ l ∈ localstates)
  /\ exists used, states = used ++ states'.
Proof.
  revert l0. induction states as [|k states IH]; intros l0; simpl.
  - destruct (near l0 cur) eqn:E; [done|]. intros [= <- <-].
    split; [done|]. split; [by left|]. by exists [].
  - destruct (near l0 cur) eqn:E.
    + destruct (localstates !! k) as [l1|] eqn:Ek; [|done].
      intros Hr. apply IH in Hr as (Hn & Hl & used & ->).
      split; [done|]. split.
      * right. destruct Hl as [->|Hl]; [|done]. by apply list_elem_of_lookup_2 in Ek.
      * by exists (k :: used).
    + intros [= <- <-]. split; [done|]. split; [by left|]. by exists [].
Qed.

Lemma draw_move_spec (s : t) (si : nat) (l : R) (g : rng) :
  draw_move s = Some (si, l, g) ->
  si < nv_ s /\ l ∈ localstates_ s /\ near l (nth si (v_ s) 0%R) = false
  /\ unif_draws g = unif_draws (rgen_ s).
Proof.
  unfold draw_move. destruct (site_draws (rgen_ s)) as [|si0 sites]; [done|].
  destruct (decide (si0 < nv_ s)) as [Hsi|]; [|done].
  destruct (state_draws (rgen_ s)) as [|k states]; [done|].
  destruct (localstates_ s !! k) as [l0|] eqn:Ek; [|done].
  destruct (resample _ _ _ _) as [[l1 states']|] eqn:Er; [|done].
  intros [= <- <- <-]. apply resample_spec in Er as (Hn & Hl & _).
  repeat split; try done.
  destruct Hl as [->|Hl]; [|done]. by apply list_elem_of_lookup_2 in Ek.
Qed.

Lemma UpdateConf_single (v : list R) (si : nat) (l : R) :
  UpdateConf v [si] [l] = <[si := l]> v.
Proof. reflexivity. Qed.

(** What [accept_test] leaves behind, by the outcome of the comparison. *)
Lemma accept_test_spec (s s' : t) (si : nat) (l : R) (g : rng) :
  accept_test s si l g = Some s' ->
  exists u unifs,
    unif_draws g = u :: unifs
    /\ nv_ s' = nv_ s /\ moves_ s' = (moves_ s + 1)%R
    /\ (if dgt (norm_exp (LogValDiff (v_ s) [si] [l] (lt_ s))) u
        then accept_ s' = (accept_ s + 1)%R
             /\ lt_ s' = UpdateLookup (v_ s) [si] [l] (lt_ s)
             /\ v_ s' = UpdateConf (v_ s) [si] [l]
        else accept_ s' = accept_ s /\ lt_ s' = lt_ s /\ v_ s' = v_ s).
Proof.
  unfold accept_test. destruct (unif_draws g) as [|u unifs]; [done|].
  intros Hs. exists u, unifs. split; [done|].
  destruct (dgt _ u); injection Hs as <-; by cbn.
Qed.

(** *** Proposals that return *)

Lemma near_far (a b : R) : (1 <= Rabs (a - b))%R -> near a b = false.
Proof.
  intros Hab. unfold near. destruct (Rlt_dec _ _) as [Hlt|]; [|done].
  exfalso. assert (epsilon < 1)%R; [|lra].
  unfold epsilon. rewrite <- Rinv_1. apply Rinv_lt_contravar.
  - rewrite Rmult_1_l. apply pow_lt. lra.
  - apply Rlt_pow_R1; [lra|lia].
Qed.

(** The first value drawn already differs from the current one. *)
Lemma draw_move_direct (s : t) (si newstate : nat) (sites states : list nat) (l : R) :
  site_draws (rgen_ s) = si :: sites -> si < nv_ s ->
  state_draws (rgen_ s) = newstate :: states ->
  localstates_ s !! newstate = Some l ->
  near l (nth si (v_ s) 0%R) = false ->
  draw_move s
  = Some (si, l, {| site_draws := sites; state_draws := states;
                    unif_draws := unif_draws (rgen_ s) |}).
Proof.
  intros Hs Hsi Hk Hl Hn. unfold draw_move. rewrite Hs, Hk, Hl.
  destruct (decide (si < nv_ s)); [|done].
  destruct states; simpl; by rewrite Hn.
Qed.

(** The first value drawn is the current one and the second differs. *)
Lemma draw_move_resampled (s : t) (si k0 k1 : nat) (sites states : list nat) (l0 l : R) :
  site_draws (rgen_ s) = si :: sites -> si < nv_ s ->
  state_draws (rgen_ s) = k0 :: k1 :: states ->
  localstates_ s !! k0 = Some l0 -> near l0 (nth si (v_ s) 0%R) = true ->
  localstates_ s !! k1 = Some l -> near l (nth si (v_ s) 0%R) = false ->
  draw_move s
  = Some (si, l, {| site_draws := sites; state_draws := states;
                    unif_draws := unif_draws (rgen_ s) |}).
Proof.
  intros Hs Hsi Hk Hl0 Hn0 Hl Hn. unfold draw_move. rewrite Hs, Hk, Hl0.
  destruct (decide (si < nv_ s)); [|done].
  simpl. rewrite Hn0, Hl. destruct states; simpl; by rewrite Hn.
Qed.

(** The draws on which the resampling loop ends: the values drawn are
    the current one until one that differs comes. *)
Definition ends_resampling (localstates : list R) (cur l0 : R) (states : list nat)
    : Prop :=
  near l0 cur = false
  \/ exists used k rest l,
       states = used ++ k :: rest
       /\ Forall (fun j => exists x, localstates !! j = Some x /\ near x cur = true) used
       /\ localstates !! k = Some l /\ near l cur = false.

Lemma resample_unfold (localstates : list R) (cur l0 : R) (states : list nat) :
  resample localstates cur l0 states
  = if near l0 cur then
      match states with
      | [] => None
      | newstate :: states =>
          match localstates !! newstate with
          | Some l => resample localstates cur l states
          | None => None
          end
      end
    else Some (l0, states).
Proof. by destruct states. Qed.

Lemma resample_returns (localstates : list R) (cur l0 : R) (states : list nat) :
  ends_resampling localstates cur l0 states ->
  exists l states', resample localstates cur l0 states = Some (l, states').
Proof.
  intros [Hfar|(used & k & rest & l & -> & Hused & Hk & Hfar)].
  - rewrite resample_unfold, Hfar. by eexists _, _.
  - revert l0. induction used as [|j used IH]; intros l0.
    + rewrite resample_unfold. destruct (near l0 cur); [|by eexists _, _].
      cbn [app]. rewrite Hk, resample_unfold, Hfar. by eexists _, _.
    + apply Forall_cons in Hused as [(x & Hj & Hx) Hused].
      rewrite resample_unfold. destruct (near l0 cur); [|by eexists _, _].
      cbn [app]. rewrite Hj. by apply IH.
Qed.

(** A proposal returns as soon as the engine has a site below [nv_], a
    local state on which the resampling loop ends, and a uniform number
    to offer. *)
Lemma Proposal_returns (s : t) (si k0 : nat) (sites states : list nat) (l0 u : R)
    (unifs : list R) :
  site_draws (rgen_ s) = si :: sites -> si < nv_ s ->
  state_draws (rgen_ s) = k0 :: states -> localstates_ s !! k0 = Some l0 ->
  ends_resampling (localstates_ s) (nth si (v_ s) 0%R) l0 states ->
  unif_draws (rgen_ s) = u :: unifs ->
  exists s', Proposal s = Some s'.
Proof.
  intros Hs Hsi Hk Hl0 Hend Hu.
  destruct (resample_returns _ _ _ _ Hend) as (l & states' & Hr).
  unfold Proposal, draw_move. rewrite Hs, Hk, Hl0, Hr.
  destruct (decide (si < nv_ s)); [|done].
  unfold accept_test. cbn [unif_draws]. rewrite Hu.
  destruct (dgt _ u); by eexists.
Qed.

Lemma Proposal_accepted (s : t) (si : nat) (l : R) (g : rng) (u r : R) (unifs : list R) :
  draw_move s = Some (si, l, g) -> unif_draws g = u :: unifs ->
  norm_exp (LogValDiff (v_ s) [si] [l] (lt_ s)) = Fin r -> (u < r)%R ->
  Proposal s
  = Some {| nv_ := nv_ s; nstates_ := nstates_ s; localstates_ := localstates_ s;
            v_ := UpdateConf (v_ s) [si] [l];
            accept_ := (accept_ s + 1)%R; moves_ := (moves_ s + 1)%R;
            lt_ := UpdateLookup (v_ s) [si] [l] (lt_ s);
            rgen_ := {| site_draws := site_draws g; state_draws := state_draws g;
                        unif_draws := unifs |} |}.
Proof.
  intros Hd Hu Hr Hlt. unfold Proposal. rewrite Hd. unfold accept_test.
  rewrite Hu, Hr. unfold dgt. by destruct (Rlt_dec u r).
Qed.

Lemma Proposal_rejected (s : t) (si : nat) (l : R) (g : rng) (u r : R) (unifs : list R) :
  draw_move s = Some (si, l, g) -> unif_draws g = u :: unifs ->
  norm_exp (LogValDiff (v_ s) [si] [l] (lt_ s)) = Fin r -> (r <= u)%R ->
  Proposal s
  = Some {| nv_ := nv_ s; nstates_ := nstates_ s; localstates_ := localstates_ s;
            v_ := v_ s; accept_ := accept_ s; moves_ := (moves_ s + 1)%R;
            lt_ := lt_ s;
            rgen_ := {| site_draws := site_draws g; state_draws := state_draws g;
                        unif_draws := unifs |} |}.
Proof.
  intros Hd Hu Hr Hle. unfold Proposal. rewrite Hd. unfold accept_test.
  rewrite Hu, Hr. unfold dgt. destruct (Rlt_dec u r); [lra|done].
Qed.

Lemma Proposal_spec (s s' : t) :
  Proposal s = Some s' ->
  exists si l u unifs,
    unif_draws (rgen_ s) = u :: unifs
    /\ si < nv_ s /\ l ∈ localstates_ s /\ l <> nth si (v_ s) 0%R
    /\ nv_ s' = nv_ s /\ moves_ s' = (moves_ s + 1)%R
    /\ (if dgt (norm_exp (LogValDiff (v_ s) [si] [l] (lt_ s))) u
        then accept_ s' = (accept_ s + 1)%R
             /\ lt_ s' = UpdateLookup (v_ s) [si] [l] (lt_ s)
             /\ v_ s' = UpdateConf (v_ s) [si] [l]
        else accept_ s' = accept_ s /\ lt_ s' = lt_ s /\ v_ s' = v_ s).
Proof.
  unfold Proposal. destruct (draw_move s) as [[[si l] g]|] eqn:Ed; [|done].
  intros Ha. apply draw_move_spec in Ed as (Hsi & Hl & Hn & Eu).
  apply accept_test_spec in Ha as (u & unifs & Hu & Hnv & Hm & Hacc).
  exists si, l, u, unifs. rewrite <- Eu.
  repeat split; try done. by apply near_false_neq.
Qed.

(** The state after [k] iterations of the loop of [Sweep]. *)
Definition iterations (k : nat) (s : t) : option t :=
  for_loop k (fun _ os => match os with Some s => Proposal s | None => None end)
    (Some s).

Lemma iterations_S (k : nat) (s s' : t) :
  iterations (S k) s = Some s' ->
  exists s1, iterations k s = Some s1 /\ Proposal s1 = Some s'.
Proof.
  unfold iterations. cbn [for_loop].
  destruct (for_loop k _ (Some s)) as [s1|]; [|done]. intros Hp. by exists s1.
Qed.


(** *** A sweep as a chain of proposals on the draws of the engine *)










(** C9.  When the machine's [LogValDiff] is NaN for the move of a
    proposal, the proposal is rejected: the configuration, the look-up
    table and the accept counter stay as they are and the moves counter
    grows by 1. *)
Theorem nan_ratio_rejected (s : t) (si : nat) (l : R) (g : rng) (u : R)
    (unifs : list R) :
  draw_move s = Some (si, l, g) -> unif_draws g = u :: unifs ->
  is_nan (LogValDiff (v_ s) [si] [l] (lt_ s)) ->
  exists s', Proposal s = Some s'
    /\ v_ s' = v_ s /\ lt_ s' = lt_ s /\ accept_ s' = accept_ s
    /\ moves_ s' = (moves_ s + 1)%R.
Proof.
  intros Hd Hu Hnan. unfold Proposal. rewrite Hd. unfold accept_test.
  rewrite Hu. rewrite (norm_exp_nan _ Hnan). cbn [dgt].
  eexists. split; [done|]. by cbn.
Qed.


End Sampler.
End MetropolisLocal.

(** ** Sr: the gradient of the learning driver *)
Module Sr.

(** [std::complex<double>] in exact arithmetic. *)
Record C := mkC { re : R; im : R }.

Definition Cadd (z w : C) : C := mkC (re z + re w) (im z + im w).
Definition Cmul (z w : C) : C :=
  mkC (re z * re w - im z * im w) (re z * im w + im z * re w).
Definition Csub (z w : C) : C := mkC (re z - re w) (im z - im w).
Definition Copp (z : C) : C := mkC (- re z) (- im z).
(** [std::conj] *)
Definition Cconj (z : C) : C := mkC (re z) (- im z).
(** A double times a complex number, and a complex number divided by a
    double. *)
Definition Cscale (r : R) (z : C) : C := mkC (r * re z) (r * im z).
Definition Cdivr (z : C) (r : R) : C := mkC (re z / r) (im z / r).

Lemma C_eq (z w : C) : re z = re w -> im z = im w -> z = w.
Proof. destruct z, w. simpl. by intros -> ->. Qed.

Lemma C_ring : ring_theory (mkC 0 0) (mkC 1 0) Cadd Cmul Csub Copp (@eq C).
Proof.
  constructor; intros; apply C_eq; simpl; ring.
Qed.

#[export] Instance C_Scalar : Scalar C := {|
  zero := mkC 0 0; one := mkC 1 0; add := Cadd; mul := Cmul; sub := Csub; opp := Copp;
  scalar_ring := C_ring
|}.

Section Learning.

(** The Hamiltonian and the machine, through the methods [Gradient]
    calls: [ham_.FindConn], the batched [psi_.LogValDiff], [psi_.DerLog]
    and [psi_.Npar()]; [cexp] is [std::exp] on complex numbers. *)
Variable FindConn : list R -> list C * list (list nat) * list (list R).
Variable LogValDiff : list R -> list (list nat) -> list (list R) -> list C.
Variable DerLog : list R -> list C.
Variable npar : nat.
Variable cexp : C -> C.

(** [Eloc(v)] *)
Definition Eloc (v : list R) : C :=
  let '(mel, connectors, newconfs) := FindConn v in
  let logvaldiffs := LogValDiff v connectors newconfs in
  for_loop (length logvaldiffs) (fun i eloc =>
    (eloc + nth i mel zero * cexp (nth i logvaldiffs zero))%T) zero.

(** The sample matrices [vsamp_] of the worker processes, one per node;
    [totalnodes_] is their number. *)
Variable vsamps : list (list (list R)).

Definition totalnodes_ : nat := length vsamps.

(** Modelled from the spec: [SumOnNodes] is not among the sources; it is
    the all-reduce-sum across the workers, of a scalar and of a vector
    of [n] coefficients. *)
Definition SumOnNodes (xs : list C) : C := vsum xs.
Definition SumOnNodes_vector (n : nat) (xs : list (list C)) : list C :=
  map (fun k => vsum (map (fun x => nth k x zero) xs)) (seq 0 n).

(** The members that [Gradient] writes. *)
Record t := Build {
  elocs_ : list C;
  Ok_ : list (list C);
  Okmean_ : list C;
  elocmean_ : C;
  grad_ : list C
}.

(** The first loop of [Gradient] on one node: [elocs_] and the rows of
    [Ok_].  (The pushes to the observable manager only feed the log.) *)
Definition local_elocs (vsamp : list (list R)) : list C := map Eloc vsamp.
Definition local_Ok (vsamp : list (list R)) : list (list C) := map DerLog vsamp.

(** [elocs_.mean()] and [Ok_.colwise().mean()] on one node. *)
Definition local_elocmean (vsamp : list (list R)) : C :=
  Cdivr (vsum (local_elocs vsamp)) (INR (length vsamp)).
Definition local_Okmean (vsamp : list (list R)) : list C :=
  map (fun k => Cdivr (vsum (mcol (local_Ok vsamp) k)) (INR (length vsamp)))
    (seq 0 npar).

(** [Gradient()] as the node [mynode] runs it: the local means are summed
    over the nodes and divided by [totalnodes_], the samples are
    centred, and the local products [2.*(Ok_.adjoint()*elocs_)] are
    summed over the nodes and divided by [totalnodes_*nsamp]. *)
Definition Gradient (mynode : nat) : t :=
  let vsamp := nth mynode vsamps [] in
  let nsamp := length vsamp in
  let elocmean :=
    Cdivr (SumOnNodes (map local_elocmean vsamps)) (INR totalnodes_) in
  let Okmean :=
    map (fun z => Cdivr z (INR totalnodes_))
      (SumOnNodes_vector npar (map local_Okmean vsamps)) in
  let centred_Ok (vs : list (list R)) :=
    map (fun row => map (fun k => (nth k row zero - nth k Okmean zero)%T) (seq 0 npar))
      (local_Ok vs) in
  let centred_elocs (vs : list (list R)) :=
    map (fun e => (e - elocmean * one)%T) (local_elocs vs) in
  let local_grad (vs : list (list R)) :=
    map (fun k =>
           Cscale 2 (vsum (zip_with (fun row e => (Cconj (nth k row zero) * e)%T)
                             (centred_Ok vs) (centred_elocs vs))))
      (seq 0 npar) in
  {| elocs_ := centred_elocs vsamp;
     Ok_ := centred_Ok vsamp;
     Okmean_ := Okmean;
     elocmean_ := elocmean;
     grad_ := map (fun z => Cdivr z (INR (totalnodes_ * nsamp)))
                (SumOnNodes_vector npar (map local_grad vsamps)) |}.

(** *** The estimator of the specification *)

(** The means of the local energies and of the log-derivatives: the
    local means, summed over the workers and divided by their number. *)
Definition mean_E : C :=
  Cdivr (vsum (map (fun vs => Cdivr (vsum (map Eloc vs)) (INR (length vs))) vsamps))
    (INR (length vsamps)).
Definition mean_O (k : nat) : C :=
  Cdivr (vsum (map (fun vs =>
                      Cdivr (vsum (map (fun v => nth k (DerLog v) zero) vs))
                        (INR (length vs))) vsamps))
    (INR (length vsamps)).

(** [g = (2 / (W * M_w)) * sum_k conj(O_k - <O>) * (E_k - <E>)], summed
    over the workers; [M_w] is the number of sample rows of the worker
    that holds the gradient. *)
Definition gradient_spec (mynode k : nat) : C :=
  vsum (map (fun vs =>
               Cscale (2 / (INR (length vsamps) * INR (length (nth mynode vsamps []))))
                 (vsum (map (fun v =>
                               (Cconj (nth k (DerLog v) zero - mean_O k)
                                * (Eloc v - mean_E))%T) vs)))
          vsamps).

Lemma zip_with_map_map {X Y Z W : Type} (f : Y -> Z -> W) (g : X -> Y) (h : X -> Z)
    (l : list X) :
  zip_with f (map g l) (map h l) = map (fun x => f (g x) (h x)) l.
Proof. induction l as [|x l IH]; simpl; [done|]. by rewrite IH. Qed.

Lemma Cdivr_vsum_scale {X : Type} (F : X -> C) (l : list X) (d : R) :
  Cdivr (vsum (map (fun x => Cscale 2 (F x)) l)) d
  = vsum (map (fun x => Cscale (2 / d) (F x)) l).
Proof.
  induction l as [|x l IH]; simpl.
  - apply C_eq; simpl; unfold Rdiv; ring.
  - rewrite <- IH. apply C_eq; simpl; unfold Rdiv; ring.
Qed.

Lemma nth_Okmean (mynode k : nat) :
  k < npar -> nth k (Okmean_ (Gradient mynode)) zero = mean_O k.
Proof.
  intros Hk. cbn [Okmean_ Gradient]. unfold SumOnNodes_vector, mean_O, totalnodes_.
  rewrite map_map, nth_map_seq by done. f_equal. f_equal.
  rewrite map_map. apply map_ext. intros vs. unfold local_Okmean.
  rewrite nth_map_seq by done. f_equal. f_equal.
  unfold mcol, local_Ok. by rewrite map_map.
Qed.

Lemma elocmean_eq (mynode : nat) : elocmean_ (Gradient mynode) = mean_E.
Proof.
  reflexivity.
Qed.

(** C7.  The gradient that [Gradient] leaves in [grad_] is the estimator
    of the specification, coefficient by coefficient. *)
Theorem Gradient_estimator (mynode : nat) :
  grad_ (Gradient mynode) = map (gradient_spec mynode) (seq 0 npar).
Proof.
  pose proof (nth_Okmean mynode) as HO. pose proof (elocmean_eq mynode) as HE.
  cbn [Okmean_ elocmean_ grad_ Gradient] in *.
  set (Okmean := map (fun z : C => Cdivr z (INR totalnodes_)) _) in *.
  set (elocmean := Cdivr (SumOnNodes _) _) in *.
  unfold SumOnNodes_vector. rewrite map_map.
  apply map_ext_in. intros k Hk. apply in_seq in Hk.
  rewrite map_map. unfold gradient_spec, totalnodes_.
  rewrite <- mult_INR.
  etrans; [|apply Cdivr_vsum_scale]. f_equal. f_equal.
  apply map_ext. intros vs.
  rewrite nth_map_seq by lia. f_equal. f_equal.
  unfold local_Ok, local_elocs.
  rewrite !map_map. rewrite zip_with_map_map. apply map_ext. intros v.
  rewrite nth_map_seq by lia. rewrite HO by lia. rewrite HE.
  f_equal. apply C_eq; simpl; ring.
Qed.

End Learning.
End Sr.

(** ** Spin: the Hilbert space of spins *)
Module Spin.

(** How a call ends: it returns, it calls [std::abort()], or it leaves
    defined behaviour (a write outside a vector, a distribution over an
    empty range) or asks for more random numbers than the run holds. *)
Inductive outcome (A : Type) : Type :=
  | Returns (a : A)
  | Aborts
  | Undefined.
Arguments Returns {A} a.
Arguments Aborts {A}.
Arguments Undefined {A}.

(** The members of the class.  The doubles [S_] and [totalS_] are
    rational numbers; the values of a configuration are real numbers, as
    in the sampler. *)
Record t := Build {
  S_ : Q;
  totalS_ : Q;
  constraintSz_ : bool;
  local_ : list R;
  nstates_ : nat;
  nspins_ : nat
}.

(** [int(x)] for a double [x]: truncation towards zero. *)
Definition to_int (x : Q) : Z := Z.quot (Qnum x) (Z.pos (Qden x)).

(** [std::floor(x)] *)
Definition floor (x : Q) : Z := Qfloor x.

(** [local_.resize(n)]: the first [n] values, with zeros after those
    there are. *)
Definition resize (n : nat) (l : list R) : list R :=
  take n l ++ replicate (n - length l) 0%R.

(** [Init(nspins, S)] on the object [h].  It assigns [S_], [nspins_],
    [nstates_] and [local_]; [totalS_] and [constraintSz_] are not
    touched (the constructor settles them after the call). *)
Definition Init (h : t) (nspins : nat) (S : Q) : outcome t :=
  if Qle_bool S 0 then Aborts
  else if negb (Qeq_bool (inject_Z (floor (2 * S))) (2 * S)) then Aborts
  else
    let nstates := Z.to_nat (floor (2 * S) + 1) in
    let sp := (- floor (2 * S))%Z in
    let '(local, _) :=
      for_loop nstates (fun i '(local, sp) => (<[i := IZR sp]> local, (sp + 2)%Z))
        (resize nstates (local_ h), sp) in
    Returns {| S_ := S; totalS_ := totalS_ h; constraintSz_ := constraintSz_ h;
               local_ := local; nstates_ := nstates; nspins_ := nspins |}.

(** [SetConstraint(totalS)] *)
Definition SetConstraint (h : t) (totalS : Q) : t :=
  {| S_ := S_ h; totalS_ := totalS; constraintSz_ := true; local_ := local_ h;
     nstates_ := nstates_ h; nspins_ := nspins_ h |}.

Section Random.

(** The random engine: the integers its uniform distributions will
    return, in order.  [std::shuffle] is the library's; it returns a
    rearrangement of the vector and the engine after its draws. *)
Variable std_shuffle : list R -> list nat -> list R * list nat.
Hypothesis std_shuffle_Permutation :
  forall vect rgen, Permutation (fst (std_shuffle vect rgen)) vect.

(** One step of a loop that may abort or lose its result. *)
Definition step {A : Type} (f : A -> outcome A) (o : outcome A) : outcome A :=
  match o with
  | Returns a => f a
  | Aborts => Aborts
  | Undefined => Undefined
  end.

(** [RandomVals(state, rgen)] *)
Definition RandomVals (h : t) (state : list R) (rgen : list nat)
    : outcome (list R * list nat) :=
  if negb (length state =? nspins_ h) then Aborts
  else if negb (constraintSz_ h) then
    (* unconstrained random *)
    for_loop (length state) (fun i =>
      step (fun '(state, rgen) =>
        match rgen with
        | [] => Undefined
        | k :: rgen =>
            if decide (k < nstates_ h) then
              Returns (<[i := Q2R (2 * (inject_Z (Z.of_nat k) - S_ h))]> state, rgen)
            else Undefined
        end)) (Returns (state, rgen))
  else if Qeq_bool (S_ h) (1 # 2) then
    let nup := (Z.quot (Z.of_nat (nspins_ h)) 2 + to_int (totalS_ h))%Z in
    let ndown := (Z.of_nat (nspins_ h) - nup)%Z in
    if negb (nup - ndown =? to_int (2 * totalS_ h))%Z then Aborts
    else if ((nup <? 0) || (Z.of_nat (nspins_ h) <? nup))%Z then Undefined
    else
      let vect := replicate (nspins_ h) 0%R in
      let vect := for_loop (Z.to_nat nup) (fun i vect => <[i := 1%R]> vect) vect in
      let vect :=
        for_loop (nspins_ h - Z.to_nat nup) (fun j vect =>
          <[Z.to_nat nup + j := (-1)%R]> vect) vect in
      (* now random shuffle *)
      let '(vect, rgen) := std_shuffle vect rgen in
      let state :=
        for_loop (nspins_ h) (fun i state => <[i := nth i vect 0%R]> state) state in
      Returns (state, rgen)
  else
    let sites := seq 0 (nspins_ h) in
    let state := map (fun _ => Q2R (- 2 * S_ h)) state in
    let ss := nspins_ h in
    let bound := (S_ h * inject_Z (Z.of_nat (nspins_ h)) + totalS_ h)%Q in
    let o :=
      for_loop (Z.to_nat (Qceiling bound)) (fun _ =>
        step (fun '(state, sites, ss, rgen) =>
          if decide (ss = 0) then Undefined
          else
            match rgen with
            | [] => Undefined
            | s :: rgen =>
                if decide (s < ss) then
                  let site := nth s sites 0 in
                  let x := (nth site state 0 + 2)%R in
                  let state := <[site := x]> state in
                  if Rlt_dec (Q2R (2 * S_ h - 1)) x
                  then Returns (state, delete s sites, ss - 1, rgen)
                  else Returns (state, sites, ss, rgen)
                else Undefined
            end)) (Returns (state, sites, ss, rgen)) in
    match o with
    | Returns (state, _, _, rgen) => Returns (state, rgen)
    | Aborts => Aborts
    | Undefined => Undefined
    end.

Lemma map_const_seq (c : R) (n : nat) : map (fun _ => c) (seq 0 n) = replicate n c.
Proof.
  apply list_eq. intros i. rewrite list_lookup_fmap.
  destruct (decide (i < n)).
  - by rewrite lookup_seq_lt, lookup_replicate_2.
  - rewrite lookup_seq_ge by lia. symmetry. apply lookup_replicate_None. lia.
Qed.

(** An even number of spins 1/2 with an integer total Sz within range:
    [RandomVals] returns an arrangement of [N/2 + Sz] entries [+1] and
    [N/2 - Sz] entries [-1]. *)
Lemma RandomVals_half_even (h : t) (state : list R) (rgen : list nat) (m : nat) (z : Z) :
  S_ h = 1 # 2 -> constraintSz_ h = true -> nspins_ h = 2 * m ->
  totalS_ h = inject_Z z -> (- Z.of_nat m <= z <= Z.of_nat m)%Z ->
  length state = 2 * m ->
  exists st g,
    RandomVals h state rgen = Returns (st, g)
    /\ Permutation st
         (replicate (Z.to_nat (Z.of_nat m + z)) 1%R
          ++ replicate (Z.to_nat (Z.of_nat m - z)) (-1)%R).
Proof.
  intros HS Hc Hn Ht Hz Hlen. unfold RandomVals.
  rewrite Hlen, Hn, Nat.eqb_refl, Hc, HS, Ht. cbn [negb].
  change (Qeq_bool (1 # 2) (1 # 2)) with true. cbn iota.
  assert (E1 : to_int (inject_Z z) = z) by (unfold to_int; simpl; apply Z.quot_1_r).
  assert (E2 : to_int (2 * inject_Z z) = (2 * z)%Z).
  { unfold to_int. simpl. rewrite Z.quot_1_r. lia. }
  assert (E3 : (Z.of_nat (2 * m) ÷ 2 = Z.of_nat m)%Z).
  { rewrite Nat2Z.inj_mul. change (Z.of_nat 2) with 2%Z.
    rewrite Z.mul_comm. apply Z.quot_mul. lia. }
  rewrite E1, E2, E3.
  replace (Z.of_nat m + z - (Z.of_nat (2 * m) - (Z.of_nat m + z)) =? 2 * z)%Z
    with true by (symmetry; apply Z.eqb_eq; lia).
  replace ((Z.of_nat m + z <? 0)%Z || (Z.of_nat (2 * m) <? Z.of_nat m + z)%Z)
    with false.
  2:{ symmetry. apply orb_false_iff. split; apply Z.ltb_ge; lia. }
  cbn [negb]. cbn iota.
  set (nup := Z.to_nat (Z.of_nat m + z)).
  assert (Hnup : nup <= 2 * m) by lia.
  assert (Ev : for_loop (2 * m - nup) (fun j vect => <[nup + j := (-1)%R]> vect)
                 (for_loop nup (fun i vect => <[i := 1%R]> vect)
                    (replicate (2 * m) 0%R))
               = replicate nup 1%R ++ replicate (Z.to_nat (Z.of_nat m - z)) (-1)%R).
  { rewrite (for_loop_ext (fun (i : nat) (vect : list R) => <[i := 1%R]> vect)
               (fun p a => <[0 + p := 1%R]> a) nup) by done.
    rewrite (fill_segment (fun _ => 1%R)) by (rewrite length_replicate; simpl; lia).
    rewrite take_0, map_const_seq. cbn [app Nat.add].
    rewrite (fill_segment (fun _ => (-1)%R))
      by (rewrite length_app, length_drop, !length_replicate; lia).
    rewrite take_app_length' by (by rewrite length_replicate).
    rewrite drop_ge by (rewrite length_app, length_drop, !length_replicate; lia).
    rewrite map_const_seq, app_nil_r. do 2 f_equal. lia. }
  rewrite Ev.
  pose proof (std_shuffle_Permutation
                (replicate nup 1%R ++ replicate (Z.to_nat (Z.of_nat m - z)) (-1)%R)
                rgen) as Hp.
  destruct (std_shuffle _ rgen) as [vect g]. cbn [fst] in Hp.
  exists vect, g. split; [|done].
  do 2 f_equal.
  assert (Hlv : length vect = 2 * m).
  { rewrite (Permutation_length Hp), length_app, !length_replicate. lia. }
  rewrite (fill_all (fun i => nth i vect 0%R)) by done.
  rewrite <- Hlv. apply map_nth_all.
Qed.

End Random.
End Spin.

(** *** A machine over the reals *)

(** Modelled from the spec: [RbmSpin<T>::lncosh] is not among the
    sources; the specification gives it as
    [|x| + log((1 + exp(-2|x|))/2)]. *)
Definition lncosh_R (x : R) : R := (Rabs x + ln ((1 + exp (-2 * Rabs x)) / 2))%R.

(** The translation table of the periodic chain of two sites. *)
Definition chain2_table : list (list nat) := [[0; 1]; [1; 0]].

Lemma chain2_SymmetryTable :
  Hypercube.SymmetryTable (Hypercube.Init 2 1 true [[0]; [1]]) = Some chain2_table.
Proof. by vm_compute. Qed.

(** Two sites, two feature channels, both biases: seven parameters. *)
Definition rbm22 : RbmSpinSymm.t (T := R) :=
  RbmSpinSymm.SetParameters (RbmSpinSymm.Init 2 2 true true chain2_table)
    [10; 20; 30; 1; 2; 3; 4]%R.

(** Two sites, one channel, visible bias 1 and no coupling. *)
Definition rbm21 : RbmSpinSymm.t (T := R) :=
  RbmSpinSymm.SetParameters (RbmSpinSymm.Init 2 1 true true chain2_table)
    [1; 0; 0; 0]%R.

Lemma GetParameters_SetParameters_witness :
  RbmSpinSymm.GetParameters
    (RbmSpinSymm.SetParameters (RbmSpinSymm.Init 2 2 true true chain2_table)
       [10; 20; 30; 1; 2; 3; 4]%R)
  = [10; 20; 30; 1; 2; 3; 4]%R.
Proof.
  apply RbmSpinSymm.GetParameters_SetParameters.
  - unfold RbmSpinSymm.wf, mdims. cbn. repeat split; repeat constructor.
  - reflexivity.
Defined.

(** C2 as the specification states it fails: with [alpha = 2] and
    [G = 2], the hidden unit [alpha*g + f] for [g = 0], [f = 1] is unit 1,
    which carries [b_sym[0]] and the weights of channel 0. *)
Lemma SetParameters_expansion_counterexample :
  (nth (2 * 0 + 1) (RbmSpinSymm.b_ rbm22) 0%R = 20%R
   /\ nth 1 (RbmSpinSymm.bsymm_ rbm22) 0%R = 30%R /\ 20%R <> 30%R)
  /\ (mget (RbmSpinSymm.W_ rbm22) 0 (2 * 0 + 1) = 3%R
      /\ mget (RbmSpinSymm.Wsymm_ rbm22) (nth 0 (nth 0 chain2_table []) 0) 1 = 2%R
      /\ 3%R <> 2%R).
Proof.
  repeat split; try reflexivity; intros E; lra.
Qed.

Lemma SetParameters_expansion_witness :
  let m' := RbmSpinSymm.SetParameters (RbmSpinSymm.Init 2 2 true true chain2_table)
              [10; 20; 30; 1; 2; 3; 4]%R in
  let m := RbmSpinSymm.Init (T := R) 2 2 true true chain2_table in
  (RbmSpinSymm.asymm_ m' = RbmSpinSymm.reduced_a m [10; 20; 30; 1; 2; 3; 4]%R
   /\ RbmSpinSymm.bsymm_ m' = RbmSpinSymm.reduced_b m [10; 20; 30; 1; 2; 3; 4]%R
   /\ RbmSpinSymm.Wsymm_ m' = RbmSpinSymm.reduced_W m [10; 20; 30; 1; 2; 3; 4]%R)
  /\ nth 0 (RbmSpinSymm.a_ m') zero = RbmSpinSymm.asymm_ m'
  /\ nth (2 * 1 + 1) (RbmSpinSymm.b_ m') zero = nth 1 (RbmSpinSymm.bsymm_ m') zero
  /\ mget (RbmSpinSymm.W_ m') 0 (2 * 1 + 1)
     = mget (RbmSpinSymm.Wsymm_ m') (nth 0 (nth 1 chain2_table []) 0) 1.
Proof.
  apply (RbmSpinSymm.SetParameters_expansion
           (RbmSpinSymm.Init 2 2 true true chain2_table)
           [10; 20; 30; 1; 2; 3; 4]%R 0 1 1).
  - unfold RbmSpinSymm.wf, mdims. cbn. repeat split; repeat constructor.
  - intros [|[|i]] [|[|g]]; cbn; intros; try reflexivity; lia.
  - cbn. lia.
  - cbn. lia.
  - cbn. lia.
Defined.

(** The sites of a move have to be distinct: on a list that names the
    site 0 twice the look-up version adds the change of the site once
    per entry (4), while overwriting the site twice with the same value
    changes [LogVal] by 2. *)
Lemma LogValDiff_repeated_site :
  RbmSpinSymm.LogValDiffLt lncosh_R rbm21 [-1; -1]%R [0; 0] [1; 1]%R
    (RbmSpinSymm.InitLookup rbm21 [-1; -1]%R []) = 4%R
  /\ (RbmSpinSymm.LogVal lncosh_R rbm21 (UpdateConf [-1; -1] [0%nat; 0%nat] [1; 1])
      - RbmSpinSymm.LogVal lncosh_R rbm21 [-1; -1]%R)%R = 2%R
  /\ 4%R <> 2%R.
Proof.
  repeat split.
  - cbv -[lncosh_R Rplus Rmult Rminus Ropp IZR].
    repeat match goal with
           | |- context [lncosh_R ?x] => progress replace x with 0%R by lra
           end.
    lra.
  - cbv -[lncosh_R Rplus Rmult Rminus Ropp IZR].
    repeat match goal with
           | |- context [lncosh_R ?x] => progress replace x with 0%R by lra
           end.
    lra.
  - intros E. lra.
Qed.

Lemma LogValDiff_lookup_witness :
  RbmSpinSymm.LogValDiffLt lncosh_R rbm22 [1; -1]%R [1; 0] [1; -1]%R
    (RbmSpinSymm.InitLookup rbm22 [1; -1]%R [])
  = (RbmSpinSymm.LogVal lncosh_R rbm22 (UpdateConf [1; -1] [1%nat; 0%nat] [1; -1])
     - RbmSpinSymm.LogVal lncosh_R rbm22 [1; -1]%R)%R.
Proof.
  refine (RbmSpinSymm.LogValDiff_lookup_consistent lncosh_R rbm22
            [1; -1]%R [1; 0] [1; -1]%R [] _ _ _ _ _).
  - unfold RbmSpinSymm.wf, mdims. cbn. repeat split; repeat constructor.
  - reflexivity.
  - compute_done.
  - repeat constructor.
  - reflexivity.
Defined.

Lemma tanh_pos (x : R) : (0 < x -> 0 < Rtrigo_def.tanh x)%R.
Proof.
  intros Hx. unfold Rtrigo_def.tanh. apply Rdiv_lt_0_compat.
  - rewrite <- sinh_0. by apply sinh_lt.
  - unfold cosh. pose proof (exp_pos x). pose proof (exp_pos (- x)). lra.
Qed.

(** C1 at a failing input: two sites, [alpha = 2], both biases, the
    parameters of [rbm22] and [v = (1, -1)].  The hidden angles are
    18, 22 (channel 0) and 28, 32 (channel 1).  [DerLog] returns 0 for the
    derivative with respect to [b_sym[1]] and the sum of all four
    hyperbolic tangents for [b_sym[0]]; [J^T] times the bare derivatives
    gives [tanh 28 + tanh 32] and [tanh 18 + tanh 22].  In [DerMatSymm_]
    the bare bias of hidden unit 2 (column 4) is mapped to [b_sym[0]]
    (row 1) and not to [b_sym[1]] (row 2); the columns of the visible
    biases (0, 1) and of the weights (6 to 13) are those of [J^T]. *)
Theorem DerLog_hidden_bias_rows :
  (nth 2 (RbmSpinSymm.DerLog Rtrigo_def.tanh rbm22 [1; -1]%R) 0%R = 0%R
   /\ nth 2 (RbmSpinSymm.DerLog_spec Rtrigo_def.tanh rbm22 [1; -1]%R) 0%R
      = (Rtrigo_def.tanh 28 + Rtrigo_def.tanh 32)%R
   /\ (0 < Rtrigo_def.tanh 28 + Rtrigo_def.tanh 32)%R)
  /\ (nth 1 (RbmSpinSymm.DerLog Rtrigo_def.tanh rbm22 [1; -1]%R) 0%R
      = (Rtrigo_def.tanh 18 + Rtrigo_def.tanh 22
         + Rtrigo_def.tanh 28 + Rtrigo_def.tanh 32)%R
      /\ nth 1 (RbmSpinSymm.DerLog_spec Rtrigo_def.tanh rbm22 [1; -1]%R) 0%R
         = (Rtrigo_def.tanh 18 + Rtrigo_def.tanh 22)%R)
  /\ (mget (RbmSpinSymm.DerMatSymm_ rbm22) 2 4 = 0%R
      /\ RbmSpinSymm.J rbm22 4 2 = 1%R
      /\ mget (RbmSpinSymm.DerMatSymm_ rbm22) 1 4 = 1%R
      /\ RbmSpinSymm.J rbm22 4 1 = 0%R)
  /\ Forall (fun c =>
               map (fun r => mget (RbmSpinSymm.DerMatSymm_ rbm22) r c) (seq 0 7)
               = map (fun r => RbmSpinSymm.J rbm22 c r) (seq 0 7))
       [0; 1; 6; 7; 8; 9; 10; 11; 12; 13].
Proof.
  split; [|split; [|split; [|by repeat constructor]]].
  all: repeat split; try reflexivity;
    try (cbv -[Rtrigo_def.tanh Rplus Rmult Rminus Ropp IZR];
         repeat match goal with
                | |- context [Rtrigo_def.tanh ?x] =>
                    first [ progress replace x with 18%R by lra
                          | progress replace x with 22%R by lra
                          | progress replace x with 28%R by lra
                          | progress replace x with 32%R by lra ]
                end;
         lra).
  pose proof (tanh_pos 28 ltac:(lra)). pose proof (tanh_pos 32 ltac:(lra)). lra.
Qed.

(** ** The symmetric RBM on a periodic hypercube *)
Module Symmetry.
Import RbmSpinSymm.
Section Invariance.
Context {T : Type} `{Scalar T}.
Add Ring T_ring_symmetry : scalar_ring.

Variable lncosh : T -> T.
Variables (L ndim : nat) (variations : list (list nat)).
Hypothesis Hlat : Hypercube.lattice L ndim variations.

(** The configuration [v] permuted by a row of the symmetry table: site
    [i] takes the value of site [row[i]]. *)
Definition permute (row : list nat) (v : list T) : list T :=
  map (fun p => nth p v zero) row.

Let n : nat := length variations.
Let tau : nat -> nat -> nat := Hypercube.tau L ndim variations.
Let P : list (list nat) := map (fun i => map (tau i) (seq 0 n)) (seq 0 n).

Lemma nth_table (i p : nat) : i < n -> p < n -> nth p (nth i P []) 0 = tau i p.
Proof.
  intros Hi Hp. unfold P.
  rewrite (nth_lookup_Some _ i [] (map (tau i) (seq 0 n))).
  2:{ by rewrite list_lookup_fmap, lookup_seq_lt. }
  apply nth_lookup_Some. by rewrite list_lookup_fmap, lookup_seq_lt.
Qed.

Lemma tau_lt (i p : nat) : i < n -> tau i p < n.
Proof. intros Hi. by apply (Hypercube.tau_spec L ndim variations Hlat i p). Qed.

Lemma tau_Permutation (g : nat) :
  g < n -> Permutation (map (tau g) (seq 0 n)) (seq 0 n).
Proof.
  intros Hg. apply Permutation_map_seq.
  - intros i _. by apply tau_lt.
  - intros i j Hi Hj. by apply (Hypercube.tau_inj L ndim variations Hlat).
Qed.

(** The translation table is symmetric. *)
Lemma table_symmetric (alpha : nat) (usea useb : bool) :
  symmetric_table (Init (T := T) n alpha usea useb P).
Proof.
  intros i g Hi Hg.
  assert (Hi' : i < n) by (revert Hi; unfold Init; by destruct usea, useb).
  assert (Hg' : g < n).
  { revert Hg. unfold Init. destruct usea, useb; cbn; unfold P;
      by rewrite length_map, length_seq. }
  replace (permtable_ (Init n alpha usea useb P)) with P
    by (unfold Init; by destruct usea, useb).
  rewrite !nth_table by done. apply Hypercube.tau_comm.
Qed.

(** The hidden unit [n*f + h] goes to [n*f + tau g h]. *)
Definition sigma (g j : nat) : nat := n * (j / n) + tau g (j mod n).

Lemma sigma_div_mod (g j : nat) :
  g < n -> sigma g j / n = j / n /\ sigma g j mod n = tau g (j mod n).
Proof.
  intros Hg. unfold sigma. pose proof (tau_lt g (j mod n) Hg) as Ht.
  split.
  - rewrite (Nat.mul_comm n), Nat.div_add_l by lia.
    rewrite (Nat.div_small (tau g (j mod n))) by exact Ht. lia.
  - replace (n * (j / n) + tau g (j mod n)) with (tau g (j mod n) + j / n * n) by lia.
    rewrite Nat.Div0.mod_add. apply Nat.mod_small. exact Ht.
Qed.

Lemma sigma_Permutation (g alpha : nat) :
  g < n -> Permutation (map (sigma g) (seq 0 (alpha * n))) (seq 0 (alpha * n)).
Proof.
  intros Hg. apply Permutation_map_seq.
  - intros j Hj. unfold sigma. pose proof (tau_lt g (j mod n) Hg).
    assert (j / n < alpha) by (apply Nat.Div0.div_lt_upper_bound; lia). nia.
  - intros j j' Hj Hj' E.
    destruct (sigma_div_mod g j Hg) as [Ed Em].
    destruct (sigma_div_mod g j' Hg) as [Ed' Em'].
    rewrite E in Ed, Em. rewrite Ed' in Ed. rewrite Em' in Em.
    apply (Hypercube.tau_inj L ndim variations Hlat) in Em;
      [|done|apply Nat.mod_upper_bound; lia..].
    rewrite (Nat.div_mod_eq j n), (Nat.div_mod_eq j' n). by rewrite Ed, Em.
Qed.

(** C3.  On a hypercube with periodic boundary conditions
    [SymmetryTable] returns a table [P], and for the symmetric RBM built
    on it, with any reduced parameters, [LogVal] takes the same value on
    a configuration and on its image under any row of [P]. *)
Theorem LogVal_translation_invariant :
  exists table,
    Hypercube.SymmetryTable (Hypercube.Init L ndim true variations) = Some table
    /\ forall (alpha : nat) (usea useb : bool) (pars v : list T) (g : nat),
         length v = Hypercube.Nsites (Hypercube.Init L ndim true variations) ->
         g < length table ->
         let m := SetParameters
                    (Init (Hypercube.Nsites (Hypercube.Init L ndim true variations))
                       alpha usea useb table) pars in
         LogVal lncosh m (permute (nth g table []) v) = LogVal lncosh m v.
Proof.
  exists P. split; [apply (Hypercube.SymmetryTable_spec L ndim variations Hlat)|].
  destruct (Hypercube.Init_fields L ndim variations Hlat) as (_ & En & _).
  unfold Hypercube.Nsites. rewrite En. fold n.
  assert (HlenP : length P = n) by (unfold P; by rewrite length_map, length_seq).
  rewrite HlenP.
  intros alpha usea useb pars v g Hv Hg.
  set (m0 := Init n alpha usea useb P).
  set (m := SetParameters m0 pars).
  assert (Hwf0 : wf m0) by apply Init_wf.
  assert (Hwf : wf m) by (by apply SetParameters_wf).
  assert (Enh : nh_ m0 = alpha * n) by (unfold m0, Init; destruct usea, useb; cbn; lia).
  assert (Env : nv_ m0 = n) by (unfold m0, Init; by destruct usea, useb).
  assert (Eps : permsize_ m0 = n) by (unfold m0, Init; by destruct usea, useb).
  assert (Ept : permtable_ m0 = P) by (unfold m0, Init; by destruct usea, useb).
  destruct (SetParameters_sizes m0 pars Hwf0) as (_ & _ & Env' & _ & Enh' & _).
  fold m in Env', Enh'. rewrite Env in Env'. rewrite Enh in Enh'.
  pose proof (SetParameters_a m0 pars Hwf0) as Ea.
  pose proof (SetParameters_b m0 pars Hwf0) as Eb.
  pose proof (SetParameters_W m0 pars Hwf0) as EW.
  fold m in Ea, Eb, EW.
  rewrite Env in Ea. rewrite Enh, Eps in Eb. rewrite Env, Enh, Eps, Ept in EW.
  set (ra := reduced_a m0 pars) in *.
  set (rb := reduced_b m0 pars) in *.
  set (rW := reduced_W m0 pars) in *.
  assert (Hperm_v : permute (nth g P []) v = map (fun i => nth (tau g i) v zero) (seq 0 n)).
  { unfold permute, P.
    rewrite (nth_lookup_Some _ g [] (map (tau g) (seq 0 n)))
      by (by rewrite list_lookup_fmap, lookup_seq_lt).
    by rewrite map_map. }
  assert (Hlen_pv : length (permute (nth g P []) v) = n)
    by (by rewrite Hperm_v, length_map, length_seq).
  assert (Hnth_pv : forall i, i < n ->
            nth i (permute (nth g P []) v) zero = nth (tau g i) v zero).
  { intros i Hi. rewrite Hperm_v. apply nth_lookup_Some.
    by rewrite list_lookup_fmap, lookup_seq_lt. }
  assert (Hlen_a : length (a_ m) = n) by (by rewrite Ea, length_map, length_seq).
  assert (Hnth_a : forall i, i < n -> nth i (a_ m) zero = ra).
  { intros i Hi. rewrite Ea. apply nth_lookup_Some.
    by rewrite list_lookup_fmap, lookup_seq_lt. }
  assert (HW : forall i j, i < n -> j < alpha * n ->
            mget (W_ m) i j = mget rW (tau i (j mod n)) (j / n)).
  { intros i j Hi Hj. rewrite EW.
    rewrite (mget_map (fun i j =>
      mget rW (nth (j mod n) (nth i P []) 0) (j / n))) by done.
    rewrite nth_table; [done|done|]. apply Nat.mod_upper_bound. lia. }
  assert (Hb : forall j, j < alpha * n -> nth j (b_ m) zero = nth (j / n) rb zero).
  { intros j Hj. rewrite Eb. apply nth_lookup_Some.
    by rewrite list_lookup_fmap, lookup_seq_lt. }
  assert (HlenW : length (W_ m) = n) by (rewrite EW; by rewrite length_map, length_seq).
  assert (Hlenb : length (b_ m) = nh_ m) by apply Hwf.
  unfold LogVal. f_equal.
  - (* the visible term *)
    rewrite (dot_map_seq _ _ n), (dot_map_seq v _ n) by done.
    rewrite <- (vsum_reindex (fun i => (nth i v zero * nth i (a_ m) zero)%T) (tau g) n)
      by (by apply tau_Permutation).
    f_equal. apply map_ext_in. intros i Hi. apply in_seq in Hi.
    rewrite Hnth_pv, !Hnth_a by (try apply tau_lt; lia). done.
  - (* the hidden units *)
    rewrite !thetas_eq by done. rewrite Enh'.
    rewrite !map_map.
    rewrite <- (vsum_reindex
      (fun j => lncosh (dot (mcol (W_ m) j) (permute (nth g P []) v)
                        + nth j (b_ m) zero)%T) (sigma g) (alpha * n))
      by (by apply sigma_Permutation).
    f_equal. apply map_ext_in. intros j Hj. apply in_seq in Hj. f_equal.
    destruct (sigma_div_mod g j Hg) as [Ed Em].
    assert (Hs : sigma g j < alpha * n).
    { unfold sigma. pose proof (tau_lt g (j mod n) Hg).
      assert (j / n < alpha) by (apply Nat.Div0.div_lt_upper_bound; lia). nia. }
    rewrite !Hb by lia. rewrite Ed. f_equal.
    rewrite (dot_map_seq _ _ n), (dot_map_seq _ v n) by (by rewrite ?length_mcol).
    rewrite <- (vsum_reindex
      (fun i => (nth i (mcol (W_ m) j) zero * nth i v zero)%T) (tau g) n)
      by (by apply tau_Permutation).
    f_equal. apply map_ext_in. intros i Hi. apply in_seq in Hi.
    rewrite Hnth_pv by lia. rewrite !nth_mcol.
    rewrite !HW by (try apply tau_lt; lia). rewrite Ed, Em.
    assert (Hh : j mod n < n) by (apply Nat.mod_upper_bound; lia).
    unfold tau.
    rewrite (Hypercube.tau_assoc L ndim variations Hlat g i (j mod n)) by (fold n; lia).
    done.
Qed.

End Invariance.
End Symmetry.

(** The periodic chain of two sites: [{0,1}^1], enumerated in order. *)
Lemma chain2_lattice : Hypercube.lattice 2 1 [[0]; [1]].
Proof.
  split; [compute_done|]. intros c. split.
  - intros Hc. apply list_elem_of_In in Hc.
    destruct Hc as [<-|[<-|[]]]; split; repeat constructor.
  - intros [Hlen Hall]. destruct c as [|x [|y c]]; try discriminate.
    apply (proj1 (Forall_singleton _ _)) in Hall.
    destruct x as [|[|x]]; [set_solver|set_solver|lia].
Defined.

Lemma LogVal_translation_invariant_witness :
  exists table,
    Hypercube.SymmetryTable (Hypercube.Init 2 1 true [[0]; [1]]) = Some table
    /\ forall (alpha : nat) (usea useb : bool) (pars v : list R) (g : nat),
         length v = Hypercube.Nsites (Hypercube.Init 2 1 true [[0]; [1]]) ->
         g < length table ->
         let m := RbmSpinSymm.SetParameters
                    (RbmSpinSymm.Init
                       (Hypercube.Nsites (Hypercube.Init 2 1 true [[0]; [1]]))
                       alpha usea useb table) pars in
         RbmSpinSymm.LogVal lncosh_R m (Symmetry.permute (nth g table []) v)
         = RbmSpinSymm.LogVal lncosh_R m v.
Proof.
  apply (Symmetry.LogVal_translation_invariant lncosh_R 2 1 [[0]; [1]]).
  exact chain2_lattice.
Defined.

(** ** Runs of the sampler *)

(** The symmetric RBM on the chain of two sites with every parameter 0:
    a constant wave function. *)
Definition rbm_zero : RbmSpinSymm.t (T := R) :=
  RbmSpinSymm.SetParameters (RbmSpinSymm.Init 2 1 true true chain2_table)
    [0; 0; 0; 0]%R.

(** [std::norm(std::exp(x))] for a real [x]. *)
Definition norm_exp_R (x : R) : MetropolisLocal.double :=
  MetropolisLocal.Fin (exp x * exp x).

(** Two spins 1/2, both up (total Sz = 1), before a sweep that draws the
    sites 0 and 1, the local state -1 for each, and the uniform numbers
    1/2 and 1/2. *)
Definition sampler_up : MetropolisLocal.t (RbmSpinSymm.LookupType (T := R)) :=
  {| MetropolisLocal.nv_ := 2; MetropolisLocal.nstates_ := 2;
     MetropolisLocal.localstates_ := [-1; 1]%R;
     MetropolisLocal.v_ := [1; 1]%R;
     MetropolisLocal.accept_ := 0%R; MetropolisLocal.moves_ := 0%R;
     MetropolisLocal.lt_ := RbmSpinSymm.InitLookup rbm_zero [1; 1]%R [];
     MetropolisLocal.rgen_ :=
       {| MetropolisLocal.site_draws := [0; 1];
          MetropolisLocal.state_draws := [0; 0];
          MetropolisLocal.unif_draws := [/ 2; / 2]%R |} |}.

Lemma rbm_zero_ratio (v : list R) (si : nat) (l : R) (lt : list (list R)) :
  length v = 2 -> length (nth 0 lt []) = 2 -> si < 2 ->
  exists r, norm_exp_R (RbmSpinSymm.LogValDiffLt lncosh_R rbm_zero v [si] [l] lt)
            = MetropolisLocal.Fin r /\ (/ 2 < r)%R.
Proof.
  intros Hv Hlt Hsi. eexists. split; [reflexivity|].
  assert (E : RbmSpinSymm.LogValDiffLt lncosh_R rbm_zero v [si] [l] lt = 0%R).
  { destruct v as [|x [|y [|? ?]]]; try discriminate.
    destruct (nth 0 lt []) as [|t0 [|t1 [|? ?]]] eqn:El; try discriminate.
    unfold RbmSpinSymm.LogValDiffLt. rewrite El.
    destruct si as [|[|si]]; [| |lia];
      cbv -[lncosh_R Rplus Rmult Rminus Ropp IZR];
      repeat match goal with
             | |- context [lncosh_R (?a + ?b)%R] =>
                 progress replace (a + b)%R with a by lra
             end;
      lra. }
  rewrite E, exp_0. lra.
Qed.

(** The sampler after the first proposal (site 0 set to -1) and after the
    second (site 1 set to -1). *)
Definition sampler_mid : MetropolisLocal.t (RbmSpinSymm.LookupType (T := R)) :=
  {| MetropolisLocal.nv_ := 2; MetropolisLocal.nstates_ := 2;
     MetropolisLocal.localstates_ := [-1; 1]%R;
     MetropolisLocal.v_ := UpdateConf [1; 1]%R [0] [(-1)%R];
     MetropolisLocal.accept_ := (0 + 1)%R; MetropolisLocal.moves_ := (0 + 1)%R;
     MetropolisLocal.lt_ :=
       RbmSpinSymm.UpdateLookup rbm_zero [1; 1]%R [0] [(-1)%R]
         (RbmSpinSymm.InitLookup rbm_zero [1; 1]%R []);
     MetropolisLocal.rgen_ :=
       {| MetropolisLocal.site_draws := [1];
          MetropolisLocal.state_draws := [0];
          MetropolisLocal.unif_draws := [/ 2]%R |} |}.

Definition sampler_down : MetropolisLocal.t (RbmSpinSymm.LookupType (T := R)) :=
  {| MetropolisLocal.nv_ := 2; MetropolisLocal.nstates_ := 2;
     MetropolisLocal.localstates_ := [-1; 1]%R;
     MetropolisLocal.v_ := UpdateConf (MetropolisLocal.v_ _ sampler_mid) [1] [(-1)%R];
     MetropolisLocal.accept_ := (0 + 1 + 1)%R; MetropolisLocal.moves_ := (0 + 1 + 1)%R;
     MetropolisLocal.lt_ :=
       RbmSpinSymm.UpdateLookup rbm_zero (MetropolisLocal.v_ _ sampler_mid) [1] [(-1)%R]
         (MetropolisLocal.lt_ _ sampler_mid);
     MetropolisLocal.rgen_ :=
       {| MetropolisLocal.site_draws := [];
          MetropolisLocal.state_draws := [];
          MetropolisLocal.unif_draws := [] |} |}.

Lemma near_down_up : MetropolisLocal.near (-1) 1 = false.
Proof. apply MetropolisLocal.near_far. unfold Rabs. destruct (Rcase_abs _); lra. Qed.

Lemma sampler_up_Proposal :
  MetropolisLocal.Proposal _ _ (RbmSpinSymm.LogValDiffLt lncosh_R rbm_zero)
    (RbmSpinSymm.UpdateLookup rbm_zero) norm_exp_R sampler_up = Some sampler_mid.
Proof.
  destruct (rbm_zero_ratio [1; 1]%R 0 (-1)%R
              (RbmSpinSymm.InitLookup rbm_zero [1; 1]%R []))
    as (r0 & Er0 & Hr0); [done|done|lia|].
  rewrite (MetropolisLocal.Proposal_accepted _ _ _ _ _ sampler_up 0 (-1)%R
             {| MetropolisLocal.site_draws := [1];
                MetropolisLocal.state_draws := [0];
                MetropolisLocal.unif_draws := [/ 2; / 2]%R |} (/ 2)%R r0 [(/ 2)%R]);
    [ done
    | apply (MetropolisLocal.draw_move_direct _ sampler_up 0 0 [1] [0] (-1)%R);
        [done|cbn; lia|done|done|exact near_down_up]
    | done | exact Er0 | exact Hr0 ].
Qed.

Lemma sampler_mid_Proposal :
  MetropolisLocal.Proposal _ _ (RbmSpinSymm.LogValDiffLt lncosh_R rbm_zero)
    (RbmSpinSymm.UpdateLookup rbm_zero) norm_exp_R sampler_mid = Some sampler_down.
Proof.
  destruct (rbm_zero_ratio (MetropolisLocal.v_ _ sampler_mid) 1 (-1)%R
              (MetropolisLocal.lt_ _ sampler_mid))
    as (r1 & Er1 & Hr1); [done|done|lia|].
  rewrite (MetropolisLocal.Proposal_accepted _ _ _ _ _ sampler_mid 1 (-1)%R
             {| MetropolisLocal.site_draws := [];
                MetropolisLocal.state_draws := [];
                MetropolisLocal.unif_draws := [/ 2]%R |} (/ 2)%R r1 []);
    [ done
    | apply (MetropolisLocal.draw_move_direct _ sampler_mid 1 0 [] [] (-1)%R);
        [done|cbn; lia|done|done|exact near_down_up]
    | done | exact Er1 | exact Hr1 ].
Qed.

Lemma sampler_up_Sweep :
  MetropolisLocal.Sweep _ _ (RbmSpinSymm.LogValDiffLt lncosh_R rbm_zero)
    (RbmSpinSymm.UpdateLookup rbm_zero) norm_exp_R sampler_up = Some sampler_down.
Proof.
  unfold MetropolisLocal.Sweep. cbn [MetropolisLocal.nv_ sampler_up for_loop].
  rewrite sampler_up_Proposal. apply sampler_mid_Proposal.
Qed.




(** [std::norm(std::exp(x))] for a double that may be NaN. *)
Definition norm_exp_double (d : MetropolisLocal.double) : MetropolisLocal.double :=
  match d with
  | MetropolisLocal.NaN => MetropolisLocal.NaN
  | MetropolisLocal.Fin x => MetropolisLocal.Fin (exp x * exp x)
  end.

Lemma norm_exp_double_nan (lvd : MetropolisLocal.double) :
  lvd = MetropolisLocal.NaN -> norm_exp_double lvd = MetropolisLocal.NaN.
Proof. by intros ->. Qed.

(** Two spins before a proposal on site 0, with a machine that answers
    NaN. *)
Definition sampler_nan : MetropolisLocal.t unit :=
  {| MetropolisLocal.nv_ := 2; MetropolisLocal.nstates_ := 2;
     MetropolisLocal.localstates_ := [-1; 1]%R;
     MetropolisLocal.v_ := [1; -1]%R;
     MetropolisLocal.accept_ := 0%R; MetropolisLocal.moves_ := 0%R;
     MetropolisLocal.lt_ := tt;
     MetropolisLocal.rgen_ :=
       {| MetropolisLocal.site_draws := [0];
          MetropolisLocal.state_draws := [0];
          MetropolisLocal.unif_draws := [/ 2]%R |} |}.

Lemma nan_ratio_rejected_witness :
  exists s',
    MetropolisLocal.Proposal unit MetropolisLocal.double
      (fun _ _ _ _ => MetropolisLocal.NaN) (fun _ _ _ lt => lt) norm_exp_double
      sampler_nan = Some s'
    /\ MetropolisLocal.v_ _ s' = MetropolisLocal.v_ _ sampler_nan
    /\ MetropolisLocal.lt_ _ s' = MetropolisLocal.lt_ _ sampler_nan
    /\ MetropolisLocal.accept_ _ s' = MetropolisLocal.accept_ _ sampler_nan
    /\ MetropolisLocal.moves_ _ s' = (MetropolisLocal.moves_ _ sampler_nan + 1)%R.
Proof.
  apply (MetropolisLocal.nan_ratio_rejected unit MetropolisLocal.double
           (fun _ _ _ _ => MetropolisLocal.NaN) (fun _ _ _ lt => lt) norm_exp_double
           (fun d => d = MetropolisLocal.NaN)
           norm_exp_double_nan
           sampler_nan 0 (-1)%R
           {| MetropolisLocal.site_draws := [];
              MetropolisLocal.state_draws := [];
              MetropolisLocal.unif_draws := [/ 2]%R |} (/ 2)%R []).
  - apply (MetropolisLocal.draw_move_direct unit sampler_nan 0 0 [] [] (-1)%R);
      [reflexivity|cbn; lia|reflexivity|reflexivity|].
    apply MetropolisLocal.near_far. cbn. unfold Rabs. destruct (Rcase_abs _); lra.
  - reflexivity.
  - reflexivity.
Defined.

(** ** Random configurations of spins 1/2 under a total-Sz constraint *)

(** [nspins] spins 1/2 with the constraint [totalS], as [Init] and
    [SetConstraint] build them. *)
Definition spin_half (nspins : nat) (totalS : Q) : Spin.t :=
  {| Spin.S_ := 1 # 2; Spin.totalS_ := totalS; Spin.constraintSz_ := true;
     Spin.local_ := [-1; 1]%R; Spin.nstates_ := 2; Spin.nspins_ := nspins |}.

Lemma spin_half_Init (h : Spin.t) (nspins : nat) (totalS : Q) :
  exists h1,
    Spin.Init h nspins (1 # 2) = Spin.Returns h1
    /\ Spin.SetConstraint h1 totalS = spin_half nspins totalS.
Proof.
  eexists. split; [reflexivity|].
  unfold Spin.SetConstraint, spin_half. cbn. f_equal.
  destruct (Spin.local_ h) as [|x [|y l]]; reflexivity.
Qed.

(** C8 at failing inputs.  Three spins with [totalS = 1/2]: two up and
    one down would do ([3/2 + 1/2 = 2], [3/2 - 1/2 = 1]), yet
    [RandomVals] aborts, while with [totalS = -1/2] it returns.  Four
    spins with [totalS = 3/10]: no arrangement has that magnetization
    ([4/2 + 3/10] is not an integer), yet [RandomVals] returns the shuffle
    of two up and two down. *)
Theorem RandomVals_half_integer (std_shuffle : list R -> list nat -> list R * list nat)
    (rgen : list nat) :
  (Spin.RandomVals std_shuffle (spin_half 3 (1 # 2)) [0; 0; 0]%R rgen = Spin.Aborts
   /\ (3 # 2) + (1 # 2) == 2 /\ (3 # 2) - (1 # 2) == 1)
  /\ Spin.RandomVals std_shuffle (spin_half 3 (- (1 # 2))) [0; 0; 0]%R rgen
     = (let '(vect, rgen) := std_shuffle [1; -1; -1]%R rgen in
        Spin.Returns ([nth 0 vect 0; nth 1 vect 0; nth 2 vect 0]%R, rgen))
  /\ Spin.RandomVals std_shuffle (spin_half 4 (3 # 10)) [0; 0; 0; 0]%R rgen
     = (let '(vect, rgen) := std_shuffle [1; 1; -1; -1]%R rgen in
        Spin.Returns ([nth 0 vect 0; nth 1 vect 0; nth 2 vect 0; nth 3 vect 0]%R, rgen)).
Proof.
  repeat split.
Qed.

(** * Further properties of the embedded code *)

(** ** Hypercube: sites, coordinates and the adjacency list *)

Lemma for_loop_S {X : Type} (n : nat) (body : nat -> X -> X) (x : X) :
  for_loop (S n) body x = body n (for_loop n body x).
Proof. reflexivity. Qed.

(** A coefficient of a matrix read row by row. *)
Lemma nth_concat_rows {A : Type} (d : A) (M : list (list A)) (r c i j : nat) :
  length M = r -> Forall (fun row => length row = c) M -> i < r -> j < c ->
  nth (i * c + j) (concat M) d = nth j (nth i M []) d.
Proof.
  revert r i. induction M as [|row M IH]; intros r i Hr Hc Hi Hj.
  - simpl in Hr. lia.
  - apply Forall_cons in Hc as [Hrow Hc]. simpl in Hr. cbn [concat].
    destruct i as [|i].
    + cbn [nth]. rewrite app_nth1 by lia. done.
    + rewrite app_nth2 by lia. rewrite Hrow.
      replace (S i * c + j - c) with (i * c + j) by lia.
      cbn [nth]. apply (IH (length M)); [done|done|lia|done].
Qed.

Module HypercubeGraph.
Import Hypercube.

(** [SiteCoord(i)] is [sites_[i]]; an index past the end of [sites_] is
    undefined behaviour in the source and has no result here. *)
Definition SiteCoord (h : t) (i : nat) : option (list nat) := sites_ h !! i.

(** [Coord2Site(coord)] is [coord2sites_.at(coord)], which throws on a
    key that is not in the map. *)
Definition Coord2Site (h : t) (coord : list nat) : option nat := coord2sites_ h !! coord.

(** [Sites()] *)
Definition Sites (h : t) : list (list nat) := sites_ h.

(** [adjlist_[i].push_back(x)] *)
Definition push_back (i x : nat) (adjlist : list (list nat)) : list (list nat) :=
  alter (fun l => l ++ [x]) i adjlist.

(** [GenerateAdjacencyList()].  The vector [neigh] is threaded through the
    loop over the dimensions as in the source: it is stepped along [d],
    looked up, and set back.  [None] when [coord2sites_.at] throws. *)
Definition GenerateAdjacencyList (h : t) : option (list (list nat)) :=
  let adjlist := replicate (nsites_ h) [] in
  for_loop (nsites_ h) (fun i oadj =>
    match oadj with
    | None => None
    | Some adjlist =>
        let neigh := nth i (sites_ h) [] in
        fst (for_loop (ndim_ h) (fun d '(oadj, neigh) =>
          match oadj with
          | None => (None, neigh)
          | Some adjlist =>
              if pbc_ h then
                let neigh := <[d := (nth d (nth i (sites_ h) []) 0 + 1) mod L_ h]> neigh in
                match coord2sites_ h !! neigh with
                | Some neigh_site =>
                    (Some (push_back neigh_site i (push_back i neigh_site adjlist)),
                     <[d := nth d (nth i (sites_ h) []) 0]> neigh)
                | None => (None, neigh)
                end
              else if decide (nth d (nth i (sites_ h) []) 0 + 1 < L_ h) then
                let neigh := <[d := nth d (nth i (sites_ h) []) 0 + 1]> neigh in
                match coord2sites_ h !! neigh with
                | Some neigh_site =>
                    (Some (push_back neigh_site i (push_back i neigh_site adjlist)),
                     <[d := nth d (nth i (sites_ h) []) 0]> neigh)
                | None => (None, neigh)
                end
              else (Some adjlist, <[d := nth d (nth i (sites_ h) []) 0]> neigh)
          end) (Some adjlist, neigh))
    end) (Some adjlist).

(** The point one step up from [c] along the axis [d], wrapping around. *)
Definition up (L : nat) (c : list nat) (d : nat) : list nat :=
  <[d := (nth d c 0 + 1) mod L]> c.

(** Whether the source links [c] to the point one step up along [d]:
    always with periodic boundary conditions, and inside the box
    without. *)
Definition linked (pbc : bool) (L : nat) (c : list nat) (d : nat) : bool :=
  pbc || bool_decide (nth d c 0 + 1 < L).

(** The edges in the order in which the loops visit them, and the
    adjacency list that pushing them leaves. *)
Definition add_edge (adjlist : list (list nat)) (e : nat * nat) : list (list nat) :=
  push_back e.2 e.1 (push_back e.1 e.2 adjlist).

Lemma length_push_back (i x : nat) (adj : list (list nat)) :
  length (push_back i x adj) = length adj.
Proof. apply length_alter. Qed.

Lemma nth_push_back (i x k : nat) (adj : list (list nat)) :
  i < length adj ->
  nth k (push_back i x adj) [] = if decide (k = i) then nth k adj [] ++ [x] else nth k adj [].
Proof.
  intros Hi. unfold push_back. destruct (decide (k = i)) as [->|Hne].
  - destruct (lookup_lt_is_Some_2 adj i Hi) as [l Hl].
    rewrite (nth_lookup_Some _ _ _ _ Hl).
    apply nth_lookup_Some. by rewrite list_lookup_alter_eq, Hl.
  - rewrite !nth_lookup. by rewrite list_lookup_alter_ne.
Qed.

Lemma length_add_edges (E : list (nat * nat)) (adj : list (list nat)) :
  length (foldl add_edge adj E) = length adj.
Proof.
  revert adj. induction E as [|e E IH]; intros adj; [done|]. simpl.
  rewrite IH. unfold add_edge. by rewrite !length_push_back.
Qed.

(** Who is listed at [k] once the edges [E] are pushed. *)
Lemma elem_of_add_edges (E : list (nat * nat)) (adj : list (list nat)) (k x : nat) :
  Forall (fun e => e.1 < length adj /\ e.2 < length adj) E ->
  x ∈ nth k (foldl add_edge adj E) []
  <-> x ∈ nth k adj [] \/ (k, x) ∈ E \/ (x, k) ∈ E.
Proof.
  revert adj. induction E as [|[a b] E IH]; intros adj HE.
  - simpl. split; [by left|]. intros [?|[H|H]]; [done|by apply elem_of_nil in H..].
  - apply Forall_cons in HE as [[Ha Hb] HE]. simpl in Ha, Hb. simpl.
    rewrite IH by (unfold add_edge; by rewrite !length_push_back).
    unfold add_edge. cbn [fst snd].
    rewrite nth_push_back by (by rewrite length_push_back).
    rewrite nth_push_back by done.
    rewrite !elem_of_cons.
    destruct (decide (k = b)) as [Ekb|Hkb], (decide (k = a)) as [Eka|Hka];
      try subst; rewrite ?elem_of_app, ?list_elem_of_singleton; split;
      intros Hx; destruct_or?; subst; try tauto; try (simplify_eq; tauto).
      all: try (right; left; left; done).
      all: try (right; right; left; done).
Qed.

(** How many are listed at [k] once the edges [E] are pushed. *)
Lemma length_nth_add_edges (E : list (nat * nat)) (adj : list (list nat)) (k : nat) :
  Forall (fun e => e.1 < length adj /\ e.2 < length adj) E ->
  length (nth k (foldl add_edge adj E) [])
  = length (nth k adj []) + length (filter (fun e => e.1 = k) E)
    + length (filter (fun e => e.2 = k) E).
Proof.
  revert adj. induction E as [|[a b] E IH]; intros adj HE.
  - simpl. lia.
  - apply Forall_cons in HE as [[Ha Hb] HE]. simpl in Ha, Hb. simpl.
    rewrite IH by (unfold add_edge; by rewrite !length_push_back).
    unfold add_edge. cbn [fst snd].
    rewrite nth_push_back by (by rewrite length_push_back).
    rewrite nth_push_back by done.
    rewrite !filter_cons. cbn [fst snd].
    destruct (decide (k = b)) as [Ekb|Hkb], (decide (k = a)) as [Eka|Hka];
      try subst; repeat case_decide; try congruence;
      rewrite ?length_app; simpl; lia.
Qed.

(** How often [x] is listed at [k] once the edges [E] are pushed. *)
Lemma count_nth_add_edges (E : list (nat * nat)) (adj : list (list nat)) (k x : nat) :
  Forall (fun e => e.1 < length adj /\ e.2 < length adj) E ->
  length (filter (fun y => y = x) (nth k (foldl add_edge adj E) []))
  = length (filter (fun y => y = x) (nth k adj []))
    + length (filter (fun e => e = (k, x)) E)
    + length (filter (fun e => e = (x, k)) E).
Proof.
  revert adj. induction E as [|[a b] E IH]; intros adj HE.
  - simpl. lia.
  - apply Forall_cons in HE as [[Ha Hb] HE]. simpl in Ha, Hb. simpl.
    rewrite IH by (unfold add_edge; by rewrite !length_push_back).
    unfold add_edge. cbn [fst snd].
    rewrite nth_push_back by (by rewrite length_push_back).
    rewrite nth_push_back by done.
    rewrite !(filter_cons _ (a, b)).
    destruct (decide (k = b)) as [Ekb|Hkb], (decide (k = a)) as [Eka|Hka];
      try subst; rewrite ?filter_app, ?length_app;
      rewrite ?filter_cons, ?filter_nil;
      repeat case_decide; simplify_eq; simpl; lia.
Qed.

(** Sums over lists. *)
Lemma length_filter_flat_map {A B : Type} (P : B -> Prop) `{!forall b, Decision (P b)}
    (f : A -> list B) (l : list A) :
  length (filter P (flat_map f l)) = sum_list_with (fun a => length (filter P (f a))) l.
Proof.
  induction l as [|a l IH]; [done|]. simpl. by rewrite filter_app, length_app, IH.
Qed.

Lemma sum_list_with_add {A : Type} (f g : A -> nat) (l : list A) :
  sum_list_with (fun a => f a + g a) l = sum_list_with f l + sum_list_with g l.
Proof. induction l as [|a l IH]; simpl; lia. Qed.

Lemma sum_list_with_const_0 {A : Type} (l : list A) : sum_list_with (fun _ => 0) l = 0.
Proof. by induction l. Qed.

Lemma sum_list_with_swap {A B : Type} (F : A -> B -> nat) (la : list A) (lb : list B) :
  sum_list_with (fun a => sum_list_with (F a) lb) la
  = sum_list_with (fun b => sum_list_with (fun a => F a b) la) lb.
Proof.
  induction la as [|a la IH]; simpl.
  - by rewrite sum_list_with_const_0.
  - by rewrite IH, sum_list_with_add.
Qed.

Lemma sum_list_with_ext_in {A : Type} (f g : A -> nat) (l : list A) :
  (forall a, a ∈ l -> f a = g a) -> sum_list_with f l = sum_list_with g l.
Proof.
  induction l as [|a l IH]; intros E; [done|]. simpl.
  rewrite (E a) by left. rewrite IH; [done|]. intros b Hb. apply E. by right.
Qed.

Lemma sum_list_with_const {A : Type} (c : nat) (l : list A) :
  sum_list_with (fun _ => c) l = c * length l.
Proof. induction l as [|a l IH]; simpl; lia. Qed.

Lemma sum_list_with_map {A B : Type} (f : A -> B) (g : B -> nat) (l : list A) :
  sum_list_with g (map f l) = sum_list_with (fun a => g (f a)) l.
Proof. induction l as [|a l IH]; simpl; [done|]. by rewrite IH. Qed.

(** One index of [0..n-1] equals [k]. *)
Lemma sum_list_with_indicator (c n k : nat) :
  k < n -> sum_list_with (fun i => if decide (i = k) then c else 0) (seq 0 n) = c.
Proof.
  intros Hk. induction n as [|n IH]; [lia|].
  rewrite seq_S, sum_list_with_app. simpl.
  destruct (decide (k = n)) as [->|Hne].
  - rewrite decide_True by done.
    rewrite (sum_list_with_ext_in _ (fun _ => 0)).
    + rewrite sum_list_with_const_0. lia.
    + intros i Hi. apply elem_of_seq in Hi. rewrite decide_False; [done|lia].
  - rewrite decide_False by lia. rewrite IH by lia. lia.
Qed.

(** The members that [Init] leaves do not depend on [pbc_], which it
    only stores. *)
Lemma Init_pbc (L ndim : nat) (pbc : bool) (variations : list (list nat)) :
  sites_ (Init L ndim pbc variations) = sites_ (Init L ndim true variations)
  /\ coord2sites_ (Init L ndim pbc variations) = coord2sites_ (Init L ndim true variations)
  /\ nsites_ (Init L ndim pbc variations) = nsites_ (Init L ndim true variations)
  /\ L_ (Init L ndim pbc variations) = L /\ ndim_ (Init L ndim pbc variations) = ndim
  /\ pbc_ (Init L ndim pbc variations) = pbc.
Proof. unfold Init. by destruct (GenerateLatticePoints variations) as [[? ?] ?]. Qed.

Section Adjacency.
Variables (L ndim : nat) (pbc : bool) (variations : list (list nat)).
Hypothesis Hlat : lattice L ndim variations.

Let h : t := Init L ndim pbc variations.
Let n : nat := length variations.
Let site (i : nat) : list nat := nth i variations [].

(** The index that [coord2sites_] holds for a point. *)
Definition index (c : list nat) : nat := default 0 (coord2sites_ h !! c).

Lemma fields :
  sites_ h = variations /\ nsites_ h = n /\ L_ h = L /\ ndim_ h = ndim /\ pbc_ h = pbc
  /\ forall c i, coord2sites_ h !! c = Some i <-> variations !! i = Some c.
Proof.
  unfold h, n.
  destruct (Init_pbc L ndim pbc variations) as (-> & -> & -> & -> & -> & ->).
  destruct (Init_fields L ndim variations Hlat) as (-> & -> & _ & _ & _ & HM). done.
Qed.

Lemma index_valid (c : list nat) :
  valid L ndim c -> coord2sites_ h !! c = Some (index c) /\ index c < n /\ site (index c) = c.
Proof.
  intros Hc. destruct fields as (_ & _ & _ & _ & _ & HM).
  apply (proj2 Hlat) in Hc. apply list_elem_of_lookup_1 in Hc as [i Hi].
  unfold index. rewrite (proj2 (HM c i) Hi). simpl. split; [done|].
  split; [by apply lookup_lt_Some in Hi|]. by apply nth_lookup_Some.
Qed.

Lemma index_site (i : nat) : i < n -> index (site i) = i.
Proof.
  intros Hi. destruct fields as (_ & _ & _ & _ & _ & HM).
  unfold index. rewrite (proj2 (HM (site i) i)); [done|].
  apply lookup_lt_is_Some_2 in Hi as [c Hc]. unfold site.
  by rewrite (nth_lookup_Some _ _ _ _ Hc).
Qed.

Lemma site_valid (i : nat) : i < n -> valid L ndim (site i).
Proof. apply (valid_nth L ndim variations Hlat). Qed.

Lemma up_valid (c : list nat) (d : nat) :
  valid L ndim c -> d < ndim -> valid L ndim (up L c d).
Proof.
  intros Hc Hd. pose proof (valid_bound L ndim c d Hc Hd) as Hb.
  destruct Hc as [Hlen Hall]. split.
  - unfold up. by rewrite length_insert.
  - unfold up. apply Forall_insert; [done|]. apply Nat.mod_upper_bound. lia.
Qed.

(** The edges that the loop over the dimensions pushes for the site [i]
    in its first [k] rounds, and those of the whole double loop. *)
Definition edges_of (i k : nat) : list (nat * nat) :=
  flat_map (fun d => if linked pbc L (site i) d then [(i, index (up L (site i) d))] else [])
    (seq 0 k).
Definition edges : list (nat * nat) := flat_map (fun i => edges_of i ndim) (seq 0 n).

Lemma edges_of_bound (i k : nat) :
  i < n -> k <= ndim -> Forall (fun e => e.1 < n /\ e.2 < n) (edges_of i k).
Proof.
  intros Hi Hk. apply Forall_forall. intros e He. unfold edges_of in He.
  apply list_elem_of_In, in_flat_map in He as (d & Hd & He). apply in_seq in Hd.
  destruct (linked pbc L (site i) d); [|done].
  destruct He as [<-|[]]. simpl. split; [done|].
  apply index_valid, up_valid; [by apply site_valid|lia].
Qed.

Lemma edges_bound : Forall (fun e => e.1 < n /\ e.2 < n) edges.
Proof.
  apply Forall_forall. intros e He. unfold edges in He.
  apply list_elem_of_In, in_flat_map in He as (i & Hi & He). apply in_seq in Hi.
  apply list_elem_of_In in He.
  by apply (proj1 (Forall_forall _ _) (edges_of_bound i ndim ltac:(lia) (le_n _))).
Qed.

(** The loop over the dimensions, for the site [i]. *)
Lemma GenerateAdjacencyList_site (i k : nat) (adj : list (list nat)) :
  i < n -> k <= ndim ->
  for_loop k (fun d '(oadj, neigh) =>
      match oadj with
      | None => (None, neigh)
      | Some adjlist =>
          if pbc then
            let neigh := <[d := (nth d (nth i variations []) 0 + 1) mod L]> neigh in
            match coord2sites_ h !! neigh with
            | Some neigh_site =>
                (Some (push_back neigh_site i (push_back i neigh_site adjlist)),
                 <[d := nth d (nth i variations []) 0]> neigh)
            | None => (None, neigh)
            end
          else if decide (nth d (nth i variations []) 0 + 1 < L) then
            let neigh := <[d := nth d (nth i variations []) 0 + 1]> neigh in
            match coord2sites_ h !! neigh with
            | Some neigh_site =>
                (Some (push_back neigh_site i (push_back i neigh_site adjlist)),
                 <[d := nth d (nth i variations []) 0]> neigh)
            | None => (None, neigh)
            end
          else (Some adjlist, <[d := nth d (nth i variations []) 0]> neigh)
      end) (Some adj, site i)
  = (Some (foldl add_edge adj (edges_of i k)), site i).
Proof.
  intros Hi. induction k as [|k IH]; intros Hk; [done|].
  rewrite for_loop_S, IH by lia.
  unfold edges_of. rewrite seq_S, flat_map_app, foldl_app. cbn [flat_map Nat.add app].
  fold (edges_of i k). fold (site i).
  assert (Hback : forall x, <[k := nth k (site i) 0]> (<[k := x]> (site i)) = site i).
  { intros x. rewrite list_insert_insert_eq. apply list_insert_id.
    destruct (site_valid i Hi) as [Hlen _].
    destruct (nth_lookup_or_length (site i) k 0) as [E1|E1]; [done|lia]. }
  pose proof (index_valid _ (up_valid _ k (site_valid i Hi) ltac:(lia))) as (Hidx & _).
  unfold linked.
  destruct (decide (pbc = true)) as [E|E]; [|apply not_true_is_false in E];
    rewrite E; cbn [orb].
  - cbn zeta. fold (up L (site i) k). rewrite Hidx. cbn [foldl app].
    unfold up at 3. by rewrite Hback.
  - destruct (decide (nth k (site i) 0 + 1 < L)) as [Hlt|Hge].
    + rewrite bool_decide_eq_true_2 by done. cbn zeta.
      replace (<[k := nth k (site i) 0 + 1]> (site i)) with (up L (site i) k)
        by (unfold up; by rewrite Nat.mod_small).
      rewrite Hidx. cbn [foldl app]. unfold up at 3. by rewrite Hback.
    + rewrite bool_decide_eq_false_2 by done. cbn [foldl].
      f_equal. apply list_insert_id.
      destruct (site_valid i Hi) as [Hlen _].
      destruct (nth_lookup_or_length (site i) k 0) as [E1|E1]; [done|lia].
Qed.

(** The adjacency list that [GenerateAdjacencyList] builds. *)
Lemma GenerateAdjacencyList_edges :
  GenerateAdjacencyList h = Some (foldl add_edge (replicate n []) edges).
Proof.
  unfold GenerateAdjacencyList.
  destruct fields as (-> & -> & -> & -> & -> & _).
  unfold edges. generalize (replicate n ([] : list nat)). intros adj0.
  assert (G : forall k, k <= n ->
    for_loop k (fun i oadj =>
      match oadj with
      | None => None
      | Some adjlist =>
          fst (for_loop ndim (fun d '(oadj, neigh) =>
            match oadj with
            | None => (None, neigh)
            | Some adjlist =>
                if pbc then
                  let neigh := <[d := (nth d (nth i variations []) 0 + 1) mod L]> neigh in
                  match coord2sites_ h !! neigh with
                  | Some neigh_site =>
                      (Some (push_back neigh_site i (push_back i neigh_site adjlist)),
                       <[d := nth d (nth i variations []) 0]> neigh)
                  | None => (None, neigh)
                  end
                else if decide (nth d (nth i variations []) 0 + 1 < L) then
                  let neigh := <[d := nth d (nth i variations []) 0 + 1]> neigh in
                  match coord2sites_ h !! neigh with
                  | Some neigh_site =>
                      (Some (push_back neigh_site i (push_back i neigh_site adjlist)),
                       <[d := nth d (nth i variations []) 0]> neigh)
                  | None => (None, neigh)
                  end
                else (Some adjlist, <[d := nth d (nth i variations []) 0]> neigh)
            end) (Some adjlist, nth i variations []))
      end) (Some adj0)
    = Some (foldl add_edge adj0 (flat_map (fun i => edges_of i ndim) (seq 0 k)))).
  { induction k as [|k IH]; intros Hk; [done|].
    rewrite for_loop_S, IH by lia.
    rewrite seq_S, flat_map_app, foldl_app. cbn [flat_map Nat.add]. rewrite app_nil_r.
    by rewrite (GenerateAdjacencyList_site k ndim) by lia. }
  by apply G.
Qed.

Lemma elem_of_edges (i j : nat) :
  i < n -> j < n ->
  (i, j) ∈ edges
  <-> exists d, d < ndim /\ linked pbc L (site i) d = true /\ site j = up L (site i) d.
Proof.
  intros Hi Hj. unfold edges, edges_of. split.
  - intros He. apply list_elem_of_In, in_flat_map in He as (i' & Hi' & He).
    apply in_flat_map in He as (d & Hd & He). apply in_seq in Hd, Hi'.
    destruct (linked pbc L (site i') d) eqn:El; [|done].
    destruct He as [[= <- <-]|[]]. exists d. split; [lia|]. split; [done|].
    apply index_valid, up_valid; [by apply site_valid|lia].
  - intros (d & Hd & El & Ej). apply list_elem_of_In, in_flat_map.
    exists i. split; [apply in_seq; lia|]. apply in_flat_map.
    exists d. split; [apply in_seq; lia|]. rewrite El. left.
    by rewrite <- Ej, index_site.
Qed.

(** Two points one step up from which is the same point are the same. *)
Lemma up_inj (c c' : list nat) (d : nat) :
  valid L ndim c -> valid L ndim c' -> d < ndim -> up L c d = up L c' d -> c = c'.
Proof.
  intros Hc Hc' Hd E. apply (valid_ext L ndim); try done. intros d' Hd'.
  pose proof (f_equal (fun l => nth d' l 0) E) as E'. cbn beta in E'.
  unfold up in E'. rewrite !nth_lookup in E'. rewrite !nth_lookup.
  destruct (decide (d = d')) as [<-|Hne].
  - pose proof (valid_bound L ndim c d Hc Hd) as Hb.
    pose proof (valid_bound L ndim c' d Hc' Hd) as Hb'.
    destruct Hc as [Hl1 _], Hc' as [Hl2 _].
    rewrite !list_lookup_insert_eq in E' by lia. simpl in E'.
    rewrite <- !nth_lookup.
    apply (mod_add_cancel L _ _ 1); [done..|].
    rewrite <- !nth_lookup in E'.
    by rewrite (Nat.add_comm 1 (nth d c 0)), (Nat.add_comm 1 (nth d c' 0)).
  - by rewrite !list_lookup_insert_ne in E' by done.
Qed.

(** X1.  [Coord2Site] and [SiteCoord] are inverse to each other: a point has
    the index at which [Sites()] lists it, there are [Nsites()] of them,
    and [Coord2Site] throws exactly on the points outside the box
    [{0..L-1}^ndim]. *)
Theorem Coord2Site_SiteCoord :
  (forall coord i,
     Coord2Site (Init L ndim pbc variations) coord = Some i
     <-> SiteCoord (Init L ndim pbc variations) i = Some coord)
  /\ (forall coord,
        Coord2Site (Init L ndim pbc variations) coord = None
        <-> ~ (length coord = ndim /\ Forall (fun x => x < L) coord))
  /\ length (Sites (Init L ndim pbc variations)) = Nsites (Init L ndim pbc variations).
Proof.
  unfold Coord2Site, SiteCoord, Sites, Nsites. fold h.
  destruct fields as (-> & -> & _ & _ & _ & HM).
  split; [done|]. split; [|done].
  intros c. split.
  - intros Hn Hc. apply index_valid in Hc as [Hc _]. by rewrite Hn in Hc.
  - intros Hc. destruct (coord2sites_ h !! c) as [i|] eqn:E; [|done].
    exfalso. apply Hc. apply (proj1 (proj2 Hlat c)).
    apply HM in E. by apply list_elem_of_lookup_2 in E.
Qed.

(** X2.  [GenerateAdjacencyList] returns, with one list per site, and lists
    [j] at [i] exactly when one of the two points is one step up from
    the other along an axis: wrapping around with periodic boundary
    conditions, inside the box without. *)
Theorem AdjacencyList_neighbours :
  exists adjlist,
    GenerateAdjacencyList (Init L ndim pbc variations) = Some adjlist
    /\ length adjlist = Nsites (Init L ndim pbc variations)
    /\ forall i j, i < length variations -> j < length variations ->
         j ∈ nth i adjlist []
         <-> (exists d, d < ndim /\ linked pbc L (nth i variations []) d = true
                        /\ nth j variations [] = up L (nth i variations []) d)
             \/ (exists d, d < ndim /\ linked pbc L (nth j variations []) d = true
                           /\ nth i variations [] = up L (nth j variations []) d).
Proof.
  eexists. split; [apply GenerateAdjacencyList_edges|].
  split.
  { rewrite length_add_edges, length_replicate. unfold Nsites. fold h.
    by destruct fields as (_ & -> & _). }
  intros i j Hi Hj.
  rewrite elem_of_add_edges by (rewrite length_replicate; apply edges_bound).
  rewrite !elem_of_edges by done.
  assert (E : nth i (replicate n ([] : list nat)) [] = []).
  { rewrite nth_lookup. by destruct (replicate n [] !! i) as [l|] eqn:El;
      [apply lookup_replicate in El as [-> _]|]. }
  rewrite E. split; [|tauto]. intros [H|H]; [by apply elem_of_nil in H|done].
Qed.

(** X3.  The adjacency list is symmetric with multiplicities: [j] is listed
    at [i] as many times as [i] is listed at [j]. *)
Theorem AdjacencyList_symmetric :
  exists adjlist,
    GenerateAdjacencyList (Init L ndim pbc variations) = Some adjlist
    /\ forall i j, i < length variations -> j < length variations ->
         length (filter (fun y => y = j) (nth i adjlist []))
         = length (filter (fun y => y = i) (nth j adjlist [])).
Proof.
  eexists. split; [apply GenerateAdjacencyList_edges|].
  intros i j Hi Hj.
  rewrite !count_nth_add_edges by (rewrite length_replicate; apply edges_bound).
  assert (E : forall k, nth k (replicate n ([] : list nat)) [] = []).
  { intros k. rewrite nth_lookup. by destruct (replicate n [] !! k) as [l|] eqn:El;
      [apply lookup_replicate in El as [-> _]|]. }
  rewrite !E. simpl. lia.
Qed.

(** X4.  With periodic boundary conditions every site is listed with exactly
    [2 * ndim] neighbours, repetitions included (for [L = 2] the
    neighbour along an axis is listed twice, for [L = 1] the site is its
    own neighbour). *)
Theorem AdjacencyList_degree :
  pbc = true ->
  exists adjlist,
    GenerateAdjacencyList (Init L ndim pbc variations) = Some adjlist
    /\ forall i, i < length variations -> length (nth i adjlist []) = 2 * ndim.
Proof.
  intros Hpbc. eexists. split; [apply GenerateAdjacencyList_edges|].
  intros k Hk.
  rewrite length_nth_add_edges by (rewrite length_replicate; apply edges_bound).
  assert (E : nth k (replicate n ([] : list nat)) [] = []).
  { rewrite nth_lookup. by destruct (replicate n [] !! k) as [l|] eqn:El;
      [apply lookup_replicate in El as [-> _]|]. }
  rewrite E. cbn [length].
  assert (Ee : forall i, edges_of i ndim
               = flat_map (fun d => [(i, index (up L (site i) d))]) (seq 0 ndim)).
  { intros i. unfold edges_of, linked. by rewrite Hpbc. }
  unfold edges. rewrite !length_filter_flat_map.
  assert (Ef : forall (P : nat * nat -> Prop) `{!forall e, Decision (P e)} i,
    length (filter P (edges_of i ndim))
    = sum_list_with (fun d => if decide (P (i, index (up L (site i) d))) then 1 else 0)
        (seq 0 ndim)).
  { intros P ? i. rewrite Ee, length_filter_flat_map.
    apply sum_list_with_ext_in. intros d _. rewrite filter_cons, filter_nil.
    by destruct (decide (P _)). }
  assert (E1 : sum_list_with
                 (fun i => length (filter (fun e : nat * nat => e.1 = k) (edges_of i ndim)))
                 (seq 0 n) = ndim).
  { rewrite (sum_list_with_ext_in _ (fun i => if decide (i = k) then ndim else 0)).
    - by apply sum_list_with_indicator.
    - intros i _. rewrite Ef. cbn [fst]. destruct (decide (i = k)).
      + rewrite sum_list_with_const, length_seq. lia.
      + apply sum_list_with_const_0. }
  assert (E2 : sum_list_with
                 (fun i => length (filter (fun e : nat * nat => e.2 = k) (edges_of i ndim)))
                 (seq 0 n) = ndim).
  { rewrite (sum_list_with_ext_in _ (fun i =>
      sum_list_with (fun d => if decide (index (up L (site i) d) = k) then 1 else 0)
        (seq 0 ndim))) by (intros i _; apply Ef).
    rewrite sum_list_with_swap.
    rewrite (sum_list_with_ext_in _ (fun _ => 1)).
    { rewrite sum_list_with_const, length_seq. lia. }
    intros d Hd. apply elem_of_seq in Hd.
    etrans; [symmetry; exact (sum_list_with_map (fun i => index (up L (site i) d))
                                (fun x => if decide (x = k) then 1 else 0) (seq 0 n))|].
    rewrite (sum_list_with_Permutation_proper _ _ (seq 0 n)).
    { by apply sum_list_with_indicator. }
    apply Permutation_map_seq.
    - intros i Hi. apply index_valid, up_valid; [by apply site_valid|lia].
    - intros i j Hi Hj Eij.
      pose proof (index_valid _ (up_valid _ d (site_valid i Hi) ltac:(lia))) as (_ & _ & Ei).
      pose proof (index_valid _ (up_valid _ d (site_valid j Hj) ltac:(lia))) as (_ & _ & Ej).
      rewrite Eij, Ej in Ei. apply up_inj in Ei; [|by apply site_valid..|lia].
      rewrite <- (index_site i), <- (index_site j) by done. by rewrite Ei. }
  rewrite E1, E2. lia.
Qed.

End Adjacency.

(** *** The symmetry table as a group of permutations *)
Section Table.
Variables (L ndim : nat) (variations : list (list nat)).
Hypothesis Hlat : lattice L ndim variations.

Let n : nat := length variations.
Let tau : nat -> nat -> nat := Hypercube.tau L ndim variations.
Let table : list (list nat) := map (fun i => map (tau i) (seq 0 n)) (seq 0 n).

Lemma table_entry (g p : nat) : g < n -> p < n -> nth p (nth g table []) 0 = tau g p.
Proof.
  intros Hg Hp. unfold table.
  rewrite (nth_map_seq (fun i => map (tau i) (seq 0 n))) by done.
  by rewrite nth_map_seq.
Qed.

Lemma Nsites_Init : Nsites (Init L ndim true variations) = n.
Proof. unfold Nsites. by destruct (Init_fields L ndim variations Hlat) as (_ & -> & _). Qed.

(** The point that translating by it moves [c1] to [c2]. *)
Definition difference (c1 c2 : list nat) : list nat :=
  map (fun d => (nth d c2 0 + (L - nth d c1 0)) mod L) (seq 0 ndim).

Lemma translate_difference (c1 c2 : list nat) :
  valid L ndim c1 -> valid L ndim c2 ->
  valid L ndim (difference c1 c2)
  /\ translate L ndim (difference c1 c2) c1 = c2.
Proof.
  intros H1 H2.
  assert (Hv : valid L ndim (difference c1 c2)).
  { split.
    - unfold difference. by rewrite length_map, length_seq.
    - apply Forall_forall. intros x Hx. unfold difference in Hx.
      apply list_elem_of_fmap in Hx as (d & -> & Hd). apply elem_of_seq in Hd.
      apply Nat.mod_upper_bound.
      pose proof (valid_bound L ndim c1 d H1 ltac:(lia)). lia. }
  split; [done|].
  apply (valid_ext L ndim); [by apply valid_translate|done|].
  intros d Hd. rewrite nth_translate by done.
  unfold difference. rewrite nth_map_seq by done.
  pose proof (valid_bound L ndim c1 d H1 Hd) as Hb1.
  pose proof (valid_bound L ndim c2 d H2 Hd) as Hb2.
  rewrite Nat.Div0.add_mod_idemp_l.
  replace (nth d c2 0 + (L - nth d c1 0) + nth d c1 0) with (nth d c2 0 + 1 * L) by lia.
  rewrite Nat.Div0.mod_add. by apply Nat.mod_small.
Qed.

(** X5.  On a periodic hypercube [SymmetryTable] returns one row per site,
    and every row is a rearrangement of the sites [0..Nsites-1]; without
    periodic boundary conditions it aborts. *)
Theorem SymmetryTable_rows :
  (exists table,
     SymmetryTable (Init L ndim true variations) = Some table
     /\ length table = Nsites (Init L ndim true variations)
     /\ Forall (fun row => Permutation row (seq 0 (Nsites (Init L ndim true variations))))
          table)
  /\ SymmetryTable (Init L ndim false variations) = None.
Proof.
  split.
  - exists table. split; [apply (SymmetryTable_spec L ndim variations Hlat)|].
    rewrite Nsites_Init. split.
    + unfold table. by rewrite length_map, length_seq.
    + apply Forall_forall. intros row Hrow. unfold table in Hrow.
      apply list_elem_of_fmap in Hrow as (g & -> & Hg). apply elem_of_seq in Hg.
      apply Permutation_map_seq.
      * intros p _. apply (tau_spec L ndim variations Hlat). unfold n in Hg. lia.
      * intros p q Hp Hq. apply (tau_inj L ndim variations Hlat); unfold n in *; lia.
  - unfold SymmetryTable.
    by destruct (Init_pbc L ndim false variations) as (_ & _ & _ & _ & _ & ->).
Qed.

(** X6.  The rows of the table are closed under composition, the row of the
    site [g] followed by the row of the site [i] being the row of the
    site [table[g][i]]; the table is symmetric; and some row takes any
    given site to any other. *)
Theorem SymmetryTable_group :
  exists table,
    SymmetryTable (Init L ndim true variations) = Some table
    /\ (forall g i p,
          g < length variations -> i < length variations -> p < length variations ->
          nth (nth p (nth g table []) 0) (nth i table []) 0
          = nth p (nth (nth i (nth g table []) 0) table []) 0)
    /\ (forall g p, g < length variations -> p < length variations ->
          nth p (nth g table []) 0 = nth g (nth p table []) 0)
    /\ (forall p q, p < length variations -> q < length variations ->
          exists g, g < length variations /\ nth p (nth g table []) 0 = q).
Proof.
  exists table. split; [apply (SymmetryTable_spec L ndim variations Hlat)|].
  assert (Hlt : forall g p, g < n -> tau g p < n).
  { intros g p Hg. by apply (tau_spec L ndim variations Hlat). }
  split; [|split].
  - intros g i p Hg Hi Hp.
    rewrite (table_entry g p), (table_entry g i) by done.
    rewrite (table_entry i), (table_entry (tau g i)) by (try apply Hlt; done).
    by apply (tau_assoc L ndim variations Hlat).
  - intros g p Hg Hp. rewrite !table_entry by done.
    apply (tau_comm L ndim variations).
  - intros p q Hp Hq.
    destruct (translate_difference (nth p variations []) (nth q variations []))
      as [Hv Ht]; [by apply (valid_nth L ndim variations Hlat)..|].
    destruct (lookup_valid L ndim variations Hlat _ Hv) as (g & _ & Hg & Eg).
    exists g. split; [done|]. rewrite table_entry by done.
    destruct (tau_spec L ndim variations Hlat g p Hg) as (_ & Hlt' & Et).
    rewrite Eg, Ht in Et.
    apply (proj1 (NoDup_nth variations []) (proj1 (NoDup_ListNoDup _) (proj1 Hlat)));
      done.
Qed.

End Table.

End HypercubeGraph.

(** *** The periodic chain of two sites and the open square of four *)

(** The four points of the square of side 2, in the order of the
    enumeration. *)
Definition square2 : list (list nat) := [[0; 0]; [1; 0]; [0; 1]; [1; 1]].

Lemma square2_lattice : Hypercube.lattice 2 2 square2.
Proof.
  split; [compute_done|]. intros c. split.
  - intros Hc. apply list_elem_of_In in Hc.
    destruct Hc as [<-|[<-|[<-|[<-|[]]]]]; split; repeat constructor.
  - intros [Hlen Hall]. destruct c as [|x [|y [|z c]]]; try discriminate.
    apply Forall_cons in Hall as [Hx Hall]. apply Forall_cons in Hall as [Hy _].
    destruct x as [|[|x]], y as [|[|y]]; try lia; set_solver.
Defined.

Lemma Coord2Site_SiteCoord_witness :
  (forall coord i,
     HypercubeGraph.Coord2Site (Hypercube.Init 2 2 false square2) coord = Some i
     <-> HypercubeGraph.SiteCoord (Hypercube.Init 2 2 false square2) i = Some coord)
  /\ (forall coord,
        HypercubeGraph.Coord2Site (Hypercube.Init 2 2 false square2) coord = None
        <-> ~ (length coord = 2 /\ Forall (fun x => x < 2) coord))
  /\ length (HypercubeGraph.Sites (Hypercube.Init 2 2 false square2))
     = Hypercube.Nsites (Hypercube.Init 2 2 false square2).
Proof.
  exact (HypercubeGraph.Coord2Site_SiteCoord 2 2 false square2 square2_lattice).
Defined.

Lemma AdjacencyList_neighbours_witness :
  exists adjlist,
    HypercubeGraph.GenerateAdjacencyList (Hypercube.Init 2 2 false square2) = Some adjlist
    /\ length adjlist = Hypercube.Nsites (Hypercube.Init 2 2 false square2)
    /\ forall i j, i < length square2 -> j < length square2 ->
         j ∈ nth i adjlist []
         <-> (exists d, d < 2 /\ HypercubeGraph.linked false 2 (nth i square2 []) d = true
                        /\ nth j square2 [] = HypercubeGraph.up 2 (nth i square2 []) d)
             \/ (exists d, d < 2
                           /\ HypercubeGraph.linked false 2 (nth j square2 []) d = true
                           /\ nth i square2 [] = HypercubeGraph.up 2 (nth j square2 []) d).
Proof.
  exact (HypercubeGraph.AdjacencyList_neighbours 2 2 false square2 square2_lattice).
Defined.

Lemma AdjacencyList_symmetric_witness :
  exists adjlist,
    HypercubeGraph.GenerateAdjacencyList (Hypercube.Init 2 2 true square2) = Some adjlist
    /\ forall i j, i < length square2 -> j < length square2 ->
         length (filter (fun y => y = j) (nth i adjlist []))
         = length (filter (fun y => y = i) (nth j adjlist [])).
Proof.
  exact (HypercubeGraph.AdjacencyList_symmetric 2 2 true square2 square2_lattice).
Defined.

Lemma AdjacencyList_degree_witness :
  exists adjlist,
    HypercubeGraph.GenerateAdjacencyList (Hypercube.Init 2 1 true [[0]; [1]]) = Some adjlist
    /\ forall i, i < length [[0]; [1]] -> length (nth i adjlist []) = 2 * 1.
Proof.
  exact (HypercubeGraph.AdjacencyList_degree 2 1 true [[0]; [1]] chain2_lattice eq_refl).
Defined.

Lemma SymmetryTable_rows_witness :
  (exists table,
     Hypercube.SymmetryTable (Hypercube.Init 2 2 true square2) = Some table
     /\ length table = Hypercube.Nsites (Hypercube.Init 2 2 true square2)
     /\ Forall (fun row =>
                  Permutation row (seq 0 (Hypercube.Nsites (Hypercube.Init 2 2 true square2))))
          table)
  /\ Hypercube.SymmetryTable (Hypercube.Init 2 2 false square2) = None.
Proof.
  exact (HypercubeGraph.SymmetryTable_rows 2 2 square2 square2_lattice).
Defined.

Lemma SymmetryTable_group_witness :
  exists table,
    Hypercube.SymmetryTable (Hypercube.Init 2 2 true square2) = Some table
    /\ (forall g i p, g < length square2 -> i < length square2 -> p < length square2 ->
          nth (nth p (nth g table []) 0) (nth i table []) 0
          = nth p (nth (nth i (nth g table []) 0) table []) 0)
    /\ (forall g p, g < length square2 -> p < length square2 ->
          nth p (nth g table []) 0 = nth g (nth p table []) 0)
    /\ (forall p q, p < length square2 -> q < length square2 ->
          exists g, g < length square2 /\ nth p (nth g table []) 0 = q).
Proof.
  exact (HypercubeGraph.SymmetryTable_group 2 2 square2 square2_lattice).
Defined.

(** ** RbmSpinSymm: look-up tables, batched differences and parameters *)
Module RbmSpinSymmMoves.
Import RbmSpinSymm.
Section Moves.
Context {T : Type} `{Scalar T}.
Add Ring T_ring_moves : scalar_ring.

Variable lncosh : T -> T.

(** A look-up table in step with the configuration [v]: its first
    vector holds the angles [W_.transpose()*v+b_]. *)
Definition in_step (m : t) (v : list T) (lt : LookupType) : Prop :=
  lt <> [] /\ nth 0 lt [] = thetas m v.

Lemma InitLookup_in_step (m : t) (v : list T) (lt : LookupType) :
  in_step m v (InitLookup m v lt).
Proof.
  split; [|apply nth_InitLookup].
  unfold InitLookup. destruct (decide (length lt = 0)); [done|]. by destruct lt.
Qed.

(** The loop of [UpdateLookup] moves the first vector of the table as the
    loop of [LogValDiff] moves [thetasnew_], and leaves the others. *)
Lemma UpdateLookup_loop (m : t) (v : list T) (tochange : list nat) (newconf : list T)
    (n : nat) (lt0 : LookupType) :
  lt0 <> [] ->
  for_loop n (fun s lt =>
      let sf := nth s tochange 0 in
      <[0 := vadd (nth 0 lt [])
               (vscale (nth sf (W_ m) []) (nth s newconf zero - nth sf v zero)%T)]> lt) lt0
  = snd (for_loop n (fun s '(logvaldiff, thetasnew) =>
           let sf := nth s tochange 0 in
           let d := (nth s newconf zero - nth sf v zero)%T in
           ((logvaldiff + nth sf (a_ m) zero * d)%T,
            vadd thetasnew (vscale (nth sf (W_ m) []) d)))
          (zero, nth 0 lt0 [])) :: drop 1 lt0.
Proof.
  intros Hne. induction n as [|n IH].
  - by destruct lt0.
  - rewrite !for_loop_S, IH.
    destruct (for_loop n _ (zero, nth 0 lt0 [])) as [lvd th]. done.
Qed.

(** From a table in step with [v], the single-move [LogValDiff] is the
    change of [LogVal]. *)
Lemma LogValDiffLt_in_step (m : t) (v : list T) (tochange : list nat)
    (newconf : list T) (lt : LookupType) :
  wf m -> length v = nv_ m -> NoDup tochange ->
  Forall (fun sf => sf < nv_ m) tochange ->
  length newconf = length tochange ->
  nth 0 lt [] = thetas m v ->
  LogValDiffLt lncosh m v tochange newconf lt
  = (LogVal lncosh m (UpdateConf v tochange newconf) - LogVal lncosh m v)%T.
Proof.
  intros Hwf Hv Hnd Hrange Hnew Hth.
  pose proof (LogValDiff_loop m v tochange newconf (length tochange)
                Hwf Hv Hnd Hrange Hnew (le_n _)) as L.
  cbn zeta in L. fold (UpdateConf v tochange newconf) in L.
  unfold LogValDiffLt.
  destruct (decide (length tochange = 0)) as [El|El].
  - unfold UpdateConf. rewrite El. cbn [for_loop]. ring.
  - rewrite Hth, L. unfold LogVal. rewrite !(dot_comm _ (a_ m)). ring.
Qed.

(** [UpdateLookup] on a table in step with [v] leaves the angles of the
    updated configuration in the first vector, and the other vectors as
    they are. *)
Lemma UpdateLookup_step (m : t) (v : list T) (tochange : list nat)
    (newconf : list T) (lt : LookupType) :
  wf m -> length v = nv_ m -> NoDup tochange ->
  Forall (fun sf => sf < nv_ m) tochange ->
  length newconf = length tochange ->
  in_step m v lt ->
  UpdateLookup m v tochange newconf lt
  = thetas m (UpdateConf v tochange newconf) :: drop 1 lt.
Proof.
  intros Hwf Hv Hnd Hrange Hnew [Hne Hth].
  pose proof (LogValDiff_loop m v tochange newconf (length tochange)
                Hwf Hv Hnd Hrange Hnew (le_n _)) as L.
  cbn zeta in L. fold (UpdateConf v tochange newconf) in L.
  unfold UpdateLookup.
  destruct (decide (length tochange = 0)) as [E0|E0].
  - unfold UpdateConf. rewrite E0. cbn [for_loop]. rewrite <- Hth.
    by destruct lt.
  - rewrite UpdateLookup_loop by done. cbn zeta. by rewrite Hth, L.
Qed.

(** X7.  A look-up table that is in step with [v] stays in step through
    [UpdateLookup] and [UpdateConf] on a move with distinct sites; from
    such a table, [LogVal(v, lt)] is [LogVal(v)] and the single-move
    [LogValDiff] is exactly [LogVal(v') - LogVal(v)].  The other vectors
    of the table are left alone. *)
Theorem UpdateLookup_in_step (m : t) (v : list T) (tochange : list nat)
    (newconf : list T) (lt : LookupType) :
  wf m -> length v = nv_ m -> NoDup tochange ->
  Forall (fun sf => sf < nv_ m) tochange ->
  length newconf = length tochange ->
  in_step m v lt ->
  let v' := UpdateConf v tochange newconf in
  let lt' := UpdateLookup m v tochange newconf lt in
  in_step m v' lt'
  /\ drop 1 lt' = drop 1 lt
  /\ LogValLt lncosh m v lt = LogVal lncosh m v
  /\ LogValLt lncosh m v' lt' = LogVal lncosh m v'
  /\ LogValDiffLt lncosh m v tochange newconf lt
     = (LogVal lncosh m v' - LogVal lncosh m v)%T.
Proof.
  intros Hwf Hv Hnd Hrange Hnew Hstep v' lt'.
  assert (E : lt' = thetas m v' :: drop 1 lt) by (by apply UpdateLookup_step).
  destruct Hstep as [Hne Hth].
  assert (E0 : nth 0 lt' [] = thetas m v') by (by rewrite E).
  split; [split; [by rewrite E|done]|].
  split; [by rewrite E|].
  split; [unfold LogValLt, LogVal; by rewrite Hth|].
  split; [unfold LogValLt, LogVal; by rewrite E0|].
  by apply LogValDiffLt_in_step.
Qed.

(** *** The batched differences *)

(** The inner loop of the batched [LogValDiff] touches [logvaldiffs]
    only at [k]. *)
Lemma LogValDiff_inner (m : t) (v : list T) (tc : list nat) (nc : list T) (k n : nat)
    (lvds th0 : list T) :
  k < length lvds ->
  for_loop n (fun s '(logvaldiffs, thetasnew) =>
      let sf := nth s tc 0 in
      let d := (nth s nc zero - nth sf v zero)%T in
      (<[k := (nth k logvaldiffs zero + nth sf (a_ m) zero * d)%T]> logvaldiffs,
       vadd thetasnew (vscale (nth sf (W_ m) []) d)))
    (lvds, th0)
  = let P := for_loop n (fun s '(logvaldiff, thetasnew) =>
               let sf := nth s tc 0 in
               let d := (nth s nc zero - nth sf v zero)%T in
               ((logvaldiff + nth sf (a_ m) zero * d)%T,
                vadd thetasnew (vscale (nth sf (W_ m) []) d)))
               (nth k lvds zero, th0) in
    (<[k := fst P]> lvds, snd P).
Proof.
  intros Hk. induction n as [|n IH].
  - cbn. f_equal. symmetry. apply list_insert_id.
    destruct (nth_lookup_or_length lvds k zero) as [E|E]; [done|lia].
  - rewrite !for_loop_S, IH. cbn zeta.
    destruct (for_loop n _ (nth k lvds zero, th0)) as [x th]. cbn [fst snd].
    f_equal. rewrite list_insert_insert_eq. f_equal.
    rewrite nth_lookup, list_lookup_insert_eq by done. done.
Qed.

(** One round of the outer loop writes [logvaldiffs] only at [k]. *)
Definition LogValDiff_body (m : t) (v : list T) (tochange : list (list nat))
    (newconf : list (list T)) (k : nat) (logvaldiffs : list T) : list T :=
  let thetas_ := thetas m v in
  let logtsum := vsum (map lncosh thetas_) in
  let tc := nth k tochange [] in
  let nc := nth k newconf [] in
  if decide (length tc = 0) then logvaldiffs
  else
    let '(logvaldiffs, thetasnew) :=
      for_loop (length tc) (fun s '(logvaldiffs, thetasnew) =>
        let sf := nth s tc 0 in
        let d := (nth s nc zero - nth sf v zero)%T in
        (<[k := (nth k logvaldiffs zero + nth sf (a_ m) zero * d)%T]> logvaldiffs,
         vadd thetasnew (vscale (nth sf (W_ m) []) d)))
        (logvaldiffs, thetas_) in
    let lnthetasnew := map lncosh thetasnew in
    <[k := (nth k logvaldiffs zero + (vsum lnthetasnew - logtsum))%T]> logvaldiffs.

Lemma LogValDiff_body_spec (m : t) (v : list T) (tochange : list (list nat))
    (newconf : list (list T)) (k : nat) (lvds : list T) :
  k < length lvds -> nth k lvds zero = zero ->
  LogValDiff_body m v tochange newconf k lvds
  = <[k := LogValDiffLt lncosh m v (nth k tochange []) (nth k newconf [])
             [thetas m v]]> lvds.
Proof.
  intros Hk Hz. unfold LogValDiff_body, LogValDiffLt. cbn zeta.
  destruct (decide (length (nth k tochange []) = 0)) as [E|E].
  - symmetry. apply list_insert_id. rewrite <- Hz.
    destruct (nth_lookup_or_length lvds k zero) as [E'|E']; [done|lia].
  - rewrite LogValDiff_inner by done. cbn zeta. rewrite Hz. cbn [nth].
    destruct (for_loop _ _ (zero, thetas m v)) as [x th]. cbn [fst snd].
    rewrite list_insert_insert_eq. f_equal.
    rewrite nth_lookup, list_lookup_insert_eq by done. done.
Qed.

Lemma LogValDiff_outer (m : t) (v : list T) (tochange : list (list nat))
    (newconf : list (list T)) (n : nat) :
  n <= length tochange ->
  for_loop n (LogValDiff_body m v tochange newconf) (replicate (length tochange) zero)
  = map (fun k => LogValDiffLt lncosh m v (nth k tochange []) (nth k newconf [])
                    [thetas m v]) (seq 0 n)
    ++ replicate (length tochange - n) zero.
Proof.
  induction n as [|n IH]; intros Hn.
  - cbn. by rewrite Nat.sub_0_r.
  - rewrite for_loop_S, IH by lia.
    rewrite LogValDiff_body_spec.
    + rewrite seq_S, map_app. cbn [map Nat.add].
      replace (length tochange - n) with (S (length tochange - S n)) by lia.
      cbn [replicate].
      rewrite <- (Nat.add_0_r n) at 1.
      replace (n + 0) with (length (map (fun k => LogValDiffLt lncosh m v
                 (nth k tochange []) (nth k newconf []) [thetas m v]) (seq 0 n)) + 0)
        by (rewrite length_map, length_seq; lia).
      rewrite insert_app_r. cbn. by rewrite <- app_assoc.
    + rewrite length_app, length_map, length_seq, length_replicate. lia.
    + rewrite app_nth2 by (rewrite length_map, length_seq; lia).
      rewrite length_map, length_seq, Nat.sub_diag.
      replace (length tochange - n) with (S (length tochange - S n)) by lia. done.
Qed.

(** X8.  The batched [LogValDiff] returns one difference per connection;
    a connection that changes no site gives 0, and one that changes
    distinct sites below [nv_], with one new value per site, gives
    exactly [LogVal(v') - LogVal(v)], whatever the other connections
    are. *)
Theorem LogValDiff_batched (m : t) (v : list T) (tochange : list (list nat))
    (newconf : list (list T)) :
  wf m -> length v = nv_ m ->
  length (LogValDiff lncosh m v tochange newconf) = length tochange
  /\ forall k, k < length tochange ->
       (nth k tochange [] = [] ->
        nth k (LogValDiff lncosh m v tochange newconf) zero = zero)
       /\ (NoDup (nth k tochange []) ->
           Forall (fun sf => sf < nv_ m) (nth k tochange []) ->
           length (nth k newconf []) = length (nth k tochange []) ->
           nth k (LogValDiff lncosh m v tochange newconf) zero
           = (LogVal lncosh m (UpdateConf v (nth k tochange []) (nth k newconf []))
              - LogVal lncosh m v)%T).
Proof.
  intros Hwf Hv.
  assert (E : LogValDiff lncosh m v tochange newconf
              = map (fun k => LogValDiffLt lncosh m v (nth k tochange [])
                                (nth k newconf []) [thetas m v])
                  (seq 0 (length tochange))).
  { unfold LogValDiff. cbn zeta.
    change (for_loop (length tochange) ?b ?s)
      with (for_loop (length tochange) (LogValDiff_body m v tochange newconf) s).
    rewrite LogValDiff_outer by done. by rewrite Nat.sub_diag, app_nil_r. }
  rewrite E. split; [by rewrite length_map, length_seq|].
  intros k Hk. rewrite nth_map_seq by done. split.
  - intros ->. reflexivity.
  - intros Hnd Hrange Hnew. by apply LogValDiffLt_in_step.
Qed.

End Moves.
End RbmSpinSymmMoves.

(** ** RbmSpinSymm: installing and reading parameters *)
Module RbmSpinSymmParameters.
Import RbmSpinSymm.
Section Parameters.
Context {T : Type} `{Scalar T}.


(** A matrix is the table of its coefficients. *)
Lemma matrix_eta (M : list (list T)) (r c : nat) :
  mdims M r c -> M = map (fun i => map (fun j => mget M i j) (seq 0 c)) (seq 0 r).
Proof.
  intros [Hr Hc]. apply (nth_ext _ _ [] []).
  - by rewrite length_map, length_seq.
  - intros i Hi. rewrite (nth_map_seq (fun i => map (fun j => mget M i j) (seq 0 c))) by lia.
    unfold mget.
    assert (Hrow : length (nth i M []) = c).
    { apply (proj1 (Forall_forall _ _) Hc). apply list_elem_of_In, nth_In. lia. }
    rewrite <- Hrow. symmetry. apply map_nth_all.
Qed.

(** [SetBareParameters] overwrites every bare parameter. *)
Lemma SetBareParameters_closed (m : t) :
  length (a_ m) = nv_ m -> length (b_ m) = nh_ m -> mdims (W_ m) (nv_ m) (nh_ m) ->
  SetBareParameters m
  = {| permtable_ := permtable_ m; permsize_ := permsize_ m; nv_ := nv_ m;
       alpha_ := alpha_ m; nh_ := nh_ m; npar_ := npar_ m; nbarepar_ := nbarepar_ m;
       W_ := map (fun i => map (fun j =>
               mget (Wsymm_ m) (nth (j mod permsize_ m) (nth i (permtable_ m) []) 0)
                 (j / permsize_ m)) (seq 0 (nh_ m))) (seq 0 (nv_ m));
       Wsymm_ := Wsymm_ m;
       a_ := map (fun _ => asymm_ m) (seq 0 (nv_ m));
       asymm_ := asymm_ m;
       b_ := map (fun j => nth (j / permsize_ m) (bsymm_ m) zero) (seq 0 (nh_ m));
       bsymm_ := bsymm_ m; DerMatSymm_ := DerMatSymm_ m;
       usea_ := usea_ m; useb_ := useb_ m |}.
Proof.
  intros Ha Hb HW. unfold SetBareParameters. f_equal.
  - exact (SetBareParameters_W m HW).
  - exact (SetBareParameters_a m Ha).
  - exact (SetBareParameters_b m Hb).
Qed.

(** The reduced parameters that [SetParameters] would read off what
    [GetParameters] returns. *)
Lemma reduced_GetParameters (m : t) :
  wf m -> (usea_ m = false -> asymm_ m = zero) ->
  (useb_ m = false -> bsymm_ m = replicate (alpha_ m) zero) ->
  reduced_a m (GetParameters m) = asymm_ m
  /\ reduced_b m (GetParameters m) = bsymm_ m
  /\ reduced_W m (GetParameters m) = Wsymm_ m.
Proof.
  intros Hwf Ha0 Hb0. rewrite GetParameters_layout by done.
  destruct Hwf as (_ & _ & _ & Hb & HW & _).
  unfold reduced_a, reduced_b, reduced_W, kW, kb. split; [|split].
  - destruct (usea_ m); [done|]. by rewrite Ha0.
  - destruct (useb_ m); [|by rewrite Hb0].
    etrans; [|apply (map_nth_all zero)]. rewrite Hb.
    apply map_ext_in. intros p Hp. apply in_seq in Hp.
    destruct (usea_ m); cbn [app length Nat.add nth].
    + rewrite app_nth1 by lia. done.
    + rewrite app_nth1 by lia. done.
  - etrans; [|symmetry; apply (matrix_eta (Wsymm_ m) _ _ HW)].
    apply map_ext_in. intros i Hi. apply in_seq in Hi.
    apply map_ext_in. intros j Hj. apply in_seq in Hj.
    assert (E : forall pre : list T,
      nth (length pre + i * alpha_ m + j) (pre ++ concat (Wsymm_ m)) zero
      = mget (Wsymm_ m) i j).
    { intros pre. rewrite app_nth2 by lia.
      replace (length pre + i * alpha_ m + j - length pre) with (i * alpha_ m + j) by lia.
      destruct HW as [Hr Hc]. apply (nth_concat_rows zero _ (nv_ m)); done || lia. }
    destruct (usea_ m), (useb_ m); cbn [app].
    + rewrite <- Hb at 1. exact (E (asymm_ m :: bsymm_ m)).
    + exact (E [asymm_ m]).
    + rewrite <- Hb at 1. exact (E (bsymm_ m)).
    + exact (E []).
Qed.

(** X9.  [SetParameters] leaves nothing of the parameters installed
    before: the last call wins.  And a machine that [SetParameters] has
    set up is unchanged when the vector that [GetParameters] returns is
    installed again, as the learning driver does at every iteration. *)
Theorem SetParameters_GetParameters (m : t) (pars0 pars : list T) :
  wf m ->
  SetParameters (SetParameters m pars0) pars = SetParameters m pars
  /\ SetParameters (SetParameters m pars) (GetParameters (SetParameters m pars))
     = SetParameters m pars.
Proof.
  intros Hwf.
  assert (G : forall m1 (p1 p2 : list T), wf m1 ->
    reduced_a (SetParameters m1 p1) p2 = reduced_a m1 p2
    /\ reduced_b (SetParameters m1 p1) p2 = reduced_b m1 p2
    /\ reduced_W (SetParameters m1 p1) p2 = reduced_W m1 p2).
  { intros m1 p1 p2 Hwf1.
    destruct (SetParameters_sizes m1 p1 Hwf1) as (_ & _ & E3 & E4 & _ & _ & E7 & E8 & _).
    unfold reduced_a, reduced_b, reduced_W, kW, kb. by rewrite E3, E4, E7, E8. }
  assert (CF : forall m1 (p1 : list T), wf m1 ->
    SetParameters m1 p1
    = {| permtable_ := permtable_ m1; permsize_ := permsize_ m1; nv_ := nv_ m1;
         alpha_ := alpha_ m1; nh_ := nh_ m1; npar_ := npar_ m1;
         nbarepar_ := nbarepar_ m1;
         W_ := map (fun i => map (fun j =>
                 mget (reduced_W m1 p1)
                   (nth (j mod permsize_ m1) (nth i (permtable_ m1) []) 0)
                   (j / permsize_ m1)) (seq 0 (nh_ m1))) (seq 0 (nv_ m1));
         Wsymm_ := reduced_W m1 p1;
         a_ := map (fun _ => reduced_a m1 p1) (seq 0 (nv_ m1));
         asymm_ := reduced_a m1 p1;
         b_ := map (fun j => nth (j / permsize_ m1) (reduced_b m1 p1) zero)
                 (seq 0 (nh_ m1));
         bsymm_ := reduced_b m1 p1; DerMatSymm_ := DerMatSymm_ m1;
         usea_ := usea_ m1; useb_ := useb_ m1 |}).
  { intros m1 p1 Hwf1. rewrite SetParameters_eq by done.
    rewrite SetBareParameters_closed; [done|apply Hwf1..]. }
  assert (Over : forall p1 p2 : list T,
    SetParameters (SetParameters m p1) p2 = SetParameters m p2).
  { intros p1 p2.
    rewrite (CF (SetParameters m p1) p2) by (by apply SetParameters_wf).
    destruct (G m p1 p2 Hwf) as (-> & -> & ->).
    rewrite (CF m p2 Hwf), (CF m p1 Hwf). done. }
  split; [apply Over|].
  set (m' := SetParameters m pars).
  assert (Hwf' : wf m') by (by apply SetParameters_wf).
  rewrite (CF m' (GetParameters m') Hwf').
  destruct (reduced_GetParameters m' Hwf') as (-> & -> & ->).
  - unfold m'. rewrite SetParameters_asymm.
    destruct (SetParameters_sizes m pars Hwf) as (_ & _ & _ & _ & _ & _ & -> & _).
    by intros ->.
  - unfold m'. rewrite SetParameters_bsymm by apply Hwf.
    destruct (SetParameters_sizes m pars Hwf)
      as (_ & _ & _ & -> & _ & _ & _ & -> & _).
    by intros ->.
  - unfold m'. rewrite (CF m pars Hwf). reflexivity.
Qed.

End Parameters.
End RbmSpinSymmParameters.

(** ** RbmSpinSymm: the matrix of the symmetric derivatives *)
Module RbmSpinSymmDerivatives.
Import RbmSpinSymm.
Section Derivatives.
Context {T : Type} `{Scalar T}.


Add Ring T_ring_derivatives : scalar_ring.

Variable tanh : T -> T.

(** [DerMatSymm_(r,c)=1] for a list of places [(r,c)]. *)
Definition write (D : list (list T)) (e : nat * nat) : list (list T) :=
  mset e.1 e.2 one D.

Lemma mset_loop (f g : nat -> nat) (n : nat) (D0 : list (list T)) :
  for_loop n (fun p D => mset (f p) (g p) one D) D0
  = foldl write D0 (map (fun p => (f p, g p)) (seq 0 n)).
Proof.
  induction n as [|n IH]; [done|].
  rewrite for_loop_S, IH, seq_S, map_app, foldl_app. done.
Qed.

Lemma mset_loop2 (f g : nat -> nat -> nat) (r c : nat) (D0 : list (list T)) :
  for_loop r (fun i => for_loop c (fun j D => mset (f i j) (g i j) one D)) D0
  = foldl write D0
      (flat_map (fun i => map (fun j => (f i j, g i j)) (seq 0 c)) (seq 0 r)).
Proof.
  induction r as [|r IH]; [done|].
  rewrite for_loop_S, IH, seq_S, flat_map_app, foldl_app. cbn [flat_map].
  rewrite app_nil_r. apply mset_loop.
Qed.

Lemma mdims_mset (D : list (list T)) (R C r c : nat) (x : T) :
  mdims D R C -> mdims (mset r c x D) R C.
Proof.
  intros [HR HC]. unfold mset. split; [by rewrite length_alter|].
  apply Forall_alter; [done|]. intros row _ Hrow. by rewrite length_insert.
Qed.

Lemma mget_mset (D : list (list T)) (R C r c i j : nat) (x : T) :
  mdims D R C -> i < R -> j < C ->
  mget (mset r c x D) i j = if decide ((r, c) = (i, j)) then x else mget D i j.
Proof.
  intros [HR HC] Hi Hj. unfold mget, mset.
  destruct (lookup_lt_is_Some_2 D i ltac:(lia)) as [row Hrow].
  assert (Hlen : length row = C).
  { apply (proj1 (Forall_forall _ _) HC). by apply list_elem_of_lookup_2 in Hrow. }
  destruct (decide (r = i)) as [->|Hr].
  - rewrite (nth_lookup_Some _ i [] (<[c := x]> row))
      by (by rewrite list_lookup_alter_eq, Hrow).
    rewrite (nth_lookup_Some _ i [] row Hrow).
    destruct (decide (c = j)) as [->|Hc].
    + rewrite decide_True by done. apply nth_lookup_Some.
      apply list_lookup_insert_eq. lia.
    + rewrite decide_False by congruence.
      by rewrite !nth_lookup, list_lookup_insert_ne.
  - rewrite decide_False by congruence.
    by rewrite !(nth_lookup _ i), list_lookup_alter_ne.
Qed.

Lemma mdims_writes (ws : list (nat * nat)) (D : list (list T)) (R C : nat) :
  mdims D R C -> mdims (foldl write D ws) R C.
Proof.
  revert D. induction ws as [|e ws IH]; intros D HD; [done|].
  simpl. apply IH. by apply mdims_mset.
Qed.

(** After the writes, the matrix holds 1 at the places written and is
    as before elsewhere. *)
Lemma mget_writes (ws : list (nat * nat)) (D : list (list T)) (R C i j : nat) :
  mdims D R C -> i < R -> j < C ->
  mget (foldl write D ws) i j = if decide ((i, j) ∈ ws) then one else mget D i j.
Proof.
  revert D. induction ws as [|e ws IH]; intros D HD Hi Hj.
  - cbn [foldl]. rewrite decide_False; [done|]. apply not_elem_of_nil.
  - cbn [foldl]. rewrite IH by (try apply mdims_mset; done).
    unfold write at 1. rewrite (mget_mset _ R C) by done.
    destruct e as [r c]. cbn [fst snd].
    destruct (decide ((i, j) ∈ ws)) as [Hin|Hnin].
    + rewrite decide_True; [done|]. by right.
    + destruct (decide ((r, c) = (i, j))) as [E|E].
      * rewrite decide_True; [done|]. rewrite E. by left.
      * rewrite decide_False; [done|]. intros Hc. apply elem_of_cons in Hc as [Hc|Hc];
          [by symmetry in Hc|done].
Qed.

(** The first column of the bare hidden biases and of the bare weights
    in the order of [BareDerLog]. *)
Definition cb (m : @t T) : nat := if usea_ m then nv_ m else 0.
Definition cW (m : @t T) : nat := cb m + (if useb_ m then nh_ m else 0).

(** The places where [Init] writes a 1 into [DerMatSymm_]. *)
Definition places_a (m : @t T) : list (nat * nat) :=
  if usea_ m then map (fun p => (0, p)) (seq 0 (nv_ m)) else [].
Definition places_b (m : @t T) : list (nat * nat) :=
  if useb_ m
  then map (fun p => (kb m / permsize_ m + kb m, cb m + p)) (seq 0 (nh_ m))
  else [].
Definition places_W (m : @t T) : list (nat * nat) :=
  flat_map (fun i => map (fun j =>
      (j / permsize_ m + alpha_ m * nth (j mod permsize_ m) (nth i (permtable_ m) []) 0
       + kW m,
       cW m + i * nh_ m + j)) (seq 0 (nh_ m))) (seq 0 (nv_ m)).

Lemma DerMatSymm_init_places (m : t) :
  DerMatSymm_init (nv_ m) (alpha_ m) (nh_ m) (permsize_ m) (permtable_ m)
    (usea_ m) (useb_ m) (npar_ m) (nbarepar_ m)
  = foldl write (replicate (npar_ m) (replicate (nbarepar_ m) zero))
      (places_a m ++ places_b m ++ places_W m).
Proof.
  unfold DerMatSymm_init, places_a, places_b, places_W, cW, cb, kW, kb.
  destruct (usea_ m), (useb_ m);
    repeat (rewrite for_loop_counter || rewrite for_loop_counter2);
    rewrite ?foldl_app; cbn [foldl].
  - rewrite (mset_loop (fun _ => 0) (fun p => p)).
    rewrite (mset_loop (fun _ => 1 / permsize_ m + 1) (fun p => 0 + nv_ m + p)).
    rewrite (mset_loop2
      (fun i j => j / permsize_ m
                  + alpha_ m * nth (j mod permsize_ m) (nth i (permtable_ m) []) 0
                  + (1 + alpha_ m))
      (fun i j => 0 + nv_ m + nh_ m + i * nh_ m + j)).
    done.
  - rewrite (mset_loop (fun _ => 0) (fun p => p)).
    rewrite (mset_loop2
      (fun i j => j / permsize_ m
                  + alpha_ m * nth (j mod permsize_ m) (nth i (permtable_ m) []) 0 + 1)
      (fun i j => 0 + nv_ m + i * nh_ m + j)).
    by rewrite ?Nat.add_0_r.
  - rewrite (mset_loop (fun _ => 0 / permsize_ m + 0) (fun p => 0 + p)).
    rewrite (mset_loop2
      (fun i j => j / permsize_ m
                  + alpha_ m * nth (j mod permsize_ m) (nth i (permtable_ m) []) 0
                  + (0 + alpha_ m))
      (fun i j => 0 + nh_ m + i * nh_ m + j)).
    done.
  - rewrite (mset_loop2
      (fun i j => j / permsize_ m
                  + alpha_ m * nth (j mod permsize_ m) (nth i (permtable_ m) []) 0 + 0)
      (fun i j => 0 + i * nh_ m + j)).
    by rewrite ?Nat.add_0_r.
Qed.

(** 1 where the two indices agree. *)
Definition delta (k r : nat) : T := if decide (k = r) then one else zero.

(** The rows of the permutation table that [Init] and
    [SetBareParameters] read, [permtable_[i][g]] for a site [i] and
    [g < permsize_], exist and hold sites: the table has one row per site
    and every row lists [nv_] sites (the source asserts the length of the
    rows). *)
Definition table_in_range (m : @t T) : Prop :=
  permsize_ m = nv_ m
  /\ Forall (fun row => length row = nv_ m /\ Forall (fun p => p < nv_ m) row)
       (permtable_ m).

(** A machine as [Init] builds it, with any parameters installed. *)
Definition built (m : @t T) : Prop :=
  wf m /\ table_in_range m
  /\ nbarepar_ m = cW m + nv_ m * nh_ m
  /\ DerMatSymm_ m
     = DerMatSymm_init (nv_ m) (alpha_ m) (nh_ m) (permsize_ m) (permtable_ m)
         (usea_ m) (useb_ m) (npar_ m) (nbarepar_ m).

Lemma table_entry_lt (m : @t T) (i g : nat) :
  wf m -> table_in_range m -> i < nv_ m -> g < permsize_ m ->
  nth g (nth i (permtable_ m) []) 0 < nv_ m.
Proof.
  intros (Hsize & _) [HG Hrows] Hi Hg.
  assert (Hrow : nth i (permtable_ m) [] ∈ permtable_ m).
  { apply list_elem_of_In, nth_In. lia. }
  apply (proj1 (Forall_forall _ _) Hrows) in Hrow as [Hlen Hall].
  apply (proj1 (Forall_forall _ _) Hall). apply list_elem_of_In, nth_In. lia.
Qed.

Lemma div_lt_alpha (m : @t T) (j : nat) : wf m -> j < nh_ m -> j / permsize_ m < alpha_ m.
Proof.
  intros (_ & Hnh & _) Hj. rewrite Hnh in Hj.
  apply Nat.Div0.div_lt_upper_bound. lia.
Qed.

Lemma mod_lt_permsize (m : @t T) (j : nat) :
  wf m -> j < nh_ m -> j mod permsize_ m < permsize_ m.
Proof.
  intros (_ & Hnh & _) Hj. apply Nat.mod_upper_bound. rewrite Hnh in Hj. nia.
Qed.

(** *** The matrix that [Init] builds *)

Lemma DerMatSymm_entry (m : @t T) (r c : nat) :
  built m -> r < npar_ m -> c < nbarepar_ m ->
  mget (DerMatSymm_ m) r c
  = if decide ((r, c) ∈ places_a m ++ places_b m ++ places_W m) then one else zero.
Proof.
  intros (Hwf & _ & _ & ->) Hr Hc. rewrite DerMatSymm_init_places.
  rewrite (mget_writes _ _ (npar_ m) (nbarepar_ m)) by (done || apply mdims_replicate).
  destruct (decide _); [done|].
  unfold mget.
  rewrite (nth_lookup_Some _ r [] (replicate (nbarepar_ m) zero))
    by (by apply lookup_replicate_2).
  apply nth_lookup_Some. by apply lookup_replicate_2.
Qed.

Lemma elem_of_places_a (m : @t T) (r c : nat) :
  (r, c) ∈ places_a m <-> usea_ m = true /\ r = 0 /\ c < nv_ m.
Proof.
  unfold places_a. destruct (usea_ m).
  - rewrite list_elem_of_fmap. split.
    + intros (p & [= -> ->] & Hp). apply elem_of_seq in Hp. split; [done|]. lia.
    + intros (_ & -> & Hc). exists c. split; [done|]. apply elem_of_seq. lia.
  - split; [by intros ?%elem_of_nil|by intros [? _]].
Qed.

Lemma elem_of_places_b (m : @t T) (r c : nat) :
  (r, c) ∈ places_b m
  <-> useb_ m = true /\ r = kb m / permsize_ m + kb m /\ cb m <= c < cb m + nh_ m.
Proof.
  unfold places_b. destruct (useb_ m).
  - rewrite list_elem_of_fmap. split.
    + intros (p & [= -> ->] & Hp). apply elem_of_seq in Hp. split; [done|]. lia.
    + intros (_ & -> & Hc). exists (c - cb m). split; [f_equal; lia|].
      apply elem_of_seq. lia.
  - split; [by intros ?%elem_of_nil|by intros [? _]].
Qed.

Lemma elem_of_places_W (m : @t T) (r c : nat) :
  (r, c) ∈ places_W m
  <-> exists i j, i < nv_ m /\ j < nh_ m /\ c = cW m + i * nh_ m + j
        /\ r = j / permsize_ m
               + alpha_ m * nth (j mod permsize_ m) (nth i (permtable_ m) []) 0 + kW m.
Proof.
  unfold places_W. rewrite list_elem_of_In, in_flat_map. split.
  - intros (i & Hi & Hin). apply in_seq in Hi.
    apply in_map_iff in Hin as (j & [= <- <-] & Hj). apply in_seq in Hj.
    exists i, j. repeat split; lia.
  - intros (i & j & Hi & Hj & -> & ->). exists i. split; [apply in_seq; lia|].
    apply in_map_iff. exists j. split; [done|]. apply in_seq. lia.
Qed.

(** The column of a bare weight names its site and its hidden unit. *)
Lemma weight_column (n i j i' j' : nat) :
  j < n -> j' < n -> i * n + j = i' * n + j' -> i = i' /\ j = j'.
Proof. intros Hj Hj' E. assert (i = i') by nia. subst. lia. Qed.

Lemma DerMatSymm_a (m : @t T) (r c : nat) :
  built m -> usea_ m = true -> r < npar_ m -> c < nv_ m ->
  mget (DerMatSymm_ m) r c = delta 0 r.
Proof.
  intros Hb Ha Hr Hc. pose proof Hb as (Hwf & _ & Hn & _).
  assert (Hcb : cb m = nv_ m) by (unfold cb; by rewrite Ha).
  assert (HcW : cb m <= cW m) by (unfold cW; lia).
  rewrite DerMatSymm_entry by (done || lia).
  unfold delta. apply decide_ext.
  rewrite !elem_of_app, elem_of_places_a, elem_of_places_b, elem_of_places_W.
  split.
  - intros [(_ & -> & _)|[(_ & _ & ?)|(i & j & _ & _ & -> & _)]]; [done|lia|lia].
  - intros <-. by left.
Qed.

Lemma DerMatSymm_b (m : @t T) (r p : nat) :
  built m -> useb_ m = true -> r < npar_ m -> p < nh_ m ->
  mget (DerMatSymm_ m) r (cb m + p) = delta (kb m / permsize_ m + kb m) r.
Proof.
  intros Hb Hub Hr Hp. pose proof Hb as (Hwf & _ & Hn & _).
  assert (HcW : cW m = cb m + nh_ m) by (unfold cW; by rewrite Hub).
  assert (Hcb : usea_ m = true -> cb m = nv_ m) by (unfold cb; by intros ->).
  rewrite DerMatSymm_entry by (done || lia).
  unfold delta. apply decide_ext.
  rewrite !elem_of_app, elem_of_places_a, elem_of_places_b, elem_of_places_W.
  split.
  - intros [(Ha & _ & ?)|[(_ & -> & _)|(i & j & _ & _ & ? & _)]];
      [specialize (Hcb Ha); lia|done|lia].
  - intros <-. right. left. split; [done|]. split; [done|lia].
Qed.

Lemma DerMatSymm_W (m : @t T) (r i j : nat) :
  built m -> r < npar_ m -> i < nv_ m -> j < nh_ m ->
  mget (DerMatSymm_ m) r (cW m + i * nh_ m + j)
  = delta (kW m + nth (j mod permsize_ m) (nth i (permtable_ m) []) 0 * alpha_ m
           + j / permsize_ m) r.
Proof.
  intros Hb Hr Hi Hj. pose proof Hb as (Hwf & _ & Hn & _).
  assert (HcW : cb m <= cW m /\ (useb_ m = true -> cW m = cb m + nh_ m)).
  { unfold cW. split; [lia|]. by intros ->. }
  assert (Hcb : usea_ m = true -> cb m = nv_ m) by (unfold cb; by intros ->).
  rewrite DerMatSymm_entry by (done || nia).
  unfold delta. apply decide_ext.
  rewrite !elem_of_app, elem_of_places_a, elem_of_places_b, elem_of_places_W.
  split.
  - intros [(Ha & _ & ?)|[(Hub & _ & ?)|(i' & j' & _ & Hj' & E & ->)]].
    + specialize (Hcb Ha). lia.
    + destruct HcW as [_ HcW]. specialize (HcW Hub). lia.
    + destruct (weight_column (nh_ m) i j i' j') as [<- <-]; [done|done|lia|]. lia.
  - intros <-. right. right. exists i, j. repeat split; try done. lia.
Qed.

(** *** The map of the expansion *)

Lemma nth_unit (n k r : nat) :
  r < n ->
  nth k (map (fun i => if decide (i = r) then one else zero) (seq 0 n)) zero
  = delta k r.
Proof.
  intros Hr. unfold delta. destruct (decide (k < n)) as [Hk|Hk].
  - by rewrite nth_map_seq.
  - rewrite nth_overflow by (rewrite length_map, length_seq; lia).
    rewrite decide_False; [done|lia].
Qed.

Lemma J_a (m : @t T) (r c : nat) :
  wf m -> usea_ m = true -> r < npar_ m -> c < nv_ m -> J m c r = delta 0 r.
Proof.
  intros Hwf Ha Hr Hc. unfold J, BareParameters.
  destruct (SetParameters_sizes m
              (map (fun i => if decide (i = r) then one else zero) (seq 0 (npar_ m))) Hwf)
    as (_ & _ & _ & _ & _ & _ & -> & _).
  rewrite Ha, SetParameters_a by done.
  rewrite app_nth1 by (rewrite length_map, length_seq; lia).
  rewrite (nth_map_seq (fun _ => reduced_a m _)) by done.
  unfold reduced_a. rewrite Ha. by apply nth_unit.
Qed.

Lemma J_b (m : @t T) (r p : nat) :
  wf m -> useb_ m = true -> r < npar_ m -> p < nh_ m ->
  J m (cb m + p) r = delta (kb m + p / permsize_ m) r.
Proof.
  intros Hwf Hub Hr Hp. unfold J, BareParameters.
  destruct (SetParameters_sizes m
              (map (fun i => if decide (i = r) then one else zero) (seq 0 (npar_ m))) Hwf)
    as (_ & _ & _ & _ & _ & _ & -> & -> & _).
  rewrite Hub, SetParameters_a, SetParameters_b by done.
  assert (E : length (if usea_ m
                      then map (fun _ => reduced_a m
                             (map (fun i => if decide (i = r) then one else zero)
                                (seq 0 (npar_ m)))) (seq 0 (nv_ m))
                      else []) = cb m).
  { unfold cb. destruct (usea_ m); [by rewrite length_map, length_seq|done]. }
  rewrite app_nth2 by lia. rewrite E.
  replace (cb m + p - cb m) with p by lia.
  rewrite app_nth1 by (rewrite length_map, length_seq; lia).
  rewrite (nth_map_seq (fun j => nth (j / permsize_ m) (reduced_b m _) zero)) by done.
  unfold reduced_b. rewrite Hub.
  rewrite (nth_map_seq (fun q => nth (kb m + q) _ zero)) by (by apply div_lt_alpha).
  by apply nth_unit.
Qed.

Lemma J_W (m : @t T) (r i j : nat) :
  wf m -> table_in_range m -> r < npar_ m -> i < nv_ m -> j < nh_ m ->
  J m (cW m + i * nh_ m + j) r
  = delta (kW m + nth (j mod permsize_ m) (nth i (permtable_ m) []) 0 * alpha_ m
           + j / permsize_ m) r.
Proof.
  intros Hwf Ht Hr Hi Hj. unfold J, BareParameters.
  set (e := map (fun i => if decide (i = r) then one else zero) (seq 0 (npar_ m))).
  destruct (SetParameters_sizes m e Hwf) as (_ & _ & _ & _ & _ & _ & -> & -> & _).
  rewrite SetParameters_a, SetParameters_b, SetParameters_W by done.
  rewrite app_assoc.
  assert (E : length ((if usea_ m
                       then map (fun _ => reduced_a m e) (seq 0 (nv_ m)) else [])
                      ++ (if useb_ m
                          then map (fun j => nth (j / permsize_ m) (reduced_b m e) zero)
                                 (seq 0 (nh_ m))
                          else [])) = cW m).
  { unfold cW, cb. rewrite length_app.
    destruct (usea_ m), (useb_ m); by rewrite ?length_map, ?length_seq. }
  rewrite app_nth2 by lia. rewrite E.
  replace (cW m + i * nh_ m + j - cW m) with (i * nh_ m + j) by lia.
  rewrite (nth_concat_rows zero _ (nv_ m) (nh_ m)); [|apply mdims_map..|done|done].
  fold (mget (map (fun i => map (fun j =>
          mget (reduced_W m e) (nth (j mod permsize_ m) (nth i (permtable_ m) []) 0)
            (j / permsize_ m)) (seq 0 (nh_ m))) (seq 0 (nv_ m))) i j).
  rewrite (mget_map (fun i j =>
    mget (reduced_W m e) (nth (j mod permsize_ m) (nth i (permtable_ m) []) 0)
      (j / permsize_ m))) by done.
  unfold reduced_W.
  rewrite (mget_map (fun i j => nth (kW m + i * alpha_ m + j) e zero)).
  - by apply nth_unit.
  - apply table_entry_lt; try done. by apply mod_lt_permsize.
  - by apply div_lt_alpha.
Qed.

(** *** Machines that [Init] and [SetParameters] leave *)

Lemma Init_built (nv alpha : nat) (usea useb : bool) (permtable : list (list nat)) :
  length permtable = nv ->
  Forall (fun row => length row = nv /\ Forall (fun p => p < nv) row) permtable ->
  built (Init nv alpha usea useb permtable).
Proof.
  intros Hlen Hrows. split; [apply Init_wf|]. split; [|split].
  - unfold table_in_range, Init. by destruct usea, useb.
  - unfold Init, cW, cb. destruct usea, useb; cbn; lia.
  - unfold Init. by destruct usea, useb.
Qed.

Lemma SetParameters_built (m : @t T) (pars : list T) :
  built m -> built (SetParameters m pars).
Proof.
  intros (Hwf & [HG Hrows] & Hn & HD).
  assert (En : nbarepar_ (SetParameters m pars) = nbarepar_ m)
    by (by rewrite SetParameters_eq).
  destruct (SetParameters_sizes m pars Hwf) as (E1 & E2 & E3 & E4 & E5 & E6 & E7 & E8 & E9).
  split; [by apply SetParameters_wf|].
  unfold table_in_range, cW, cb. rewrite E1, E2, E3, E4, E5, E6, E7, E8, E9, En.
  done.
Qed.

Lemma mdims_DerMatSymm (m : @t T) :
  built m -> mdims (DerMatSymm_ m) (npar_ m) (nbarepar_ m).
Proof.
  intros (_ & _ & _ & ->). rewrite DerMatSymm_init_places.
  apply mdims_writes, mdims_replicate.
Qed.

Lemma length_fill_loop {A : Type} (g : nat -> nat) (f : nat -> A) (n : nat) (a0 : list A) :
  length (for_loop n (fun p a => <[g p := f p]> a) a0) = length a0.
Proof. induction n as [|n IH]; [done|]. by rewrite for_loop_S, length_insert. Qed.

Lemma length_fill_loop2 {A : Type} (g : nat -> nat -> nat) (f : nat -> nat -> A)
    (r c : nat) (a0 : list A) :
  length (for_loop r (fun i => for_loop c (fun j a => <[g i j := f i j]> a)) a0)
  = length a0.
Proof.
  induction r as [|r IH]; [done|].
  by rewrite for_loop_S, (length_fill_loop (g r) (f r)).
Qed.

Lemma length_BareDerLog (m : @t T) (v : list T) :
  length (BareDerLog tanh m v) = nbarepar_ m.
Proof.
  unfold BareDerLog.
  destruct (usea_ m), (useb_ m);
    repeat (rewrite for_loop_counter || rewrite for_loop_counter2);
    repeat (rewrite (length_fill_loop2 (fun i j => _ + i * nh_ m + j)
                       (fun i j => (nth j (map tanh (thetas m v)) zero * nth i v zero)%T))
            || rewrite (length_fill_loop (fun p => _ + p)
                          (fun p => nth p (map tanh (thetas m v)) zero))
            || rewrite (length_fill_loop (fun p => 0 + p) (fun p => nth (0 + p) v zero)));
    apply length_replicate.
Qed.

Lemma DerMatSymm_columns (m : @t T) (r c : nat) :
  built m -> r < npar_ m -> c < nbarepar_ m -> c < cb m \/ cW m <= c ->
  mget (DerMatSymm_ m) r c = J m c r.
Proof.
  intros Hb Hr Hc Hcol. pose proof Hb as (Hwf & Ht & Hn & _).
  destruct (decide (c < cb m)) as [Hlt|Hge].
  - assert (Ha : usea_ m = true).
    { unfold cb in Hlt. destruct (usea_ m); [done|lia]. }
    assert (Hcv : c < nv_ m) by (unfold cb in Hlt; by rewrite Ha in Hlt).
    by rewrite DerMatSymm_a, J_a.
  - assert (HcW : cW m <= c) by (destruct Hcol; [done|lia]).
    assert (Hnh : 0 < nh_ m) by nia.
    pose proof (Nat.div_mod_eq (c - cW m) (nh_ m)) as Ediv.
    pose proof (Nat.mod_upper_bound (c - cW m) (nh_ m) ltac:(lia)) as Hmod.
    assert (Hi : (c - cW m) / nh_ m < nv_ m)
      by (apply Nat.Div0.div_lt_upper_bound; nia).
    replace c with (cW m + (c - cW m) / nh_ m * nh_ m + (c - cW m) mod nh_ m) by nia.
    by rewrite DerMatSymm_W, J_W.
Qed.

(** X10.  Outside the columns of the bare hidden biases, the matrix
    [DerMatSymm_] that [Init] builds is the transpose of the map [J]
    that the expansion of the parameters induces: the entry at the row of
    a reduced parameter and the column of a bare visible bias or of a
    bare weight is the derivative of the latter in the former. *)
Theorem DerMatSymm_transpose (m : @t T) (r c : nat) :
  built m -> r < npar_ m -> c < nbarepar_ m ->
  (useb_ m = true -> c < cb m \/ cW m <= c) ->
  mget (DerMatSymm_ m) r c = J m c r.
Proof.
  intros Hb Hr Hc Hcol. apply DerMatSymm_columns; try done.
  destruct (useb_ m) eqn:Hub; [by apply Hcol|].
  unfold cW. rewrite Hub. lia.
Qed.

(** X11.  For a machine without hidden bias, or with one feature
    channel (and at least two symmetry operations, or no visible bias),
    [DerLog(v)] is [J^T] applied to the bare derivatives, the gradient of
    [LogVal] in the reduced parameters by the chain rule. *)
Theorem DerLog_chain_rule (m : @t T) (v : list T) :
  built m ->
  useb_ m = false
  \/ (alpha_ m = 1 /\ (usea_ m = false \/ 2 <= permsize_ m)) ->
  DerLog tanh m v = DerLog_spec tanh m v.
Proof.
  intros Hb Hcond. pose proof Hb as (Hwf & Ht & Hn & _).
  pose proof (mdims_DerMatSymm m Hb) as [HDr HDc].
  assert (Entry : forall r c, r < npar_ m -> c < nbarepar_ m ->
            mget (DerMatSymm_ m) r c = J m c r).
  { intros r c Hr Hc.
    destruct (decide (cb m <= c < cW m)) as [Hin|Hout].
    - assert (Hub : useb_ m = true).
      { unfold cW in Hin. destruct (useb_ m); [done|lia]. }
      destruct Hcond as [Hc0|[Halpha Hk]]; [congruence|].
      assert (HcW : cW m = cb m + nh_ m) by (unfold cW; by rewrite Hub).
      replace c with (cb m + (c - cb m)) by lia.
      rewrite DerMatSymm_b, J_b by (done || lia). f_equal.
      pose proof Hwf as (_ & Hnh & _). rewrite Halpha in Hnh.
      rewrite (Nat.div_small (c - cb m)) by lia.
      unfold kb. destruct Hk as [->|HG]; [by rewrite Nat.Div0.div_0_l|].
      destruct (usea_ m); [|by rewrite Nat.Div0.div_0_l].
      rewrite Nat.div_small by lia. done.
    - apply (DerMatSymm_columns m r c Hb Hr Hc). lia. }
  unfold DerLog, DerLog_spec, mul_vec.
  rewrite <- (map_nth_all [] (DerMatSymm_ m)) at 1. rewrite HDr, map_map.
  apply map_ext_in. intros r Hr. apply in_seq in Hr.
  assert (Hrow : length (nth r (DerMatSymm_ m) []) = nbarepar_ m).
  { apply (proj1 (Forall_forall _ _) HDc). apply list_elem_of_In, nth_In. lia. }
  rewrite (dot_map_seq _ _ (nbarepar_ m)) by (done || apply length_BareDerLog).
  f_equal. apply map_ext_in. intros c Hc. apply in_seq in Hc.
  f_equal. apply Entry; lia.
Qed.

End Derivatives.
End RbmSpinSymmDerivatives.


(** ** MetropolisLocal: resetting, sweeping and the acceptance ratio *)
Module MetropolisLocalRuns.
Import MetropolisLocal.

(** The quotient of two doubles that are numbers: a number, an infinity
    (a non-zero number divided by zero) or NaN (zero divided by zero). *)
Inductive quotient := Ratio (x : R) | Infinite | NotANumber.

Definition ddiv (a b : R) : quotient :=
  if Req_dec_T b 0 then (if Req_dec_T a 0 then NotANumber else Infinite)
  else Ratio (a / b).

Lemma Rdiv_unit (a b : R) : (0 <= a <= b)%R -> (0 < b)%R -> (0 <= a / b <= 1)%R.
Proof.
  intros [Ha Hab] Hb. pose proof (Rinv_0_lt_compat b Hb). unfold Rdiv. split.
  - apply Rmult_le_pos; lra.
  - replace 1%R with (b * / b)%R by (field; lra). apply Rmult_le_compat_r; lra.
Qed.

Section Runs.

(** The machine, as in [MetropolisLocal], with [InitLookup]; and
    [hilbert_.RandomVals], which may abort. *)
Variable LookupType : Type.
Variable StateType : Type.
Variable LogValDiff : list R -> list nat -> list R -> LookupType -> StateType.
Variable UpdateLookup : list R -> list nat -> list R -> LookupType -> LookupType.
Variable InitLookup : list R -> LookupType -> LookupType.
Variable norm_exp : StateType -> double.
Variable RandomVals : list R -> rng -> option (list R * rng).

Local Abbreviation sampler := (MetropolisLocal.t LookupType).
Local Abbreviation Proposal := (MetropolisLocal.Proposal _ _ LogValDiff UpdateLookup norm_exp).
Local Abbreviation Sweep := (MetropolisLocal.Sweep _ _ LogValDiff UpdateLookup norm_exp).
Local Abbreviation iterations :=
  (MetropolisLocal.iterations _ _ LogValDiff UpdateLookup norm_exp).

(** [Reset(initrandom)] *)
Definition Reset (initrandom : bool) (s : sampler) : option sampler :=
  let drawn :=
    if initrandom then RandomVals (v_ _ s) (rgen_ _ s) else Some (v_ _ s, rgen_ _ s) in
  match drawn with
  | Some (v, rgen) =>
      Some {| nv_ := nv_ _ s; nstates_ := nstates_ _ s; localstates_ := localstates_ _ s;
              v_ := v; accept_ := 0%R; moves_ := 0%R;
              lt_ := InitLookup v (lt_ _ s); rgen_ := rgen |}
  | None => None
  end.

(** [Visible()] and [SetVisible(v)] *)
Definition Visible (s : sampler) : list R := v_ _ s.
Definition SetVisible (s : sampler) (v : list R) : sampler :=
  {| nv_ := nv_ _ s; nstates_ := nstates_ _ s; localstates_ := localstates_ _ s;
     v_ := v; accept_ := accept_ _ s; moves_ := moves_ _ s;
     lt_ := lt_ _ s; rgen_ := rgen_ _ s |}.

(** [Acceptance()]: the one coefficient of [accept_] divided by that of
    [moves_]. *)
Definition Acceptance (s : sampler) : quotient := ddiv (accept_ _ s) (moves_ _ s).

(** [n] sweeps in a row. *)
Definition Sweeps (n : nat) (s : sampler) : option sampler :=
  for_loop n (fun _ os => match os with Some s => Sweep s | None => None end) (Some s).

(** What a proposal never touches. *)
Lemma Proposal_frame (s s' : sampler) :
  Proposal s = Some s' ->
  nstates_ _ s' = nstates_ _ s /\ localstates_ _ s' = localstates_ _ s.
Proof.
  unfold MetropolisLocal.Proposal.
  destruct (draw_move _ s) as [[[si l] g]|]; [|done].
  unfold accept_test. destruct (unif_draws g) as [|u unifs]; [done|].
  destruct (dgt _ u); by intros [= <-].
Qed.

(** A property that every proposal keeps holds after any number of
    them, and after any number of sweeps. *)
Lemma iterations_invariant (I : sampler -> Prop) :
  (forall s s', I s -> Proposal s = Some s' -> I s') ->
  forall k s s', I s -> iterations k s = Some s' -> I s'.
Proof.
  intros Hstep. induction k as [|k IH]; intros s s' Hs.
  - by intros [= <-].
  - intros Hk. apply iterations_S in Hk as (s1 & Hk & Hp).
    apply (Hstep s1); [|done]. by apply (IH s).
Qed.

Lemma Sweeps_S (n : nat) (s s' : sampler) :
  Sweeps (S n) s = Some s' -> exists s1, Sweeps n s = Some s1 /\ Sweep s1 = Some s'.
Proof.
  unfold Sweeps. rewrite for_loop_S.
  destruct (for_loop n _ (Some s)) as [s1|]; [|done]. intros Hp. by exists s1.
Qed.

Lemma Sweeps_invariant (I : sampler -> Prop) :
  (forall s s', I s -> Proposal s = Some s' -> I s') ->
  forall n s s', I s -> Sweeps n s = Some s' -> I s'.
Proof.
  intros Hstep. induction n as [|n IH]; intros s s' Hs.
  - by intros [= <-].
  - intros Hn. apply Sweeps_S in Hn as (s1 & Hn & Hsw).
    apply (iterations_invariant I Hstep (nv_ _ s1) s1); [|done]. by apply (IH s).
Qed.

(** X12.  A sweep changes neither the number of sites, nor the local
    states, nor the length of the configuration; and a configuration made
    of local states is still one after the sweep. *)
Theorem Sweep_configuration (s s' : sampler) :
  Sweep s = Some s' ->
  nv_ _ s' = nv_ _ s /\ nstates_ _ s' = nstates_ _ s
  /\ localstates_ _ s' = localstates_ _ s
  /\ length (v_ _ s') = length (v_ _ s)
  /\ (Forall (fun x => x ∈ localstates_ _ s) (v_ _ s) ->
      Forall (fun x => x ∈ localstates_ _ s') (v_ _ s')).
Proof.
  intros Hs.
  apply (iterations_invariant (fun s1 =>
    nv_ _ s1 = nv_ _ s /\ nstates_ _ s1 = nstates_ _ s
    /\ localstates_ _ s1 = localstates_ _ s
    /\ length (v_ _ s1) = length (v_ _ s)
    /\ (Forall (fun x => x ∈ localstates_ _ s) (v_ _ s) ->
        Forall (fun x => x ∈ localstates_ _ s1) (v_ _ s1))))
    with (k := nv_ _ s) (s := s); [|by rewrite ?Forall_forall|exact Hs].
  clear s' Hs. intros s1 s2 (E1 & E2 & E3 & E4 & E5) Hp.
  destruct (Proposal_frame s1 s2 Hp) as [F1 F2].
  apply Proposal_spec in Hp as (si & l & u & unifs & _ & Hsi & Hl & _ & Hnv & _ & Hacc).
  rewrite Hnv, F1, F2. do 3 (split; [done|]).
  destruct (dgt _ u).
  - destruct Hacc as (_ & _ & ->). rewrite UpdateConf_single, length_insert.
    split; [done|]. intros Hall. apply Forall_insert; [by apply E5|done].
  - destruct Hacc as (_ & _ & ->). split; [done|]. intros Hall.
    rewrite E3. rewrite <- E3. by apply E5.
Qed.

(** The counters after some proposals. *)
Lemma iterations_counters (k : nat) (s s' : sampler) :
  iterations k s = Some s' ->
  nv_ _ s' = nv_ _ s
  /\ moves_ _ s' = (moves_ _ s + INR k)%R
  /\ (accept_ _ s <= accept_ _ s' <= accept_ _ s + INR k)%R.
Proof.
  revert s'. induction k as [|k IH]; intros s'.
  - intros [= <-]. cbn. split; [done|]. split; lra.
  - intros Hk. apply iterations_S in Hk as (s1 & Hk & Hp).
    apply IH in Hk as (Env & Em & Ha).
    apply Proposal_spec in Hp as (si & l & u & unifs & _ & _ & _ & _ & Hnv & Hm & Hacc).
    rewrite S_INR. split; [congruence|]. split; [rewrite Hm, Em; lra|].
    destruct (dgt _ u); destruct Hacc as (-> & _); lra.
Qed.

Lemma Sweeps_counters (n : nat) (s s' : sampler) :
  Sweeps n s = Some s' ->
  nv_ _ s' = nv_ _ s
  /\ moves_ _ s' = (moves_ _ s + INR (n * nv_ _ s))%R
  /\ (accept_ _ s <= accept_ _ s' <= accept_ _ s + INR (n * nv_ _ s))%R.
Proof.
  revert s'. induction n as [|n IH]; intros s'.
  - intros [= <-]. cbn. split; [done|]. split; lra.
  - intros Hn. apply Sweeps_S in Hn as (s1 & Hn & Hsw).
    apply IH in Hn as (Env & Em & Ha).
    apply iterations_counters in Hsw as (Env' & Em' & Ha').
    rewrite Env in *. replace (S n * nv_ _ s) with (n * nv_ _ s + nv_ _ s) by lia.
    rewrite plus_INR. split; [done|]. split; lra.
Qed.

(** X13.  After [Reset] and [n] sweeps the moves counter is
    [n * nv_], the accept counter lies between 0 and the moves counter,
    and [Acceptance()] is their ratio, a number between 0 and 1; when no
    proposal has been made since [Reset] it is 0/0, NaN. *)
Theorem Acceptance_ratio (initrandom : bool) (n : nat) (s s0 s' : sampler) :
  Reset initrandom s = Some s0 -> Sweeps n s0 = Some s' ->
  moves_ _ s' = INR (n * nv_ _ s)
  /\ (0 <= accept_ _ s' <= moves_ _ s')%R
  /\ (n * nv_ _ s = 0 -> Acceptance s' = NotANumber)
  /\ (n * nv_ _ s <> 0 ->
      exists r, Acceptance s' = Ratio r /\ r = (accept_ _ s' / moves_ _ s')%R
                /\ (0 <= r <= 1)%R).
Proof.
  intros Hr Hs.
  assert (E0 : nv_ _ s0 = nv_ _ s /\ moves_ _ s0 = 0%R /\ accept_ _ s0 = 0%R).
  { unfold Reset in Hr. destruct (if initrandom then _ else _) as [[v g]|]; [|done].
    by injection Hr as <-. }
  destruct E0 as (Env & Em0 & Ea0).
  apply Sweeps_counters in Hs as (_ & Em & Ha).
  rewrite Env, Em0 in Em. rewrite Env, Ea0 in Ha.
  rewrite Rplus_0_l in Em, Ha.
  split; [done|]. split; [lra|]. unfold Acceptance, ddiv. split.
  - intros Hz. rewrite Hz in *. cbn in Em, Ha.
    destruct (Req_dec_T (moves_ _ s') 0); [|done].
    destruct (Req_dec_T (accept_ _ s') 0); [done|lra].
  - intros Hnz. assert (Hpos : (0 < moves_ _ s')%R).
    { rewrite Em. apply lt_0_INR. lia. }
    destruct (Req_dec_T (moves_ _ s') 0); [lra|].
    eexists. split; [done|]. split; [done|]. apply Rdiv_unit; lra.
Qed.

(** *** Drawing the samples of an iteration *)

(** One round of the loop of [Sr::Sample]: a sweep, and the
    configuration written to the row [i] of [vsamp_], which is lost when
    the configuration has not as many sites as the row has columns. *)
Definition Sample_round (Nvisible : nat) (i : nat)
    (o : option (sampler * list (list R))) : option (sampler * list (list R)) :=
  match o with
  | None => None
  | Some (s, vsamp) =>
      match Sweep s with
      | Some s =>
          if decide (length (Visible s) = Nvisible)
          then Some (s, <[i := Visible s]> vsamp) else None
      | None => None
      end
  end.

(** [Sr::Sample(nsweeps)] on one of [totalnodes] workers: the sampler is
    reset (keeping its configuration) and swept
    [ceil(nsweeps / totalnodes)] times; the configuration after each
    sweep is a row of [vsamp_], which has [Nvisible] columns.  Without
    workers, or with a negative number of rows, nothing is returned. *)
Definition Sample (nsweeps : Q) (totalnodes Nvisible : nat) (s : sampler)
    : option (sampler * list (list R)) :=
  match Reset false s with
  | None => None
  | Some s =>
      if decide (totalnodes = 0) then None
      else
        let sweepnode := Qceiling (nsweeps / inject_Z (Z.of_nat totalnodes)) in
        if (sweepnode <? 0)%Z then None
        else
          let vsamp := replicate (Z.to_nat sweepnode) (replicate Nvisible 0%R) in
          for_loop (Z.to_nat sweepnode) (Sample_round Nvisible) (Some (s, vsamp))
  end.

(** The configuration after the sweep [i] (counted from 0). *)
Definition visible_after (s0 : sampler) (i : nat) : list R :=
  match Sweeps (S i) s0 with Some s => Visible s | None => [] end.

Lemma Sample_loop (Nvisible : nat) (s0 s' : sampler) (n k : nat) (row0 : list R)
    (vsamp : list (list R)) :
  k <= n ->
  for_loop k (Sample_round Nvisible) (Some (s0, replicate n row0)) = Some (s', vsamp) ->
  Sweeps k s0 = Some s'
  /\ vsamp = map (visible_after s0) (seq 0 k) ++ replicate (n - k) row0
  /\ forall i, i < k ->
       exists si, Sweeps (S i) s0 = Some si /\ visible_after s0 i = Visible si
                  /\ length (Visible si) = Nvisible.
Proof.
  revert s' vsamp. induction k as [|k IH]; intros s' vsamp Hk.
  - intros [= <- <-]. split; [done|]. split; [by rewrite Nat.sub_0_r|]. lia.
  - rewrite for_loop_S.
    destruct (for_loop k _ _) as [[sk vs]|] eqn:Ek; [|done].
    destruct (IH sk vs ltac:(lia) eq_refl) as (Hsw & -> & Hrows).
    cbn [Sample_round].
    destruct (MetropolisLocal.Sweep _ _ _ _ _ sk) as [s1|] eqn:E1; [|done].
    destruct (decide (length (Visible s1) = Nvisible)) as [Hlen|]; [|done].
    intros [= <- <-].
    assert (Es : Sweeps (S k) s0 = Some s1).
    { unfold Sweeps. rewrite for_loop_S. fold (Sweeps k s0). by rewrite Hsw. }
    assert (Ev : visible_after s0 k = Visible s1).
    { unfold visible_after. by rewrite Es. }
    split; [done|]. split.
    + rewrite seq_S, map_app. cbn [map Nat.add]. rewrite Ev.
      replace (n - k) with (S (n - S k)) by lia. cbn [replicate].
      rewrite <- (Nat.add_0_r k) at 1.
      replace (k + 0) with (length (map (visible_after s0) (seq 0 k)) + 0)
        by (rewrite length_map, length_seq; lia).
      rewrite insert_app_r. cbn. by rewrite <- app_assoc.
    + intros i Hi. destruct (decide (i = k)) as [->|Hne].
      * by exists s1.
      * apply Hrows. lia.
Qed.

Lemma ceiling_nodes (nsweeps : Q) (totalnodes : nat) :
  0 < totalnodes ->
  (0 <= Qceiling (nsweeps / inject_Z (Z.of_nat totalnodes)))%Z ->
  let sweepnode := Z.to_nat (Qceiling (nsweeps / inject_Z (Z.of_nat totalnodes))) in
  (nsweeps <= inject_Z (Z.of_nat (sweepnode * totalnodes)))%Q
  /\ (inject_Z (Z.of_nat (sweepnode * totalnodes))
      < nsweeps + inject_Z (Z.of_nat totalnodes))%Q.
Proof.
  intros HW Hz sweepnode.
  set (W := inject_Z (Z.of_nat totalnodes)).
  assert (HWpos : (0 < W)%Q).
  { unfold W. change 0%Q with (inject_Z 0). rewrite <- Zlt_Qlt. lia. }
  fold W in Hz, sweepnode.
  set (x := (nsweeps / W)%Q) in *.
  assert (Ex : (x * W == nsweeps)%Q).
  { unfold x. field. intros E. rewrite E in HWpos. by apply Qlt_irrefl in HWpos. }
  pose proof (Qle_ceiling x) as Hc1. pose proof (Qceiling_lt x) as Hc2.
  assert (Es : inject_Z (Z.of_nat (sweepnode * totalnodes))
               == inject_Z (Qceiling x) * W).
  { unfold sweepnode, W. rewrite Nat2Z.inj_mul, Z2Nat.id by done.
    by rewrite inject_Z_mult. }
  rewrite Es, <- Ex. split.
  - by apply Qmult_le_compat_r; [|apply Qlt_le_weak].
  - assert (H3 : (inject_Z (Qceiling x - 1) * W < x * W)%Q)
      by (by apply Qmult_lt_compat_r).
    unfold Zminus in H3. rewrite inject_Z_plus, inject_Z_opp in H3.
    change (inject_Z 1) with 1%Q in H3.
    generalize dependent (inject_Z (Qceiling x)). intros a _ _ H3.
    generalize dependent (x * W)%Q. intros y _ H3.
    clearbody W. clear -H3.
    assert (E : ((a + - (1)) * W == a * W - W)%Q) by ring.
    rewrite E in H3. apply (proj1 (Qplus_lt_l (a * W) (y + W) (- W))).
    assert (E2 : (y + W + - W == y)%Q) by ring. by rewrite E2.
Qed.

(** X14.  When [Sample] returns, [vsamp_] has
    [ceil(nsweeps / totalnodes)] rows of [Nvisible] columns, so the
    workers together hold at least [nsweeps] samples and fewer than
    [nsweeps + totalnodes]; the row [i] is the configuration after the
    sweep [i] since the reset, and the moves counter ends at the number
    of rows times [nv_]. *)
Theorem Sample_rows (nsweeps : Q) (totalnodes Nvisible : nat) (s s' : sampler)
    (vsamp : list (list R)) :
  Sample nsweeps totalnodes Nvisible s = Some (s', vsamp) ->
  Z.of_nat (length vsamp) = Qceiling (nsweeps / inject_Z (Z.of_nat totalnodes))
  /\ (nsweeps <= inject_Z (Z.of_nat (length vsamp * totalnodes)))%Q
  /\ (inject_Z (Z.of_nat (length vsamp * totalnodes))
      < nsweeps + inject_Z (Z.of_nat totalnodes))%Q
  /\ exists s0,
       Reset false s = Some s0
       /\ Sweeps (length vsamp) s0 = Some s'
       /\ moves_ _ s' = INR (length vsamp * nv_ _ s)
       /\ forall i, i < length vsamp ->
            exists si, Sweeps (S i) s0 = Some si /\ nth i vsamp [] = Visible si
                       /\ length (nth i vsamp []) = Nvisible.
Proof.
  intros Hs. unfold Sample in Hs.
  destruct (Reset false s) as [s0|] eqn:Er; [|done].
  destruct (decide (totalnodes = 0)) as [|HW]; [done|]. cbn zeta in Hs.
  destruct (Z.ltb_spec (Qceiling (nsweeps / inject_Z (Z.of_nat totalnodes))) 0)
    as [|Hz]; [done|].
  apply Sample_loop in Hs as (En & -> & Hrows); [|done].
  rewrite Nat.sub_diag, app_nil_r. rewrite length_map, length_seq.
  destruct (ceiling_nodes nsweeps totalnodes ltac:(lia) Hz) as [H1 H2].
  split; [by rewrite Z2Nat.id|].
  split; [done|]. split; [done|]. exists s0. split; [done|]. split; [done|].
  split.
  - apply Sweeps_counters in En as (_ & -> & _).
    unfold Reset in Er. cbn in Er. injection Er as <-. cbn. lra.
  - intros i Hi. rewrite nth_map_seq by done.
    destruct (Hrows i Hi) as (si & E1 & E2 & E3). exists si.
    split; [done|]. split; [done|]. by rewrite E2.
Qed.

End Runs.

(** *** The sampler on a symmetric RBM over the doubles *)
Section OnRbm.
Variable lncosh : R -> R.
Variable norm_exp : R -> double.
Variable RandomVals : list R -> rng -> option (list R * rng).
Variable m : RbmSpinSymm.t (T := R).
Hypothesis Hwf : RbmSpinSymm.wf m.

Local Abbreviation sampler := (MetropolisLocal.t (RbmSpinSymm.LookupType (T := R))).
Local Abbreviation Proposal :=
  (MetropolisLocal.Proposal _ _ (RbmSpinSymm.LogValDiffLt lncosh m)
     (RbmSpinSymm.UpdateLookup m) norm_exp).

(** The sampler's table is in step with its configuration. *)
Definition coherent (s : sampler) : Prop :=
  nv_ _ s = RbmSpinSymm.nv_ m /\ length (v_ _ s) = RbmSpinSymm.nv_ m
  /\ RbmSpinSymmMoves.in_step m (v_ _ s) (lt_ _ s).

Lemma Proposal_coherent (s s' : sampler) :
  coherent s -> Proposal s = Some s' -> coherent s'.
Proof.
  intros (Hnv & Hlen & Hstep) Hp.
  apply Proposal_spec in Hp as (si & l & u & unifs & _ & Hsi & _ & _ & Hnv' & _ & Hacc).
  unfold coherent. rewrite Hnv'.
  destruct (dgt _ u).
  - destruct Hacc as (_ & -> & ->). split; [done|].
    split; [by rewrite RbmSpinSymm.length_UpdateConf|].
    rewrite (RbmSpinSymmMoves.UpdateLookup_step m) by
      (done || apply NoDup_singleton || (apply Forall_singleton; lia)).
    done.
  - by destruct Hacc as (_ & -> & ->).
Qed.

(** X15.  On a symmetric RBM over the doubles, in exact arithmetic: a
    proposal made with a table in step with the configuration leaves
    them in step; before it, [LogVal(v_, lt_)] is [LogVal(v_)], and when
    it is accepted the change of [LogVal] is the log-ratio it was decided
    on (the two checks that [Sweep] makes when it is compiled without
    NDEBUG).  After [Reset] and any number of sweeps the table is in step
    with the configuration. *)
Theorem Sweep_lookup_coherent :
  (forall s s', coherent s -> Proposal s = Some s' ->
     coherent s'
     /\ RbmSpinSymm.LogValLt lncosh m (v_ _ s) (lt_ _ s)
        = RbmSpinSymm.LogVal lncosh m (v_ _ s)
     /\ (v_ _ s' = v_ _ s
         \/ exists si l,
              v_ _ s' = UpdateConf (v_ _ s) [si] [l]
              /\ (RbmSpinSymm.LogVal lncosh m (v_ _ s')
                  - RbmSpinSymm.LogVal lncosh m (v_ _ s))%R
                 = RbmSpinSymm.LogValDiffLt lncosh m (v_ _ s) [si] [l] (lt_ _ s)))
  /\ (forall initrandom n s s0 s',
        nv_ _ s = RbmSpinSymm.nv_ m ->
        Reset _ (RbmSpinSymm.InitLookup m) RandomVals initrandom s = Some s0 ->
        length (v_ _ s0) = RbmSpinSymm.nv_ m ->
        Sweeps _ _ (RbmSpinSymm.LogValDiffLt lncosh m) (RbmSpinSymm.UpdateLookup m)
          norm_exp n s0 = Some s' ->
        coherent s'
        /\ RbmSpinSymm.LogValLt lncosh m (v_ _ s') (lt_ _ s')
           = RbmSpinSymm.LogVal lncosh m (v_ _ s')).
Proof.
  assert (Hlt : forall s, coherent s ->
            RbmSpinSymm.LogValLt lncosh m (v_ _ s) (lt_ _ s)
            = RbmSpinSymm.LogVal lncosh m (v_ _ s)).
  { intros s (_ & _ & _ & Hth). unfold RbmSpinSymm.LogValLt, RbmSpinSymm.LogVal.
    by rewrite Hth. }
  split.
  - intros s s' Hc Hp. split; [by apply (Proposal_coherent s)|].
    split; [by apply Hlt|].
    destruct Hc as (Hnv & Hlen & Hstep).
    apply Proposal_spec in Hp as (si & l & u & unifs & _ & Hsi & _ & _ & _ & _ & Hacc).
    destruct (dgt _ u).
    + right. exists si, l. destruct Hacc as (_ & _ & ->). split; [done|].
      symmetry.
      refine (RbmSpinSymmMoves.LogValDiffLt_in_step lncosh m (v_ _ s) [si] [l]
                (lt_ _ s) Hwf Hlen _ _ _ _); try done.
      * apply NoDup_singleton.
      * apply Forall_singleton. lia.
      * apply Hstep.
    + left. by destruct Hacc as (_ & _ & ->).
  - intros initrandom n s s0 s' Hnv Hr Hlen Hs.
    assert (Hc0 : coherent s0).
    { unfold Reset in Hr. destruct (if initrandom then _ else _) as [[v g]|]; [|done].
      injection Hr as <-. cbn in *. split; [done|]. split; [done|].
      apply RbmSpinSymmMoves.InitLookup_in_step. }
    assert (Hc : coherent s').
    { apply (Sweeps_invariant _ _ (RbmSpinSymm.LogValDiffLt lncosh m)
               (RbmSpinSymm.UpdateLookup m) norm_exp coherent Proposal_coherent n s0);
        done. }
    split; [done|by apply Hlt].
Qed.

End OnRbm.
End MetropolisLocalRuns.


(** ** Spin: local states, random and updated configurations *)
Module SpinStates.
Import Spin.

(** The loop of [Init] that fills [local_]. *)
Lemma local_loop (n : nat) (l0 : list R) (sp0 : Z) :
  length l0 = n ->
  for_loop n (fun i '(local, sp) => (<[i := IZR sp]> local, (sp + 2)%Z)) (l0, sp0)
  = (map (fun i => IZR (sp0 + 2 * Z.of_nat i)) (seq 0 n), (sp0 + 2 * Z.of_nat n)%Z).
Proof.
  intros Hlen.
  assert (G : forall k,
    for_loop k (fun i '(local, sp) => (<[i := IZR sp]> local, (sp + 2)%Z)) (l0, sp0)
    = (for_loop k (fun i l => <[i := IZR (sp0 + 2 * Z.of_nat i)]> l) l0,
       (sp0 + 2 * Z.of_nat k)%Z)).
  { induction k as [|k IH]; [cbn; f_equal; lia|].
    rewrite !for_loop_S, IH. f_equal. lia. }
  rewrite G. f_equal. by apply (fill_all (fun i => IZR (sp0 + 2 * Z.of_nat i))).
Qed.

Lemma length_resize (n : nat) (l : list R) : length (resize n l) = n.
Proof. unfold resize. rewrite length_app, length_take, length_replicate. lia. Qed.

Lemma Init_local_states_aux (h : t) (nspins : nat) (S : Q) :
  ((S <= 0)%Q -> Init h nspins S = Aborts)
  /\ ((0 < S)%Q -> (forall k : Z, ~ (2 * S == inject_Z k)%Q) -> Init h nspins S = Aborts)
  /\ (forall k : Z, (0 < S)%Q -> (2 * S == inject_Z k)%Q ->
        Init h nspins S
        = Returns {| S_ := S; totalS_ := totalS_ h; constraintSz_ := constraintSz_ h;
                     local_ := map (fun i => IZR (2 * Z.of_nat i - k))
                                 (seq 0 (Z.to_nat (k + 1)));
                     nstates_ := Z.to_nat (k + 1); nspins_ := nspins |}).
Proof.
  unfold Init. split; [|split].
  - intros HS. by rewrite (proj2 (Qle_bool_iff S 0) HS).
  - intros HS Hk.
    destruct (Qle_bool S 0) eqn:E; [done|].
    destruct (Qeq_bool (inject_Z (floor (2 * S))) (2 * S)) eqn:E2; [|done].
    exfalso. apply Qeq_bool_eq in E2. by apply (Hk (floor (2 * S))).
  - intros k HS Hk.
    destruct (Qle_bool S 0) eqn:E.
    { apply Qle_bool_iff in E. exfalso. by apply (Qlt_not_le 0 S). }
    assert (Ef : floor (2 * S) = k).
    { unfold floor. rewrite (Qfloor_comp _ _ Hk). apply Qfloor_Z. }
    rewrite Ef. rewrite (Qeq_eq_bool _ _ (Qeq_sym _ _ Hk)). cbn [negb].
    rewrite local_loop by apply length_resize.
    do 2 f_equal. apply map_ext. intros i. f_equal. lia.
Qed.

(** X16.  [Init(nspins, S)] aborts unless [S] is positive and [2S] is
    an integer; it then sets [S_] and [nspins_] and leaves [2S + 1]
    local states, the quantum numbers [-2S, -2S + 2, ..., 2S] in
    increasing order, whatever [local_] held before; [totalS_] and
    [constraintSz_] are as they were. *)
Theorem Init_local_states (h : t) (nspins : nat) (S : Q) :
  ((S <= 0)%Q -> Init h nspins S = Aborts)
  /\ ((0 < S)%Q -> (forall k : Z, ~ (2 * S == inject_Z k)%Q) -> Init h nspins S = Aborts)
  /\ (forall k : Z, (0 < S)%Q -> (2 * S == inject_Z k)%Q ->
        Init h nspins S
        = Returns {| S_ := S; totalS_ := totalS_ h; constraintSz_ := constraintSz_ h;
                     local_ := map (fun i => IZR (2 * Z.of_nat i - k))
                                 (seq 0 (Z.to_nat (k + 1)));
                     nstates_ := Z.to_nat (k + 1); nspins_ := nspins |}).
Proof. apply Init_local_states_aux. Qed.

Lemma Q2R_inject_Z (z : Z) : Q2R (inject_Z z) = IZR z.
Proof. unfold Q2R. simpl. field. Qed.

(** The machine that [Init] returns, from its result. *)
Lemma Init_Returns (h0 : t) (nspins : nat) (S : Q) (h : t) :
  Init h0 nspins S = Returns h ->
  exists k : Z,
    (0 < S)%Q /\ (2 * S == inject_Z k)%Q /\ (0 < k)%Z
    /\ h = {| S_ := S; totalS_ := totalS_ h0; constraintSz_ := constraintSz_ h0;
              local_ := map (fun i => IZR (2 * Z.of_nat i - k)) (seq 0 (Z.to_nat (k + 1)));
              nstates_ := Z.to_nat (k + 1); nspins_ := nspins |}.
Proof.
  intros Hi.
  destruct (Qlt_le_dec 0 S) as [HS|HS].
  2:{ by rewrite (proj1 (Init_local_states_aux h0 nspins S) HS) in Hi. }
  exists (floor (2 * S)).
  assert (Hk : (2 * S == inject_Z (floor (2 * S)))%Q).
  { unfold Init in Hi. destruct (Qle_bool S 0); [done|].
    destruct (Qeq_bool (inject_Z (floor (2 * S))) (2 * S)) eqn:E2; [|done].
    symmetry. by apply Qeq_bool_eq. }
  split; [done|]. split; [done|].
  assert (Hpos : (0 < floor (2 * S))%Z).
  { rewrite Zlt_Qlt. rewrite <- Hk. by apply Qmult_lt_0_compat. }
  split; [done|].
  rewrite (proj2 (proj2 (Init_local_states_aux h0 nspins S)) _ HS Hk) in Hi.
  by injection Hi.
Qed.

Section Random.
Variable std_shuffle : list R -> list nat -> list R * list nat.

(** The loop of the unconstrained branch of [RandomVals]. *)
Lemma unconstrained_loop (h : t) (state : list R) (rgen : list nat) (n : nat) :
  n <= length state -> n <= length rgen ->
  Forall (fun k => k < nstates_ h) (take n rgen) ->
  for_loop n (fun i =>
    step (fun '(state, rgen) =>
      match rgen with
      | [] => Undefined
      | k :: rgen =>
          if decide (k < nstates_ h) then
            Returns (<[i := Q2R (2 * (inject_Z (Z.of_nat k) - S_ h))]> state, rgen)
          else Undefined
      end)) (Returns (state, rgen))
  = Returns (map (fun k => Q2R (2 * (inject_Z (Z.of_nat k) - S_ h))) (take n rgen)
             ++ drop n state, drop n rgen).
Proof.
  induction n as [|n IH]; intros Hs Hr Hall; [done|].
  destruct (lookup_lt_is_Some_2 rgen n ltac:(lia)) as [k Hk].
  rewrite (take_S_r _ _ _ Hk) in Hall. apply Forall_app in Hall as [Hall Hkn].
  apply (proj1 (Forall_singleton _ _)) in Hkn.
  rewrite for_loop_S, IH by (done || lia). cbn [step].
  rewrite (drop_S _ _ _ Hk). rewrite decide_True by done.
  rewrite (take_S_r _ _ _ Hk), map_app. cbn [map]. do 2 f_equal.
  destruct (lookup_lt_is_Some_2 state n ltac:(lia)) as [x Hx].
  rewrite (drop_S _ _ _ Hx).
  replace n with (length (map (fun k => Q2R (2 * (inject_Z (Z.of_nat k) - S_ h)))
                            (take n rgen)) + 0) at 1
    by (rewrite length_map, length_take; lia).
  rewrite insert_app_r. cbn. by rewrite <- app_assoc.
Qed.

(** X17.  On a space that [Init] has set up, with no constraint, and
    an engine whose next [nspins] draws are indices of local states,
    [RandomVals] gives every site the local state whose index is drawn
    for it, and uses up these draws. *)
Theorem RandomVals_unconstrained (nspins : nat) (S : Q) (h0 h : t) (state : list R)
    (rgen : list nat) :
  Init h0 nspins S = Returns h -> constraintSz_ h = false ->
  length state = nspins -> nspins <= length rgen ->
  Forall (fun k => k < nstates_ h) (take nspins rgen) ->
  RandomVals std_shuffle h state rgen
  = Returns (map (fun k => nth k (local_ h) 0%R) (take nspins rgen), drop nspins rgen)
    /\ Forall (fun x => x ∈ local_ h) (map (fun k => nth k (local_ h) 0%R) (take nspins rgen)).
Proof.
  intros Hi Ec Hlen Hr Hall.
  apply Init_Returns in Hi as (k & HS & Hk & Hpos & Eh).
  assert (En : nspins_ h = nspins) by (by rewrite Eh).
  assert (ES : S_ h = S) by (by rewrite Eh).
  assert (Es : nstates_ h = Z.to_nat (k + 1)) by (by rewrite Eh).
  assert (El : local_ h = map (fun i => IZR (2 * Z.of_nat i - k))
                            (seq 0 (Z.to_nat (k + 1)))) by (by rewrite Eh).
  split.
  - unfold RandomVals. rewrite En, Ec, Hlen, Nat.eqb_refl. cbn [negb].
    rewrite unconstrained_loop by (done || lia).
    rewrite drop_ge, app_nil_r by lia. do 2 f_equal.
    apply map_ext_in. intros j Hj. apply list_elem_of_In in Hj.
    apply (proj1 (Forall_forall _ _) Hall) in Hj.
    rewrite El, (nth_map_seq (fun i => IZR (2 * Z.of_nat i - k))) by lia.
    rewrite <- Q2R_inject_Z, ES. apply Qreals.Qeq_eqR.
    unfold Zminus. rewrite inject_Z_plus, inject_Z_opp, inject_Z_mult, <- Hk. ring.
  - apply Forall_forall. intros x Hx.
    apply list_elem_of_fmap in Hx as (j & -> & Hj).
    apply (proj1 (Forall_forall _ _) Hall) in Hj.
    apply list_elem_of_In, nth_In. rewrite El, length_map, length_seq. lia.
Qed.

(** *** The constrained branch for spins above 1/2 *)

Lemma filter_ext_elem {X : Type} (P Q : X -> Prop) `{!forall x, Decision (P x)}
    `{!forall x, Decision (Q x)} (l : list X) :
  (forall x, x ∈ l -> (P x <-> Q x)) -> filter P l = filter Q l.
Proof.
  induction l as [|a l IH]; intros E; [done|]. rewrite !filter_cons.
  rewrite IH by (intros x Hx; apply E; by right).
  pose proof (E a ltac:(by left)) as Ea.
  destruct (decide (P a)), (decide (Q a)); tauto.
Qed.

Lemma filter_all {X : Type} (P : X -> Prop) `{!forall x, Decision (P x)} (l : list X) :
  (forall x, x ∈ l -> P x) -> filter P l = l.
Proof.
  induction l as [|a l IH]; intros E; [done|]. rewrite filter_cons.
  rewrite decide_True by (apply E; by left). rewrite IH; [done|].
  intros x Hx. apply E. by right.
Qed.

(** Removing the entry of a list without repetitions at a position is
    removing its value. *)
Lemma delete_filter_ne (l : list nat) (s : nat) :
  NoDup l -> s < length l -> delete s l = filter (fun x => x <> nth s l 0) l.
Proof.
  revert s. induction l as [|a l IH]; intros s Hnd Hs; [simpl in Hs; lia|].
  apply NoDup_cons in Hnd as [Ha Hnd]. simpl in Hs.
  destruct s as [|s]; cbn [delete nth].
  - rewrite filter_cons, decide_False by (by intros E; apply E).
    symmetry. apply filter_all. intros x Hx ->. done.
  - assert (Hin : nth s l 0 ∈ l) by (apply list_elem_of_In, nth_In; lia).
    rewrite filter_cons, decide_True by (by intros ->).
    change (a :: delete s l = a :: filter (fun x => x <> nth s l 0) l).
    f_equal. apply IH; [done|lia].
Qed.

Lemma sum_list_insert_S (c : list nat) (i : nat) :
  i < length c -> sum_list (<[i := S (nth i c 0)]> c) = S (sum_list c).
Proof.
  revert i. induction c as [|x c IH]; intros i Hi; [simpl in Hi; lia|].
  destruct i as [|i]; cbn; [lia|]. simpl in Hi. rewrite IH by lia. lia.
Qed.

Lemma sum_list_full (c : list nat) (K : nat) :
  Forall (fun x => x <= K) c -> (forall i, i < length c -> ~ nth i c 0 < K) ->
  sum_list c = K * length c.
Proof.
  induction c as [|x c IH]; intros Hall Hfull; [cbn; lia|].
  apply Forall_cons in Hall as [Hx Hall]. cbn [sum_list sum_list_with length].
  pose proof (Hfull 0 ltac:(simpl; lia)) as H0. cbn in H0.
  change (Datatypes.id x) with x.
  rewrite IH; [rewrite Nat.mul_succ_r; lia|done|].
  intros i Hi. apply (Hfull (S i)). simpl. lia.
Qed.


(** One round of the loop of the constrained branch: a site still
    below [2S] is drawn and raised by 2, and taken off the list when it
    reaches [2S]. *)
Definition raise (h : t) (st : list R * list nat * nat * list nat)
    : outcome (list R * list nat * nat * list nat) :=
  let '(state, sites, ss, rgen) := st in
  if decide (ss = 0) then Undefined
  else
    match rgen with
    | [] => Undefined
    | s :: rgen =>
        if decide (s < ss) then
          let site := nth s sites 0 in
          let x := (nth site state 0 + 2)%R in
          let state := <[site := x]> state in
          if Rlt_dec (Q2R (2 * S_ h - 1)) x
          then Returns (state, delete s sites, ss - 1, rgen)
          else Returns (state, sites, ss, rgen)
        else Undefined
    end.

Section Constrained.
Variable h : t.
Variable K : nat.
Hypothesis HS : (2 * S_ h == inject_Z (Z.of_nat K))%Q.

(** The quantum number of a site that was raised [j] times. *)
Definition level (j : nat) : R := IZR (2 * Z.of_nat j - Z.of_nat K).

(** What the loop keeps after [i] rounds: the sites have been raised [i]
    times in all, none above [2S], and the list holds, in increasing
    order, the sites that are still below [2S]. *)
Definition raised (i : nat) (st : list R * list nat * nat * list nat) : Prop :=
  exists c : list nat,
    length c = nspins_ h /\ Forall (fun j => j <= K) c /\ sum_list c = i
    /\ st.1.1.1 = map level c
    /\ st.1.1.2 = filter (fun idx => nth idx c 0 < K) (seq 0 (nspins_ h))
    /\ st.1.2 = length st.1.1.2.

Lemma threshold : Q2R (2 * S_ h - 1) = IZR (Z.of_nat K - 1).
Proof.
  rewrite Qreals.Q2R_minus, (Qreals.Qeq_eqR _ _ HS), Q2R_inject_Z, minus_IZR.
  f_equal. unfold Q2R. cbn. field.
Qed.

Lemma raise_raised (i : nat) (st st' : list R * list nat * nat * list nat) :
  raised i st -> raise h st = Returns st' ->
  raised (S i) st' /\ exists s, st.2 = s :: st'.2.
Proof.
  destruct st as [[[state sites] ss] rgen].
  intros (c & Hlen & Hall & Hsum & Est & Esites & Ess). cbn [fst snd] in *.
  unfold raise. destruct (decide (ss = 0)) as [|Hss]; [done|].
  destruct rgen as [|s rgen]; [done|].
  destruct (decide (s < ss)) as [Hs|]; [|done]. cbn zeta.
  set (site := nth s sites 0).
  assert (Hin : site ∈ sites) by (apply list_elem_of_In, nth_In; lia).
  pose proof Hin as Hin'. rewrite Esites in Hin'.
  apply list_elem_of_filter in Hin' as [Hlt Hseq]. apply elem_of_seq in Hseq.
  assert (Hnd : NoDup sites) by (rewrite Esites; apply NoDup_filter, NoDup_seq).
  assert (Ex : (nth site state 0 + 2)%R = level (S (nth site c 0))).
  { rewrite Est. rewrite (nth_lookup_Some _ _ _ (level (nth site c 0))).
    - unfold level. rewrite <- plus_IZR. f_equal. lia.
    - rewrite list_lookup_fmap.
      destruct (nth_lookup_or_length c site 0) as [->|]; [done|lia]. }
  rewrite Ex, threshold.
  assert (Estate : <[site := level (S (nth site c 0))]> state
                   = map level (<[site := S (nth site c 0)]> c)).
  { rewrite Est. symmetry. apply list_fmap_insert. }
  assert (Hother : forall x, x <> site ->
            nth x (<[site := S (nth site c 0)]> c) 0 = nth x c 0).
  { intros x Hx. by rewrite !nth_lookup, list_lookup_insert_ne. }
  assert (Hsite : nth site (<[site := S (nth site c 0)]> c) 0 = S (nth site c 0)).
  { apply nth_lookup_Some. apply list_lookup_insert_eq. lia. }
  unfold level at 1.
  destruct (Rlt_dec _ _) as [Hr|Hr]; intros [= <-]; cbn [fst snd].
  - apply lt_IZR in Hr.
    split; [|by exists s].
    exists (<[site := S (nth site c 0)]> c). cbn [fst snd].
    split; [by rewrite length_insert|].
    split; [apply Forall_insert; [done|lia]|].
    split; [rewrite sum_list_insert_S by lia; lia|].
    split; [done|]. split.
    + rewrite delete_filter_ne by (done || lia). fold site.
      rewrite Esites, list_filter_filter. apply list_filter_iff. intros x.
      destruct (decide (x = site)) as [->|Hx].
      * rewrite Hsite. split; [by intros [? _]|lia].
      * rewrite Hother by done. tauto.
    + rewrite length_delete by (apply lookup_lt_is_Some_2; lia). lia.
  - assert (Hlt' : S (nth site c 0) < K).
    { destruct (decide (S (nth site c 0) < K)) as [|Hge]; [done|].
      exfalso. apply Hr. apply IZR_lt. lia. }
    split; [|by exists s].
    exists (<[site := S (nth site c 0)]> c). cbn [fst snd].
    split; [by rewrite length_insert|].
    split; [apply Forall_insert; [done|lia]|].
    split; [rewrite sum_list_insert_S by lia; lia|].
    split; [done|]. split; [|done].
    rewrite Esites. apply list_filter_iff. intros x.
    destruct (decide (x = site)) as [->|Hx].
    + rewrite Hsite. tauto.
    + by rewrite Hother.
Qed.

(** While fewer than [2S * nspins] raises have been made, a site is
    left to raise, and the draw 0 is in range. *)
Lemma raise_returns (i : nat) (state : list R) (sites : list nat) (ss : nat)
    (rest : list nat) :
  raised i (state, sites, ss, 0 :: rest) -> i < K * nspins_ h ->
  exists st', raise h (state, sites, ss, 0 :: rest) = Returns st' /\ st'.2 = rest.
Proof.
  intros (c & Hlen & Hall & Hsum & Est & Esites & Ess) Hi. cbn [fst snd] in *.
  assert (Hss : ss <> 0).
  { intros E. rewrite E in Ess. symmetry in Ess. apply nil_length_inv in Ess.
    rewrite Ess in Esites. symmetry in Esites.
    assert (sum_list c = K * length c); [|rewrite Hlen in *; lia].
    apply sum_list_full; [done|]. intros j Hj Hlt.
    assert (Hin : j ∈ filter (fun idx => nth idx c 0 < K) (seq 0 (nspins_ h))).
    { apply list_elem_of_filter. split; [done|]. apply elem_of_seq. lia. }
    rewrite Esites in Hin. by apply elem_of_nil in Hin. }
  unfold raise. rewrite decide_False by done.
  rewrite decide_True by lia. cbn zeta.
  destruct (Rlt_dec _ _); by eexists.
Qed.

Lemma sum_list_bound (c : list nat) :
  Forall (fun j => j <= K) c -> sum_list c <= K * length c.
Proof.
  induction 1 as [|x c Hx _ IH]; cbn [sum_list sum_list_with length]; [lia|].
  change (Datatypes.id x) with x. fold (sum_list c). rewrite Nat.mul_succ_r. lia.
Qed.

Lemma raised_bound (i : nat) (st : list R * list nat * nat * list nat) :
  raised i st -> i <= K * nspins_ h.
Proof.
  intros (c & Hlen & Hall & Hsum & _). rewrite <- Hsum, <- Hlen.
  by apply sum_list_bound.
Qed.

Lemma raise_loop_raised (n : nat) (st0 st' : list R * list nat * nat * list nat) :
  raised 0 st0 ->
  for_loop n (fun _ => step (raise h)) (Returns st0) = Returns st' ->
  raised n st'.
Proof.
  intros H0. revert st'. induction n as [|n IH]; intros st'.
  - by intros [= <-].
  - rewrite for_loop_S. destruct (for_loop n _ _) as [a| |]; [|done..].
    cbn [step]. intros E. by apply (raise_raised n a st' (IH a eq_refl)).
Qed.

Lemma raise_loop_aborts (n : nat) (st0 : list R * list nat * nat * list nat) :
  for_loop n (fun _ => step (raise h)) (Returns st0) <> Aborts.
Proof.
  induction n as [|n IH]; [done|].
  rewrite for_loop_S. destruct (for_loop n _ _) as [[[[state sites] ss] rgen]| |];
    [|done..].
  cbn [step raise]. destruct (decide (ss = 0)); [done|].
  destruct rgen as [|s rgen]; [done|]. destruct (decide (s < ss)); [|done].
  cbn zeta. by destruct (Rlt_dec _ _).
Qed.

Lemma raise_loop_returns (n : nat) (state : list R) (sites : list nat) (ss : nat)
    (rest : list nat) (j : nat) :
  raised 0 (state, sites, ss, replicate n 0 ++ rest) ->
  n <= K * nspins_ h -> j <= n ->
  exists st',
    for_loop j (fun _ => step (raise h))
      (Returns (state, sites, ss, replicate n 0 ++ rest)) = Returns st'
    /\ raised j st' /\ st'.2 = replicate (n - j) 0 ++ rest.
Proof.
  intros H0 Hn. induction j as [|j IH]; intros Hj.
  - eexists. split; [done|]. split; [done|]. cbn [snd]. by rewrite Nat.sub_0_r.
  - destruct IH as ([[[state' sites'] ss'] rgen'] & E & Hr & Et); [lia|].
    cbn [snd] in Et. replace (n - j) with (S (n - S j)) in Et by lia.
    cbn [replicate app] in Et. subst rgen'.
    destruct (raise_returns j state' sites' ss' _ Hr ltac:(lia)) as (st' & E' & Et').
    exists st'. rewrite for_loop_S, E. cbn [step]. split; [done|].
    split; [|done]. by apply (raise_raised j _ st' Hr).
Qed.

Lemma total_level (c : list nat) :
  foldr Rplus 0%R (map level c)
  = IZR (2 * Z.of_nat (sum_list c) - Z.of_nat K * Z.of_nat (length c)).
Proof.
  induction c as [|x c IH].
  { cbn [map foldr sum_list sum_list_with length]. f_equal. lia. }
  cbn [map foldr sum_list sum_list_with length]. rewrite IH.
  unfold level. rewrite <- plus_IZR. f_equal.
  change (Datatypes.id x) with x. fold (sum_list c). lia.
Qed.

(** The state the loop starts from: every site at [-2S], every site in
    the list. *)
Lemma raised_start (state : list R) (rgen : list nat) :
  0 < K -> length state = nspins_ h ->
  raised 0 (map (fun _ => Q2R (- 2 * S_ h)) state, seq 0 (nspins_ h), nspins_ h, rgen).
Proof.
  intros HK Hlen. exists (replicate (nspins_ h) 0). cbn [fst snd].
  split; [by rewrite length_replicate|].
  split; [apply Forall_replicate; lia|].
  split; [by rewrite sum_list_replicate, Nat.mul_0_r|].
  split; [|split].
  - assert (E : Q2R (- 2 * S_ h) = level 0).
    { assert (E' : (- 2 * S_ h == - (2 * S_ h))%Q) by ring.
      rewrite (Qreals.Qeq_eqR _ _ E'), Qreals.Q2R_opp, (Qreals.Qeq_eqR _ _ HS),
        Q2R_inject_Z.
      unfold level. rewrite <- opp_IZR. f_equal; lia. }
    rewrite E, <- Hlen. clear. induction state as [|x l IH]; [done|].
    cbn [map length replicate]. by rewrite IH.
  - symmetry. apply filter_all. intros x Hx. apply elem_of_seq in Hx.
    rewrite (nth_lookup_Some _ _ _ 0); [done|]. apply lookup_replicate_2. lia.
  - by rewrite length_seq.
Qed.

End Constrained.

(** X18.  On a space that [Init] has set up for a spin [S] that is not
    1/2, with the total magnetisation [Sz] fixed so that
    [S * nspins + Sz] is an integer [n]: a state that [RandomVals]
    returns is made of local states and its entries sum to [2 * Sz];
    with [n <= 2S * nspins] and an engine that draws 0 [n] times it
    does return, using up these draws; with [n > 2S * nspins] it never
    returns, for it comes to draw from an empty range of sites. *)
Theorem RandomVals_constrained (nspins : nat) (S Sz : Q) (hinit h0 : t) (n : nat)
    (state : list R) :
  Init hinit nspins S = Returns h0 ->
  Qeq_bool S (1 # 2) = false ->
  (S * inject_Z (Z.of_nat nspins) + Sz == inject_Z (Z.of_nat n))%Q ->
  length state = nspins ->
  (forall rgen state' rgen',
     RandomVals std_shuffle (SetConstraint h0 Sz) state rgen = Returns (state', rgen') ->
     length state' = nspins /\ Forall (fun x => x ∈ local_ h0) state'
     /\ foldr Rplus 0%R state' = Q2R (2 * Sz))
  /\ (forall rest,
        (inject_Z (Z.of_nat n) <= 2 * S * inject_Z (Z.of_nat nspins))%Q ->
        exists state',
          RandomVals std_shuffle (SetConstraint h0 Sz) state (replicate n 0 ++ rest)
          = Returns (state', rest))
  /\ (forall rgen,
        (2 * S * inject_Z (Z.of_nat nspins) < inject_Z (Z.of_nat n))%Q ->
        RandomVals std_shuffle (SetConstraint h0 Sz) state rgen = Undefined).
Proof.
  intros Hi Hhalf Hn Hlen.
  apply Init_Returns in Hi as (k & HS & Hk & Hpos & ->). cbn [local_].
  match goal with |- context [SetConstraint ?h0 Sz] => set (h := SetConstraint h0 Sz) end.
  assert (Ec : constraintSz_ h = true) by done.
  assert (En : nspins_ h = nspins) by done.
  assert (ES : S_ h = S) by done.
  assert (Et : totalS_ h = Sz) by done.
  set (K := Z.to_nat k).
  assert (HK : (2 * S_ h == inject_Z (Z.of_nat K))%Q).
  { rewrite ES, Hk. unfold K. by rewrite Z2Nat.id by lia. }
  assert (HKpos : 0 < K) by (unfold K; lia).
  assert (Hbound : (2 * S * inject_Z (Z.of_nat nspins)
                    == inject_Z (Z.of_nat (K * nspins)))%Q).
  { rewrite Nat2Z.inj_mul, inject_Z_mult. rewrite ES in HK. by rewrite HK. }
  assert (Eloop : forall rgen,
    RandomVals std_shuffle h state rgen
    = match for_loop n (fun _ => step (raise h))
              (Returns (map (fun _ => Q2R (- 2 * S_ h)) state, seq 0 (nspins_ h),
                        nspins_ h, rgen)) with
      | Returns (state, _, _, rgen) => Returns (state, rgen)
      | Aborts => Aborts
      | Undefined => Undefined
      end).
  { intros rgen. unfold RandomVals.
    rewrite En, Hlen, Nat.eqb_refl, Ec, ES, Hhalf, Et. cbn [negb]. cbn zeta.
    rewrite Hn, Qceiling_Z, Nat2Z.id. reflexivity. }
  clearbody h.
  split; [|split].
  - intros rgen state' rgen' E. rewrite Eloop in E.
    destruct (for_loop n _ _) as [[[[st sites] ss] rg]| |] eqn:Ef; [|done..].
    injection E as <- <-.
    apply (raise_loop_raised h K HK) in Ef; [|apply (raised_start h K HK); [lia|by rewrite En]].
    destruct Ef as (c & Hc & Hall & Hsum & Est & _). cbn [fst snd] in Est.
    subst st. split; [by rewrite length_map, Hc|]. split.
    + apply Forall_fmap. eapply Forall_impl; [exact Hall|].
      intros j Hj. cbn. apply list_elem_of_fmap. exists j.
      split; [unfold level, K; by rewrite Z2Nat.id by lia|].
      apply elem_of_seq. unfold K in Hj. lia.
    + rewrite total_level, Hsum, Hc, En.
      rewrite Qreals.Q2R_mult. rewrite ES in HK.
      apply Qreals.Qeq_eqR in Hn, HK.
      rewrite Qreals.Q2R_plus, Qreals.Q2R_mult, !Q2R_inject_Z in Hn.
      rewrite Qreals.Q2R_mult, Q2R_inject_Z in HK.
      rewrite minus_IZR, !mult_IZR.
      replace (Q2R 2) with 2%R in * by (unfold Q2R; cbn; field).
      rewrite <- Hn, <- HK. ring.
  - intros rest Hle. rewrite Hbound in Hle. rewrite <- Zle_Qle in Hle.
    apply Nat2Z.inj_le in Hle. rewrite Eloop.
    destruct (raise_loop_returns h K HK n _ _ _ rest n
                (raised_start h K HK state _ HKpos ltac:(by rewrite En))
                ltac:(by rewrite En) ltac:(done))
      as ([[[st sites] ss] rg] & E & _ & Erg).
    rewrite E. cbn [snd] in Erg. rewrite Nat.sub_diag in Erg. cbn in Erg.
    subst rg. by exists st.
  - intros rgen Hlt. rewrite Hbound in Hlt. rewrite <- Zlt_Qlt in Hlt.
    apply Nat2Z.inj_lt in Hlt. rewrite Eloop.
    destruct (for_loop n _ _) as [st| |] eqn:Ef.
    + apply (raise_loop_raised h K HK) in Ef; [|apply (raised_start h K HK); [lia|by rewrite En]].
      apply (raised_bound h K) in Ef. rewrite En in Ef. lia.
    + by apply raise_loop_aborts in Ef.
    + done.
Qed.

End Random.

(** *** [UpdateConf] *)
Section Update.
Context {A : Type}.
Variable d : A.

Lemma UpdateConf_prefix (v newconf : list A) (tochange : list nat) (n : nat) :
  NoDup tochange -> Forall (fun sf => sf < length v) tochange ->
  length newconf = length tochange -> n <= length tochange ->
  let v' := for_loop n (fun i v =>
              match newconf !! i with
              | Some x => <[nth i tochange 0 := x]> v
              | None => v
              end) v in
  length v' = length v
  /\ (forall s, s < n -> nth (nth s tochange 0) v' d = nth s newconf d)
  /\ (forall i, (forall s, s < n -> nth s tochange 0 <> i) -> nth i v' d = nth i v d).
Proof.
  intros Hnd Hrange Hnew. induction n as [|n IH]; intros Hn; cbn zeta.
  - split; [done|]. split; [intros s Hs; lia|done].
  - rewrite for_loop_S. destruct (IH ltac:(lia)) as (Hlen & Hin & Hout).
    destruct (lookup_lt_is_Some_2 newconf n ltac:(lia)) as [x Hx]. rewrite Hx.
    assert (Hsf : nth n tochange 0 < length v).
    { apply (proj1 (Forall_forall _ _) Hrange). apply list_elem_of_In, nth_In. lia. }
    split; [by rewrite length_insert|]. split.
    + intros s Hs. destruct (decide (s = n)) as [->|Hne].
      * rewrite (nth_lookup_Some _ _ _ _ Hx). apply nth_lookup_Some.
        apply list_lookup_insert_eq. lia.
      * rewrite nth_lookup, list_lookup_insert_ne, <- nth_lookup; [apply Hin; lia|].
        intros E. apply NoDup_ListNoDup in Hnd.
        apply (proj1 (NoDup_nth tochange 0) Hnd) in E; lia.
    + intros i Hi. rewrite nth_lookup, list_lookup_insert_ne, <- nth_lookup.
      * apply Hout. intros s Hs. apply Hi. lia.
      * apply Hi. lia.
Qed.

(** X19.  [UpdateConf] on distinct sites of the configuration, with one
    value per site, keeps the length of the configuration, leaves the
    new value at every listed site and every other site as it was;
    updating the same sites with the old values gives the configuration
    back. *)
Theorem UpdateConf_sites (v newconf : list A) (tochange : list nat) :
  NoDup tochange -> Forall (fun sf => sf < length v) tochange ->
  length newconf = length tochange ->
  length (UpdateConf v tochange newconf) = length v
  /\ (forall s, s < length tochange ->
        nth (nth s tochange 0) (UpdateConf v tochange newconf) d = nth s newconf d)
  /\ (forall i, i ∉ tochange -> nth i (UpdateConf v tochange newconf) d = nth i v d)
  /\ UpdateConf (UpdateConf v tochange newconf) tochange
       (map (fun sf => nth sf v d) tochange) = v.
Proof.
  intros Hnd Hrange Hnew.
  assert (Hother : forall i, i ∉ tochange ->
            forall s, s < length tochange -> nth s tochange 0 <> i).
  { intros i Hi s Hs <-. apply Hi. apply list_elem_of_In, nth_In. lia. }
  destruct (UpdateConf_prefix v newconf tochange (length tochange) Hnd Hrange Hnew
              (le_n _)) as (Hlen & Hin & Hout).
  fold (UpdateConf v tochange newconf) in Hlen, Hin, Hout.
  split; [done|]. split; [done|]. split; [intros i Hi; apply Hout; by apply Hother|].
  destruct (UpdateConf_prefix (UpdateConf v tochange newconf)
              (map (fun sf => nth sf v d) tochange) tochange (length tochange) Hnd)
    as (Hlen' & Hin' & Hout'); [by rewrite Hlen|by rewrite length_map|done|].
  fold (UpdateConf (UpdateConf v tochange newconf) tochange
          (map (fun sf => nth sf v d) tochange)) in Hlen', Hin', Hout'.
  apply (nth_ext _ _ d d); [lia|]. intros i _.
  destruct (decide (i ∈ tochange)) as [Hi|Hi].
  - apply list_elem_of_In, (In_nth _ _ 0) in Hi as (s & Hs & <-).
    rewrite Hin' by done.
    rewrite (nth_indep _ d (nth 0 v d)) by (by rewrite length_map).
    apply (map_nth (fun sf => nth sf v d)).
  - rewrite Hout' by (by apply Hother). apply Hout. by apply Hother.
Qed.

End Update.

End SpinStates.


(** ** Sr: the gradient and the zero of the energy *)
Module SrEstimator.
Import Sr.

Lemma vsum_shift {X : Type} (F : X -> C) (c : C) (l : list X) :
  vsum (map (fun x => Cadd (F x) c) l)
  = Cadd (vsum (map F l)) (Cscale (INR (length l)) c).
Proof.
  induction l as [|x l IH].
  - apply C_eq; cbn; lra.
  - cbn [map vsum foldr length]. fold (vsum (map (fun x => Cadd (F x) c) l)).
    fold (vsum (map F l)). rewrite IH, S_INR. apply C_eq; cbn; lra.
Qed.

Lemma Cdivr_shift (z c : C) (n : nat) :
  n <> 0 -> Cdivr (Cadd z (Cscale (INR n) c)) (INR n) = Cadd (Cdivr z (INR n)) c.
Proof.
  intros Hn. assert (INR n <> 0)%R by (by apply not_0_INR).
  apply C_eq; cbn; field; done.
Qed.

Section Shift.
Variables FindConn FindConn' : list R -> list C * list (list nat) * list (list R).
Variable LogValDiff : list R -> list (list nat) -> list (list R) -> list C.
Variable DerLog : list R -> list C.
Variable npar : nat.
Variable cexp : C -> C.
Variable vsamps : list (list (list R)).
Variable c : C.

(** The local energies of the second Hamiltonian are those of the first
    plus [c]; every worker holds at least one sample. *)
Hypothesis Hshift : forall v,
  Eloc FindConn' LogValDiff cexp v = Cadd (Eloc FindConn LogValDiff cexp v) c.
Hypothesis Hnodes : vsamps <> [].
Hypothesis Hsamples : Forall (fun vsamp => vsamp <> []) vsamps.

Lemma local_elocmean_shift (vsamp : list (list R)) :
  vsamp <> [] ->
  local_elocmean FindConn' LogValDiff cexp vsamp
  = Cadd (local_elocmean FindConn LogValDiff cexp vsamp) c.
Proof.
  intros Hne. unfold local_elocmean, local_elocs.
  rewrite (map_ext _ _ Hshift), vsum_shift. apply Cdivr_shift.
  by destruct vsamp.
Qed.

Lemma elocmean_shift (mynode : nat) :
  elocmean_ (Gradient FindConn' LogValDiff DerLog npar cexp vsamps mynode)
  = Cadd (elocmean_ (Gradient FindConn LogValDiff DerLog npar cexp vsamps mynode)) c.
Proof.
  cbn [elocmean_ Gradient]. unfold SumOnNodes, totalnodes_.
  rewrite (map_ext_in _ (fun vs => Cadd (local_elocmean FindConn LogValDiff cexp vs) c)).
  - rewrite vsum_shift. apply Cdivr_shift. by destruct vsamps.
  - intros vs Hvs. apply local_elocmean_shift.
    by apply (proj1 (Forall_forall _ _) Hsamples), list_elem_of_In.
Qed.

Lemma centred_elocs_shift (mynode : nat) (vs : list (list R)) :
  map (fun e => (e - elocmean_ (Gradient FindConn' LogValDiff DerLog npar cexp vsamps
                                  mynode) * one)%T)
    (local_elocs FindConn' LogValDiff cexp vs)
  = map (fun e => (e - elocmean_ (Gradient FindConn LogValDiff DerLog npar cexp vsamps
                                    mynode) * one)%T)
      (local_elocs FindConn LogValDiff cexp vs).
Proof.
  rewrite elocmean_shift. unfold local_elocs. rewrite !map_map.
  apply map_ext. intros v. rewrite Hshift. apply C_eq; cbn; lra.
Qed.

(** X20.  Adding a constant to every local energy (a shift of the zero
    of the Hamiltonian) moves the mean energy by that constant and
    changes neither the centred energies nor the gradient that
    [Gradient] leaves. *)
Theorem Gradient_energy_shift (mynode : nat) :
  let G := Gradient FindConn LogValDiff DerLog npar cexp vsamps mynode in
  let G' := Gradient FindConn' LogValDiff DerLog npar cexp vsamps mynode in
  elocmean_ G' = Cadd (elocmean_ G) c
  /\ elocs_ G' = elocs_ G /\ Ok_ G' = Ok_ G /\ Okmean_ G' = Okmean_ G
  /\ grad_ G' = grad_ G.
Proof.
  intros G G'. split; [apply elocmean_shift|].
  split; [apply (centred_elocs_shift mynode)|]. split; [done|]. split; [done|].
  unfold G, G'. cbn [grad_ Gradient]. f_equal. f_equal.
  apply map_ext. intros vs. apply map_ext. intros k. do 3 f_equal.
  apply (centred_elocs_shift mynode).
Qed.

End Shift.

Lemma vsum_const {X : Type} (c : C) (l : list X) :
  vsum (map (fun _ => c) l) = Cscale (INR (length l)) c.
Proof.
  induction l as [|x l IH].
  - apply C_eq; cbn; lra.
  - cbn [map vsum foldr length]. fold (vsum (map (fun _ : X => c) l)).
    rewrite IH, S_INR. apply C_eq; cbn; lra.
Qed.

Lemma vsum_zeros {X : Type} (l : list X) : vsum (map (fun _ => mkC 0 0) l) = mkC 0 0.
Proof. rewrite vsum_const. apply C_eq; cbn; lra. Qed.

Section Eigenstate.
Variable FindConn : list R -> list C * list (list nat) * list (list R).
Variable LogValDiff : list R -> list (list nat) -> list (list R) -> list C.
Variable DerLog : list R -> list C.
Variable npar : nat.
Variable cexp : C -> C.
Variable vsamps : list (list (list R)).
Variable c : C.

(** Every configuration has the local energy [c], as when the wave
    function is an eigenstate; every worker holds at least one sample. *)
Hypothesis Hconst : forall v, Eloc FindConn LogValDiff cexp v = c.
Hypothesis Hnodes : vsamps <> [].
Hypothesis Hsamples : Forall (fun vsamp => vsamp <> []) vsamps.

Lemma elocmean_const (mynode : nat) :
  elocmean_ (Gradient FindConn LogValDiff DerLog npar cexp vsamps mynode) = c.
Proof.
  cbn [elocmean_ Gradient]. unfold SumOnNodes, totalnodes_.
  rewrite (map_ext_in _ (fun _ => c)).
  - rewrite vsum_const. assert (INR (length vsamps) <> 0)%R.
    { apply not_0_INR. by destruct vsamps. }
    apply C_eq; cbn; field; done.
  - intros vs Hvs. unfold local_elocmean, local_elocs.
    rewrite (map_ext _ _ Hconst), vsum_const.
    assert (INR (length vs) <> 0)%R.
    { apply not_0_INR. apply list_elem_of_In in Hvs.
      apply (proj1 (Forall_forall _ _) Hsamples) in Hvs. by destruct vs. }
    apply C_eq; cbn; field; done.
Qed.

(** X21.  When every configuration has the same local energy, the mean
    energy is that energy, the centred energies of a worker are all zero
    and the gradient that [Gradient] leaves is zero. *)
Theorem Gradient_eigenstate (mynode : nat) :
  mynode < length vsamps ->
  let G := Gradient FindConn LogValDiff DerLog npar cexp vsamps mynode in
  elocmean_ G = c
  /\ elocs_ G = map (fun _ => mkC 0 0) (nth mynode vsamps [])
  /\ grad_ G = map (fun _ => mkC 0 0) (seq 0 npar).
Proof.
  intros _ G.
  assert (Hc : forall vs,
    map (fun e => (e - elocmean_ G * one)%T) (local_elocs FindConn LogValDiff cexp vs)
    = map (fun _ => mkC 0 0) vs).
  { intros vs. unfold G. rewrite elocmean_const. unfold local_elocs.
    rewrite map_map. apply map_ext. intros v. rewrite Hconst.
    apply C_eq; cbn; lra. }
  split; [apply elocmean_const|]. split; [apply Hc|].
  unfold G. cbn [grad_ Gradient]. unfold SumOnNodes_vector. rewrite map_map.
  apply map_ext_in. intros k Hk. apply in_seq in Hk.
  rewrite map_map.
  rewrite (map_ext _ (fun _ => mkC 0 0)).
  { rewrite vsum_zeros. apply C_eq; cbn; unfold Rdiv; ring. }
  intros vs. rewrite nth_map_seq by lia.
  change (map (fun e => (e - ?em * one)%T) (local_elocs FindConn LogValDiff cexp vs))
    with (map (fun e => (e - elocmean_ G * one)%T)
            (local_elocs FindConn LogValDiff cexp vs)).
  rewrite Hc.
  assert (Ez : forall (rows : list (list C)),
    vsum (zip_with (fun (row : list C) (e : C) => (Cconj (nth k row zero) * e)%T) rows
            (map (fun _ => mkC 0 0) vs)) = mkC 0 0).
  { clear. induction vs as [|v vs IH]; intros [|row rows]; try (by cbn).
    cbn [map zip_with vsum foldr].
    fold (vsum (zip_with (fun (row : list C) (e : C) => (Cconj (nth k row zero) * e)%T)
                  rows (map (fun _ => mkC 0 0) vs))).
    rewrite IH. apply C_eq; cbn; ring. }
  rewrite Ez. apply C_eq; cbn; ring.
Qed.

End Eigenstate.
End SrEstimator.


(** *** The machines of two sites again *)

Lemma rbm22_built : RbmSpinSymmDerivatives.built rbm22.
Proof.
  apply RbmSpinSymmDerivatives.SetParameters_built, RbmSpinSymmDerivatives.Init_built.
  - reflexivity.
  - repeat constructor.
Defined.

Lemma rbm21_built : RbmSpinSymmDerivatives.built rbm21.
Proof.
  apply RbmSpinSymmDerivatives.SetParameters_built, RbmSpinSymmDerivatives.Init_built.
  - reflexivity.
  - repeat constructor.
Defined.

Lemma UpdateLookup_in_step_witness :
  let v := [1; -1]%R in
  let lt := RbmSpinSymm.InitLookup rbm22 v [] in
  let v' := UpdateConf v [0] [(-1)%R] in
  let lt' := RbmSpinSymm.UpdateLookup rbm22 v [0] [(-1)%R] lt in
  RbmSpinSymmMoves.in_step rbm22 v' lt'
  /\ drop 1 lt' = drop 1 lt
  /\ RbmSpinSymm.LogValLt lncosh_R rbm22 v lt = RbmSpinSymm.LogVal lncosh_R rbm22 v
  /\ RbmSpinSymm.LogValLt lncosh_R rbm22 v' lt' = RbmSpinSymm.LogVal lncosh_R rbm22 v'
  /\ RbmSpinSymm.LogValDiffLt lncosh_R rbm22 v [0] [(-1)%R] lt
     = (RbmSpinSymm.LogVal lncosh_R rbm22 v' - RbmSpinSymm.LogVal lncosh_R rbm22 v)%R.
Proof.
  refine (RbmSpinSymmMoves.UpdateLookup_in_step lncosh_R rbm22 [1; -1]%R [0] [(-1)%R]
            (RbmSpinSymm.InitLookup rbm22 [1; -1]%R []) _ _ _ _ _ _).
  - apply rbm22_built.
  - reflexivity.
  - apply NoDup_singleton.
  - repeat constructor.
  - reflexivity.
  - apply RbmSpinSymmMoves.InitLookup_in_step.
Defined.

Lemma LogValDiff_batched_witness :
  let v := [1; -1]%R in
  let tochange := [[0]; []; [0; 1]] in
  let newconf := [[(-1)%R]; []; [(-1)%R; 1%R]] in
  length (RbmSpinSymm.LogValDiff lncosh_R rbm22 v tochange newconf) = 3
  /\ nth 1 (RbmSpinSymm.LogValDiff lncosh_R rbm22 v tochange newconf) zero = zero
  /\ nth 2 (RbmSpinSymm.LogValDiff lncosh_R rbm22 v tochange newconf) zero
     = Rminus (RbmSpinSymm.LogVal lncosh_R rbm22 (UpdateConf v [0; 1] [(-1)%R; 1%R]))
         (RbmSpinSymm.LogVal lncosh_R rbm22 v).
Proof.
  intros v tochange newconf.
  destruct (RbmSpinSymmMoves.LogValDiff_batched lncosh_R rbm22 v tochange newconf
              (proj1 rbm22_built) eq_refl) as [H1 H2].
  split; [exact H1|]. split.
  - apply (H2 1); [cbn; lia|reflexivity].
  - apply (H2 2); [cbn; lia| | |reflexivity].
    + cbn. apply NoDup_cons. split; [|apply NoDup_singleton].
      intros H. apply list_elem_of_singleton in H. discriminate.
    + repeat constructor.
Defined.

Lemma SetParameters_GetParameters_witness :
  let m := RbmSpinSymm.Init (T := R) 2 2 false true chain2_table in
  RbmSpinSymm.SetParameters (RbmSpinSymm.SetParameters m [5; 6; 7; 8; 9; 10]%R)
    [20; 30; 1; 2; 3; 4]%R
  = RbmSpinSymm.SetParameters m [20; 30; 1; 2; 3; 4]%R
  /\ RbmSpinSymm.SetParameters (RbmSpinSymm.SetParameters m [20; 30; 1; 2; 3; 4]%R)
       (RbmSpinSymm.GetParameters
          (RbmSpinSymm.SetParameters m [20; 30; 1; 2; 3; 4]%R))
     = RbmSpinSymm.SetParameters m [20; 30; 1; 2; 3; 4]%R.
Proof.
  apply (RbmSpinSymmParameters.SetParameters_GetParameters
           (RbmSpinSymm.Init (T := R) 2 2 false true chain2_table)).
  apply RbmSpinSymm.Init_wf.
Defined.

Lemma DerMatSymm_transpose_witness :
  mget (RbmSpinSymm.DerMatSymm_ rbm22) 4 7 = RbmSpinSymm.J rbm22 7 4.
Proof.
  apply (RbmSpinSymmDerivatives.DerMatSymm_transpose rbm22 4 7).
  - apply rbm22_built.
  - cbn. lia.
  - cbn. lia.
  - intros _. right. cbn. lia.
Defined.

Lemma DerLog_chain_rule_witness :
  RbmSpinSymm.DerLog Rtrigo_def.tanh rbm21 [1; -1]%R
  = RbmSpinSymm.DerLog_spec Rtrigo_def.tanh rbm21 [1; -1]%R.
Proof.
  apply (RbmSpinSymmDerivatives.DerLog_chain_rule Rtrigo_def.tanh rbm21 [1; -1]%R).
  - apply rbm21_built.
  - right. split; [reflexivity|]. right. cbn. lia.
Defined.


(** *** The sweep of the two spins again *)

Lemma Sweep_configuration_witness :
  MetropolisLocal.nv_ _ sampler_down = MetropolisLocal.nv_ _ sampler_up
  /\ MetropolisLocal.nstates_ _ sampler_down = MetropolisLocal.nstates_ _ sampler_up
  /\ MetropolisLocal.localstates_ _ sampler_down = MetropolisLocal.localstates_ _ sampler_up
  /\ length (MetropolisLocal.v_ _ sampler_down) = length (MetropolisLocal.v_ _ sampler_up)
  /\ (Forall (fun x => x ∈ MetropolisLocal.localstates_ _ sampler_up)
        (MetropolisLocal.v_ _ sampler_up) ->
      Forall (fun x => x ∈ MetropolisLocal.localstates_ _ sampler_down)
        (MetropolisLocal.v_ _ sampler_down)).
Proof.
  exact (MetropolisLocalRuns.Sweep_configuration _ _
           (RbmSpinSymm.LogValDiffLt lncosh_R rbm_zero)
           (RbmSpinSymm.UpdateLookup rbm_zero) norm_exp_R
           sampler_up sampler_down sampler_up_Sweep).
Defined.

Lemma sampler_up_Reset :
  MetropolisLocalRuns.Reset _ (RbmSpinSymm.InitLookup rbm_zero) (fun _ _ => None)
    false sampler_up = Some sampler_up.
Proof. reflexivity. Qed.

Lemma sampler_up_Sweeps :
  MetropolisLocalRuns.Sweeps _ _ (RbmSpinSymm.LogValDiffLt lncosh_R rbm_zero)
    (RbmSpinSymm.UpdateLookup rbm_zero) norm_exp_R 1 sampler_up = Some sampler_down.
Proof. exact sampler_up_Sweep. Qed.

Lemma Acceptance_ratio_witness :
  MetropolisLocal.moves_ _ sampler_down = INR (1 * MetropolisLocal.nv_ _ sampler_up)
  /\ (0 <= MetropolisLocal.accept_ _ sampler_down <= MetropolisLocal.moves_ _ sampler_down)%R
  /\ (1 * MetropolisLocal.nv_ _ sampler_up = 0 ->
      MetropolisLocalRuns.Acceptance _ sampler_down = MetropolisLocalRuns.NotANumber)
  /\ (1 * MetropolisLocal.nv_ _ sampler_up <> 0 ->
      exists r, MetropolisLocalRuns.Acceptance _ sampler_down = MetropolisLocalRuns.Ratio r
                /\ r = (MetropolisLocal.accept_ _ sampler_down
                        / MetropolisLocal.moves_ _ sampler_down)%R
                /\ (0 <= r <= 1)%R).
Proof.
  exact (MetropolisLocalRuns.Acceptance_ratio _ _
           (RbmSpinSymm.LogValDiffLt lncosh_R rbm_zero)
           (RbmSpinSymm.UpdateLookup rbm_zero) (RbmSpinSymm.InitLookup rbm_zero)
           norm_exp_R (fun _ _ => None) false 1 sampler_up sampler_up sampler_down
           sampler_up_Reset sampler_up_Sweeps).
Defined.

Lemma rbm_zero_wf : RbmSpinSymm.wf rbm_zero.
Proof. apply RbmSpinSymm.SetParameters_wf, RbmSpinSymm.Init_wf. Qed.

Lemma sampler_up_Sample :
  MetropolisLocalRuns.Sample _ _ (RbmSpinSymm.LogValDiffLt lncosh_R rbm_zero)
    (RbmSpinSymm.UpdateLookup rbm_zero) (RbmSpinSymm.InitLookup rbm_zero) norm_exp_R
    (fun _ _ => None) 1 1 2 sampler_up
  = Some (sampler_down, [MetropolisLocal.v_ _ sampler_down]).
Proof.
  unfold MetropolisLocalRuns.Sample. rewrite sampler_up_Reset.
  change (Qceiling (1 / inject_Z (Z.of_nat 1))) with 1%Z.
  rewrite decide_False by done. change (1 <? 0)%Z with false.
  change (Z.to_nat 1) with 1. rewrite for_loop_S.
  cbn [for_loop MetropolisLocalRuns.Sample_round]. rewrite sampler_up_Sweep.
  rewrite decide_True by reflexivity. reflexivity.
Qed.

Lemma Sample_rows_witness :
  let vsamp := [MetropolisLocal.v_ _ sampler_down] in
  Z.of_nat (length vsamp) = Qceiling (1 / inject_Z (Z.of_nat 1))
  /\ (1 <= inject_Z (Z.of_nat (length vsamp * 1)))%Q
  /\ (inject_Z (Z.of_nat (length vsamp * 1)) < 1 + inject_Z (Z.of_nat 1))%Q
  /\ exists s0,
       MetropolisLocalRuns.Reset _ (RbmSpinSymm.InitLookup rbm_zero) (fun _ _ => None)
         false sampler_up = Some s0
       /\ MetropolisLocalRuns.Sweeps _ _ (RbmSpinSymm.LogValDiffLt lncosh_R rbm_zero)
            (RbmSpinSymm.UpdateLookup rbm_zero) norm_exp_R (length vsamp) s0
          = Some sampler_down
       /\ MetropolisLocal.moves_ _ sampler_down
          = INR (length vsamp * MetropolisLocal.nv_ _ sampler_up)
       /\ forall i, i < length vsamp ->
            exists si,
              MetropolisLocalRuns.Sweeps _ _ (RbmSpinSymm.LogValDiffLt lncosh_R rbm_zero)
                (RbmSpinSymm.UpdateLookup rbm_zero) norm_exp_R (S i) s0 = Some si
              /\ nth i vsamp [] = MetropolisLocalRuns.Visible _ si
              /\ length (nth i vsamp []) = 2.
Proof.
  exact (MetropolisLocalRuns.Sample_rows _ _ (RbmSpinSymm.LogValDiffLt lncosh_R rbm_zero)
           (RbmSpinSymm.UpdateLookup rbm_zero) (RbmSpinSymm.InitLookup rbm_zero)
           norm_exp_R (fun _ _ => None) 1 1 2 sampler_up sampler_down
           [MetropolisLocal.v_ _ sampler_down] sampler_up_Sample).
Defined.

Lemma sampler_up_coherent : MetropolisLocalRuns.coherent rbm_zero sampler_up.
Proof.
  split; [reflexivity|]. split; [reflexivity|].
  apply RbmSpinSymmMoves.InitLookup_in_step.
Qed.

Lemma Sweep_lookup_coherent_witness :
  (MetropolisLocalRuns.coherent rbm_zero sampler_mid
   /\ RbmSpinSymm.LogValLt lncosh_R rbm_zero (MetropolisLocal.v_ _ sampler_up)
        (MetropolisLocal.lt_ _ sampler_up)
      = RbmSpinSymm.LogVal lncosh_R rbm_zero (MetropolisLocal.v_ _ sampler_up))
  /\ MetropolisLocalRuns.coherent rbm_zero sampler_down
  /\ RbmSpinSymm.LogValLt lncosh_R rbm_zero (MetropolisLocal.v_ _ sampler_down)
       (MetropolisLocal.lt_ _ sampler_down)
     = RbmSpinSymm.LogVal lncosh_R rbm_zero (MetropolisLocal.v_ _ sampler_down).
Proof.
  destruct (MetropolisLocalRuns.Sweep_lookup_coherent lncosh_R norm_exp_R
              (fun _ _ => None) rbm_zero rbm_zero_wf) as [H1 H2].
  split.
  - destruct (H1 sampler_up sampler_mid sampler_up_coherent sampler_up_Proposal)
      as (A & B & _).
    exact (conj A B).
  - exact (H2 false 1 sampler_up sampler_up sampler_down eq_refl sampler_up_Reset
             eq_refl sampler_up_Sweeps).
Defined.

(** *** Two spins one *)

(** An object on which nothing has been set up yet, and the two spins
    one that [Init] makes of it. *)
Definition spin_fresh : Spin.t :=
  {| Spin.S_ := 0; Spin.totalS_ := 0; Spin.constraintSz_ := false;
     Spin.local_ := []; Spin.nstates_ := 0; Spin.nspins_ := 0 |}.

Definition spin_one_2 : Spin.t :=
  {| Spin.S_ := 1; Spin.totalS_ := 0; Spin.constraintSz_ := false;
     Spin.local_ := [-2; 0; 2]%R; Spin.nstates_ := 3; Spin.nspins_ := 2 |}.

Lemma spin_one_2_Init : Spin.Init spin_fresh 2 1 = Spin.Returns spin_one_2.
Proof. reflexivity. Qed.

(** A shuffle that leaves the vector as it is. *)
Definition shuffle_none (vect : list R) (rgen : list nat) : list R * list nat :=
  (vect, rgen).

Lemma RandomVals_unconstrained_witness :
  Spin.RandomVals shuffle_none spin_one_2 [0; 0]%R [2; 0; 1]
  = Spin.Returns (map (fun k => nth k (Spin.local_ spin_one_2) 0%R) (take 2 [2; 0; 1]),
                  drop 2 [2; 0; 1])
  /\ Forall (fun x => x ∈ Spin.local_ spin_one_2)
       (map (fun k => nth k (Spin.local_ spin_one_2) 0%R) (take 2 [2; 0; 1])).
Proof.
  refine (SpinStates.RandomVals_unconstrained shuffle_none 2 1 spin_fresh spin_one_2
            [0; 0]%R [2; 0; 1] spin_one_2_Init eq_refl eq_refl _ _).
  - cbn. lia.
  - cbn. repeat constructor.
Defined.

Lemma RandomVals_constrained_witness :
  exists state',
    Spin.RandomVals shuffle_none (Spin.SetConstraint spin_one_2 0) [0; 0]%R [0; 0; 7]
    = Spin.Returns (state', [7])
    /\ length state' = 2
    /\ Forall (fun x => x ∈ Spin.local_ spin_one_2) state'
    /\ foldr Rplus 0%R state' = Q2R (2 * 0).
Proof.
  destruct (SpinStates.RandomVals_constrained shuffle_none 2 1 0 spin_fresh spin_one_2 2
              [0; 0]%R spin_one_2_Init eq_refl ltac:(reflexivity) eq_refl)
    as (H1 & H2 & _).
  destruct (H2 [7]) as [state' E].
  { unfold Qle. cbn. lia. }
  exists state'. split; [exact E|]. exact (H1 _ _ _ E).
Defined.

Lemma UpdateConf_sites_witness :
  let v := [1; 1; 1]%R in
  let tochange := [2; 0] in
  let newconf := [5; 7]%R in
  length (UpdateConf v tochange newconf) = length v
  /\ (forall s, s < length tochange ->
        nth (nth s tochange 0) (UpdateConf v tochange newconf) 0%R = nth s newconf 0%R)
  /\ (forall i, i ∉ tochange -> nth i (UpdateConf v tochange newconf) 0%R = nth i v 0%R)
  /\ UpdateConf (UpdateConf v tochange newconf) tochange
       (map (fun sf => nth sf v 0%R) tochange) = v.
Proof.
  refine (SpinStates.UpdateConf_sites 0%R [1; 1; 1]%R [5; 7]%R [2; 0] _ _ eq_refl).
  - apply NoDup_cons. split; [|apply NoDup_singleton].
    intros H. apply list_elem_of_singleton in H. discriminate.
  - cbn. repeat constructor.
Defined.

(** *** Two workers, a Hamiltonian of one term and its shift *)

(** [std::exp] on complex numbers. *)
Definition Cexp (z : Sr.C) : Sr.C :=
  Sr.mkC (exp (Sr.re z) * cos (Sr.im z)) (exp (Sr.re z) * sin (Sr.im z)).

(** A Hamiltonian with the one diagonal element 1, the same with one
    more diagonal element 2, and a machine whose logarithm never
    changes. *)
Definition one_term (v : list R) : list Sr.C * list (list nat) * list (list R) :=
  ([Sr.mkC 1 0], [[]], [[]]).
Definition two_terms (v : list R) : list Sr.C * list (list nat) * list (list R) :=
  ([Sr.mkC 1 0; Sr.mkC 2 0], [[]; []], [[]; []]).
Definition flat_LogValDiff (v : list R) (tochange : list (list nat))
    (newconf : list (list R)) : list Sr.C :=
  map (fun _ => Sr.mkC 0 0) tochange.
Definition site_DerLog (v : list R) : list Sr.C := map (fun x => Sr.mkC x 0) v.

Definition two_workers : list (list (list R)) :=
  [[[1; -1]]; [[1; 1]; [-1; -1]]]%R.

Lemma one_term_Eloc (v : list R) :
  Sr.Eloc one_term flat_LogValDiff Cexp v = Sr.mkC 1 0.
Proof. apply Sr.C_eq; cbn; rewrite exp_0, ?cos_0, ?sin_0; lra. Qed.

Lemma two_terms_Eloc (v : list R) :
  Sr.Eloc two_terms flat_LogValDiff Cexp v
  = Sr.Cadd (Sr.Eloc one_term flat_LogValDiff Cexp v) (Sr.mkC 2 0).
Proof. apply Sr.C_eq; cbn; rewrite exp_0, ?cos_0, ?sin_0; lra. Qed.

Lemma two_workers_samples : Forall (fun vsamp : list (list R) => vsamp <> []) two_workers.
Proof. repeat constructor; discriminate. Qed.

Lemma Gradient_energy_shift_witness :
  let G := Sr.Gradient one_term flat_LogValDiff site_DerLog 2 Cexp two_workers 1 in
  let G' := Sr.Gradient two_terms flat_LogValDiff site_DerLog 2 Cexp two_workers 1 in
  Sr.elocmean_ G' = Sr.Cadd (Sr.elocmean_ G) (Sr.mkC 2 0)
  /\ Sr.elocs_ G' = Sr.elocs_ G /\ Sr.Ok_ G' = Sr.Ok_ G /\ Sr.Okmean_ G' = Sr.Okmean_ G
  /\ Sr.grad_ G' = Sr.grad_ G.
Proof.
  refine (SrEstimator.Gradient_energy_shift one_term two_terms flat_LogValDiff
            site_DerLog 2 Cexp two_workers (Sr.mkC 2 0) two_terms_Eloc _
            two_workers_samples 1).
  discriminate.
Defined.

Lemma Gradient_eigenstate_witness :
  let G := Sr.Gradient one_term flat_LogValDiff site_DerLog 2 Cexp two_workers 1 in
  Sr.elocmean_ G = Sr.mkC 1 0
  /\ Sr.elocs_ G = map (fun _ => Sr.mkC 0 0) (nth 1 two_workers [])
  /\ Sr.grad_ G = map (fun _ => Sr.mkC 0 0) (seq 0 2).
Proof.
  refine (SrEstimator.Gradient_eigenstate one_term flat_LogValDiff site_DerLog 2 Cexp
            two_workers (Sr.mkC 1 0) one_term_Eloc _ two_workers_samples 1 _).
  - discriminate.
  - cbn. lia.
Defined.
